(** * macos-persist-scan: scan orchestration and risk scoring

    A shallow embedding of the two core packages of the repository,
    [pkg/scanner] (data model and [Orchestrator.RunScan]) and [pkg/risk]
    ([Engine.AssessRisk] and [Engine.scoreToRiskLevel]), followed by the
    properties of the specification that were checked against them.
    Around them: the path heuristic and the name test of
    [internal/heuristics], the SARIF conversion and the table notes of
    [pkg/output], and [runScan] of the command, with their properties
    at the end.

    Conventions of the embedding
    - Go [float64] is Rocq's primitive binary64 [float]; every arithmetic
      operation and comparison is the IEEE 754 one.  Where the language
      lets the compiler fuse [x * y + z] into one operation, both builds
      are covered ([Go.muladd]).
    - Go [int] (64 bits on every platform the tool runs on) is [Z] with the
      wrap-around of [++] written out ([Go.int_incr]).
    - A Go slice is [Go.slice A]: [None] is the nil slice, [Some l] a non-nil
      slice holding [l].
    - [time.Now()] reads a clock given as a sequence of instants; the number
      of readings made so far is part of the state.
    - A [Scanner] or [Heuristic] value is the record of its methods. *)

From Stdlib Require Import ZArith Lia List Bool Floats Uint63.
From Stdlib Require Import Sorting.Sorted Sorting.Permutation.
From stdpp Require Import base list gmap strings.

Set Default Proof Using "Type".
Local Open Scope Z_scope.

(** ** Go primitives used by the two packages *)

Module Go.

(** [int]: two's complement, 64 bits. *)
Definition int_min : Z := - 2 ^ 63.
Definition int_max : Z := 2 ^ 63 - 1.
Definition int_wrap (z : Z) : Z := (z + 2 ^ 63) mod 2 ^ 64 - 2 ^ 63.
Definition int_incr (n : Z) : Z := int_wrap (n + 1).

(** Slices.  [append] follows the built-in: appending nothing to the nil
    slice leaves it nil, every other result is non-nil. *)
Definition slice (A : Type) : Type := option (list A).

Definition elems {A} (s : slice A) : list A :=
  match s with Some l => l | None => [] end.

Definition len {A} (s : slice A) : Z := Z.of_nat (length (elems s)).

Definition append {A} (s : slice A) (xs : list A) : slice A :=
  match s, xs with
  | None, [] => None
  | _, _ => Some (elems s ++ xs)
  end.


(** [float64(n)] for an [int] [n]: the nearest binary64 value. *)
Definition float64_of_int (n : Z) : float :=
  if n <? 0 then
    if n =? int_min then (-0x1p63)%float
    else PrimFloat.opp (PrimFloat.of_uint63 (Uint63.of_Z (- n)))
  else PrimFloat.of_uint63 (Uint63.of_Z n).

(** The comparison operators of the language on [float64]: any
    comparison with NaN is false. *)
Definition fgt (x y : float) : bool := PrimFloat.ltb y x.
Definition fge (x y : float) : bool := PrimFloat.leb y x.

(** [math.Min], with the special cases its documentation lists:
    [Min(x, -Inf) = Min(-Inf, x) = -Inf], [Min(x, NaN) = Min(NaN, x) = NaN],
    [Min(-0, ±0) = Min(±0, -0) = -0]. *)
Definition is_neg_inf (x : float) : bool :=
  PrimFloat.is_infinity x && PrimFloat.get_sign x.

Definition math_Min (x y : float) : float :=
  if is_neg_inf x || is_neg_inf y then PrimFloat.neg_infinity
  else if PrimFloat.is_nan x || PrimFloat.is_nan y then PrimFloat.nan
  else if PrimFloat.eqb x 0%float && PrimFloat.eqb x y then
    (if PrimFloat.get_sign x then x else y)
  else if PrimFloat.ltb x y then x else y.

(** [x * y + z] as one fused multiply-add: the exact product is added
    to [z] exactly and the sum is rounded once, to nearest even.  The
    special cases are those of the product followed by those of the
    sum; a product that is not zero keeps its sign when the result
    underflows to zero. *)
Definition fma_sf (x y z : spec_float) : spec_float :=
  match x, y with
  | S754_nan, _ | _, S754_nan => S754_nan
  | S754_infinity _, S754_zero _ | S754_zero _, S754_infinity _ => S754_nan
  | S754_infinity sx, S754_infinity sy
  | S754_infinity sx, S754_finite sy _ _
  | S754_finite sx _ _, S754_infinity sy =>
      SFadd prec emax (S754_infinity (xorb sx sy)) z
  | S754_finite sx _ _, S754_zero sy
  | S754_zero sx, S754_finite sy _ _
  | S754_zero sx, S754_zero sy =>
      SFadd prec emax (S754_zero (xorb sx sy)) z
  | S754_finite sx mx ex, S754_finite sy my ey =>
      match z with
      | S754_nan => S754_nan
      | S754_infinity _ => z
      | S754_zero _ => SFmul prec emax x y
      | S754_finite sz mz ez =>
          let s := xorb sx sy in
          let m := Pos.mul mx my in
          let e := Z.add ex ey in
          let e' := Z.min e ez in
          binary_normalize prec emax
            (Z.add (cond_Zopp s (Zpos (fst (shl_align m e e'))))
                   (cond_Zopp sz (Zpos (fst (shl_align mz ez e')))))
            e' false
      end
  end.

Definition fma (x y z : float) : float :=
  SF2Prim (fma_sf (Prim2SF x) (Prim2SF y) (Prim2SF z)).

(** [z + x * y] where no conversion separates the product from the sum.
    The language lets the compiler round the product and then the sum,
    or fuse the two into one operation that rounds once (the arm64
    compiler does, the amd64 compiler by default does not).  [fused]
    tells which code the build holds. *)
Definition muladd (fused : bool) (x y z : float) : float :=
  if fused then fma x y z else (z + x * y)%float.

(** [time.Time] and [time.Duration], as instants and differences on one
    integer time line. *)
Definition Time : Type := Z.
Definition Duration : Type := Z.

(** [Time.Sub]: the difference, kept inside the range of [Duration]. *)
Definition Time_Sub (t u : Time) : Duration :=
  Z.max int_min (Z.min int_max (t - u)).

End Go.

(** ** Package [scanner]: the data model (types.go) *)

Module scanner.
Import Go.

Definition MechanismType : Type := string.

Definition MechanismLaunchAgent : MechanismType := "LaunchAgent".
Definition MechanismLaunchDaemon : MechanismType := "LaunchDaemon".
Definition MechanismLoginItem : MechanismType := "LoginItem".
Definition MechanismConfigProfile : MechanismType := "ConfigurationProfile".
Definition MechanismCronJob : MechanismType := "CronJob".
Definition MechanismPeriodicScript : MechanismType := "PeriodicScript".
Definition MechanismLoginHook : MechanismType := "LoginHook".
Definition MechanismLogoutHook : MechanismType := "LogoutHook".

Definition RiskLevel : Type := string.

Definition RiskInfo : RiskLevel := "Info".
Definition RiskLow : RiskLevel := "Low".
Definition RiskMedium : RiskLevel := "Medium".
Definition RiskHigh : RiskLevel := "High".
Definition RiskCritical : RiskLevel := "Critical".

Record HeuristicResult : Type := mkHeuristicResult {
  Name : string;
  Triggered : bool;
  Score : float;
  Confidence : float;
  Details : string
}.

Record RiskAssessment : Type := mkRiskAssessment {
  Level : RiskLevel;
  RScore : float;
  RConfidence : float;
  Reasons : slice string;
  Heuristics : slice HeuristicResult
}.

(** The zero value of [RiskAssessment], which an item carries until the
    engine has assessed it. *)
Definition RiskAssessment_zero : RiskAssessment :=
  mkRiskAssessment "" 0%float 0%float None None.

Record PersistenceItem : Type := mkPersistenceItem {
  ID : string;
  Mechanism : MechanismType;
  Label : string;
  Path : string;
  Program : string;
  ProgramArgs : slice string;
  User : string;
  RunAtLoad : bool;
  KeepAlive : bool;
  Disabled : bool;
  CreatedAt : Time;
  ModifiedAt : Time;
  FileMode : string;
  Risk : RiskAssessment;
  RawData : gmap string string;
  Errors : slice string
}.

Record ScanError : Type := mkScanError {
  EMechanism : MechanismType;
  EPath : string;
  EError : string;
  ETimestamp : Time
}.

Record ScanResult : Type := mkScanResult {
  StartTime : Time;
  EndTime : Time;
  SDuration : Duration;
  Items : slice PersistenceItem;
  TotalItems : Z;
  RiskSummary : gmap RiskLevel Z;
  SErrors : slice ScanError;
  PermissionIssues : slice string
}.

(** The [Scanner] interface.  [Scan] is what the probe's [Scan()] call
    returns in the run under consideration, both results as Go returns
    them: the item slice and the error, [None] for a nil error and
    [Some msg] for an error whose [Error()] text is [msg]. *)
Record Scanner : Type := mkScanner {
  Scan : slice PersistenceItem * option string;
  Type_ : MechanismType
}.

(** *** The orchestrator (orchestrator.go) *)

(** [context.Context], as far as a callee can observe it. *)
Record Ctx : Type := mkCtx { ctx_done : bool }.

Record Orchestrator : Type := mkOrchestrator {
  scanners : slice Scanner;
  parallel : bool
}.

Definition NewOrchestrator (scanners : slice Scanner) (parallel : bool) : Orchestrator :=
  mkOrchestrator scanners parallel.

Definition AddScanner (o : Orchestrator) (scanner : Scanner) : Orchestrator :=
  mkOrchestrator (append (scanners o) [scanner]) (parallel o).

Definition GetScanners (o : Orchestrator) : slice Scanner := scanners o.

(** The variables of [RunScan] that every probe's outcome is merged
    into, together with the number of clock readings made so far. *)
Record shared : Type := mkShared {
  allItems : slice PersistenceItem;
  allErrors : slice ScanError;
  ticks : nat
}.

(** The threads of a parallel run: the goroutine that called [RunScan]
    and the goroutine started for the probe at a given index. *)
Inductive thread : Type := Main | Worker (i : nat).

(** Where a probe's goroutine stands in
    [items, err := s.Scan(); mu.Lock(); defer mu.Unlock(); if ... ]
    with the two deferred calls, [mu.Unlock()] then [wg.Done()]. *)
Inductive pc : Type :=
| AtScan
| AtLock (out : slice PersistenceItem * option string)
| AtBody (out : slice PersistenceItem * option string)
| AtUnlock
| AtDone
| Exited.

Record goroutine : Type := mkGoroutine { g_scanner : Scanner; g_pc : pc }.

(** The state of a parallel run: the probes the [range] loop has not
    reached yet, the goroutines started so far, the mutex, the counter
    of the wait group and the shared variables. *)
Record pstate : Type := mkPState {
  todo : list Scanner;
  pool : list goroutine;
  mu : bool;
  wg : Z;
  sh : shared
}.

Section RunScan.
(** [clock k] is what the [k]-th call of [time.Now()] returns. *)
Variable clock : nat -> Time.

(** The [if err != nil { ... } else { ... }] both loops run on a
    probe's outcome. *)
Definition record_outcome (s : Scanner)
    (out : slice PersistenceItem * option string) (v : shared) : shared :=
  match snd out with
  | Some msg =>
      mkShared (allItems v)
        (append (allErrors v) [mkScanError (Type_ s) "" msg (clock (ticks v))])
        (S (ticks v))
  | None =>
      mkShared (append (allItems v) (elems (fst out))) (allErrors v) (ticks v)
  end.

(** The sequential loop. *)
Definition scan_one (v : shared) (s : Scanner) : shared :=
  record_outcome s (Scan s) v.

Definition scan_sequential (ss : list Scanner) (v : shared) : shared :=
  fold_left scan_one ss v.

(** One step of one thread of the parallel branch; [None] when the
    thread cannot move (it has finished, or it waits for the mutex). *)
Definition set_pc (i : nat) (g : goroutine) (p : pc) (st : pstate) : list goroutine :=
  <[i := mkGoroutine (g_scanner g) p]> (pool st).

Definition step (t : thread) (st : pstate) : option pstate :=
  match t with
  | Main =>
      match todo st with
      | s :: rest =>
          Some (mkPState rest (pool st ++ [mkGoroutine s AtScan]) (mu st)
                  (wg st + 1) (sh st))
      | [] => None
      end
  | Worker i =>
      match pool st !! i with
      | None => None
      | Some g =>
          match g_pc g with
          | AtScan =>
              Some (mkPState (todo st) (set_pc i g (AtLock (Scan (g_scanner g))) st)
                      (mu st) (wg st) (sh st))
          | AtLock out =>
              if mu st then None
              else Some (mkPState (todo st) (set_pc i g (AtBody out) st)
                           true (wg st) (sh st))
          | AtBody out =>
              Some (mkPState (todo st) (set_pc i g AtUnlock st)
                      (mu st) (wg st) (record_outcome (g_scanner g) out (sh st)))
          | AtUnlock =>
              Some (mkPState (todo st) (set_pc i g AtDone st)
                      false (wg st) (sh st))
          | AtDone =>
              Some (mkPState (todo st) (set_pc i g Exited st)
                      (mu st) (wg st - 1) (sh st))
          | Exited => None
          end
      end
  end.

(** A schedule names the thread that moves at each step. *)
Fixpoint run (sched : list thread) (st : pstate) : option pstate :=
  match sched with
  | [] => Some st
  | t :: sched' =>
      match step t st with
      | Some st' => run sched' st'
      | None => None
      end
  end.

(** [wg.Wait()] returns once every goroutine has been started and the
    counter is back to zero. *)
Definition joined (st : pstate) : bool :=
  match todo st with [] => wg st =? 0 | _ => false end.

Definition scan_parallel (sched : list thread) (ss : list Scanner) (v : shared)
  : option shared :=
  match run sched (mkPState ss [] false 0 v) with
  | Some st => if joined st then Some (sh st) else None
  | None => None
  end.

(** [result.RiskSummary[item.Risk.Level]++] *)
Definition tally (m : gmap RiskLevel Z) (item : PersistenceItem) : gmap RiskLevel Z :=
  <[Level (Risk item) := int_incr (default 0 (m !! Level (Risk item)))]> m.

(** Everything after the two branches. *)
Definition finish (start : Time) (v : shared) : ScanResult :=
  let summary := fold_left tally (elems (allItems v)) ∅ in
  let endTime := clock (ticks v) in
  mkScanResult start endTime (Time_Sub endTime start)
    (allItems v) (len (allItems v)) summary (allErrors v) None.

(** [RunScan].  [t0] is the number of clock readings made before the
    call.  [sched] is the interleaving the Go scheduler picks in the
    parallel branch; the call returns for the schedules that run every
    goroutine to its end, and the sequential branch ignores it.  The
    second component is the [error] result. *)
Definition RunScan (o : Orchestrator) (ctx : Ctx) (sched : list thread) (t0 : nat)
  : option (ScanResult * option string) :=
  let start := clock t0 in
  let v0 := mkShared None None (S t0) in
  let merged :=
    if parallel o then scan_parallel sched (elems (scanners o)) v0
    else Some (scan_sequential (elems (scanners o)) v0) in
  match merged with
  | Some v => Some (finish start v, None)
  | None => None
  end.

End RunScan.

End scanner.

(** ** Package [risk]: the scoring engine (engine.go) *)

Module risk.
Import Go scanner.

Section Engine.
(** Whatever a heuristic can observe or change besides the item it is
    handed (the signature heuristic runs [codesign], for one). *)
Context {World : Type}.

(** The [Heuristic] interface.  [Analyze] receives a pointer to the
    item: it may read and update the item and the outside world. *)
Record Heuristic : Type := mkHeuristic {
  Analyze : PersistenceItem * World -> HeuristicResult * (PersistenceItem * World);
  HName : string
}.

Record Engine : Type := mkEngine { heuristics : slice Heuristic }.

Definition NewEngine (hs : slice Heuristic) : Engine := mkEngine hs.

Definition AddHeuristic (e : Engine) (h : Heuristic) : Engine :=
  mkEngine (append (heuristics e) [h]).

Definition GetHeuristics (e : Engine) : slice Heuristic := heuristics e.

Definition scoreToRiskLevel (score : float) : RiskLevel :=
  if fge score 0.8%float then RiskCritical
  else if fge score 0.6%float then RiskHigh
  else if fge score 0.4%float then RiskMedium
  else if fge score 0.2%float then RiskLow
  else RiskInfo.

(** The local variables of [AssessRisk] that the loop updates. *)
Record locals : Type := mkLocals {
  assessment : RiskAssessment;
  totalScore : float;
  totalConfidence : float;
  triggeredCount : Z
}.

Definition locals_init : locals :=
  mkLocals (mkRiskAssessment RiskInfo 0%float 1%float (Some []) (Some []))
           0%float 0%float 0.

(** Whether the build fuses the product and the sum of
    [totalScore += result.Score * result.Confidence]. *)
Variable fused : bool.

(** One iteration of [for _, h := range e.heuristics]. *)
Definition loop_body (h : Heuristic) (s : locals * (PersistenceItem * World))
  : locals * (PersistenceItem * World) :=
  let '(l, st) := s in
  let '(result, st') := Analyze h st in
  let a := assessment l in
  let hs' := append (Heuristics a) [result] in
  if Triggered result then
    (mkLocals
       (mkRiskAssessment (Level a) (RScore a) (RConfidence a)
          (append (Reasons a) [Details result]) hs')
       (muladd fused (Score result) (Confidence result) (totalScore l))
       (totalConfidence l + Confidence result)%float
       (int_incr (triggeredCount l)),
     st')
  else
    (mkLocals
       (mkRiskAssessment (Level a) (RScore a) (RConfidence a) (Reasons a) hs')
       (totalScore l) (totalConfidence l) (triggeredCount l),
     st').

Fixpoint loop (hs : list Heuristic) (s : locals * (PersistenceItem * World))
  : locals * (PersistenceItem * World) :=
  match hs with
  | [] => s
  | h :: hs' => loop hs' (loop_body h s)
  end.

(** The [less] closure handed to [sort.Slice]: it reads the two
    elements that currently sit at the indices it is given. *)
Definition by_score_desc (x y : HeuristicResult) : bool :=
  fgt (Score x) (Score y).

(** [sort.Slice] belongs to the Go standard library; the engine is
    stated over any implementation of it. *)
Variable sort_Slice : forall A : Type, (A -> A -> bool) -> list A -> list A.

Definition AssessRisk (e : Engine) (st : PersistenceItem * World)
  : RiskAssessment * (PersistenceItem * World) :=
  let '(l, st') := loop (elems (heuristics e)) (locals_init, st) in
  let a := assessment l in
  let '(score, confidence) :=
    if triggeredCount l >? 0 then
      ((totalScore l / totalConfidence l)%float,
       math_Min (totalConfidence l / float64_of_int (triggeredCount l))%float 1%float)
    else (RScore a, RConfidence a) in
  (mkRiskAssessment (scoreToRiskLevel score) score confidence (Reasons a)
     (option_map (sort_Slice HeuristicResult by_score_desc) (Heuristics a)),
   st').

End Engine.

Arguments Heuristic : clear implicits.
Arguments Engine : clear implicits.

End risk.

(** ** Package [sort] of the Go standard library: [sort.Slice]

    [go.mod] asks for Go 1.21, whose [sort.Slice] is the pattern-defeating
    quicksort of zsortfunc.go.  The functions below follow that file one
    by one.  [data] is the slice being sorted; [Less] and [Swap] are the
    closure and the swapper that [sort.Slice] builds over it.  Indices are
    natural numbers: every index the algorithm forms lies inside the
    slice.  The pseudo-random generator that [breakPatterns] draws from is
    the parameter [next]. *)

Module sort.
Local Open Scope nat_scope.

Section LessSwap.
Context {A : Type}.
Variable less : A -> A -> bool.
Variable next : Z -> Z.

Definition Less (data : list A) (i j : nat) : bool :=
  match data !! i, data !! j with
  | Some x, Some y => less x y
  | _, _ => false
  end.

Definition Swap (data : list A) (i j : nat) : list A :=
  match data !! i, data !! j with
  | Some x, Some y => <[i := y]> (<[j := x]> data)
  | _, _ => data
  end.

(** [for j := i; j > a && data.Less(j, j-1); j-- { data.Swap(j, j-1) }] *)
Fixpoint insertion_inner (data : list A) (a j : nat) : list A :=
  match j with
  | O => data
  | S j' =>
      if (a <? j) && Less data j j'
      then insertion_inner (Swap data j j') a j'
      else data
  end.

(** [for i := a + 1; i < b; i++ { ... }], with [n] iterations left. *)
Fixpoint insertion_outer (data : list A) (a i n : nat) : list A :=
  match n with
  | O => data
  | S n' => insertion_outer (insertion_inner data a i) a (S i) n'
  end.

Definition insertionSortLessFunc (data : list A) (a b : nat) : list A :=
  insertion_outer data a (S a) (b - S a).

(** [siftDownLessFunc]; the root index grows at every turn of the loop,
    so [hi] turns are enough. *)
Fixpoint siftDown_loop (fuel : nat) (data : list A) (root hi first : nat) : list A :=
  match fuel with
  | O => data
  | S fuel' =>
      let child := 2 * root + 1 in
      if hi <=? child then data
      else
        let child :=
          if (child + 1 <? hi) && Less data (first + child) (first + child + 1)
          then child + 1 else child in
        if negb (Less data (first + root) (first + child)) then data
        else siftDown_loop fuel' (Swap data (first + root) (first + child)) child hi first
  end.

Definition siftDownLessFunc (data : list A) (lo hi first : nat) : list A :=
  siftDown_loop (S hi) data lo hi first.

(** [for i := (hi - 1) / 2; i >= 0; i--], entered with [k = i + 1]. *)
Fixpoint heap_build (data : list A) (k hi first : nat) : list A :=
  match k with
  | O => data
  | S i => heap_build (siftDownLessFunc data i hi first) i hi first
  end.

(** [for i := hi - 1; i >= 0; i--], entered with [k = i + 1]. *)
Fixpoint heap_pop (data : list A) (k first : nat) : list A :=
  match k with
  | O => data
  | S i => heap_pop (siftDownLessFunc (Swap data first (first + i)) 0 i first) i first
  end.

Definition heapSortLessFunc (data : list A) (a b : nat) : list A :=
  let first := a in
  let hi := b - a in
  heap_pop (heap_build data (S ((hi - 1) / 2)) hi first) hi first.

(** [bits.Len] and [nextPowerOfTwo]. *)
Definition bits_Len (n : Z) : Z :=
  if (n =? 0)%Z then 0%Z else (Z.log2 n + 1)%Z.

Definition nextPowerOfTwo (length : nat) : Z :=
  (2 ^ bits_Len (Z.of_nat length))%Z.

(** [breakPatternsLessFunc]: three swaps around the middle with
    positions drawn from the generator seeded with the length. *)
Definition breakPatterns_step (a length idx : nat) (modulus : Z)
    (s : list A * Z) (i : nat) : list A * Z :=
  let '(data, random) := s in
  let random := next random in
  let other := Z.to_nat (Z.land random (modulus - 1)) in
  let other := if length <=? other then other - length else other in
  (Swap data (idx - 1 + i) (a + other), random).

Definition breakPatternsLessFunc (data : list A) (a b : nat) : list A :=
  let length := b - a in
  if 8 <=? length then
    let random := Z.of_nat length in
    let modulus := nextPowerOfTwo length in
    let idx := a + (length / 4) * 2 - 1 in
    fst (fold_left (breakPatterns_step a length idx modulus) [0; 1; 2] (data, random))
  else data.

Inductive sortedHint : Type := unknownHint | increasingHint | decreasingHint.

(** [order2LessFunc], [medianLessFunc], [medianAdjacentLessFunc]: the
    counter behind the pointer [swaps] is passed in and returned. *)
Definition order2LessFunc (data : list A) (a b swaps : nat) : nat * nat * nat :=
  if Less data b a then (b, a, S swaps) else (a, b, swaps).

Definition medianLessFunc (data : list A) (a b c swaps : nat) : nat * nat :=
  let '(a, b, swaps) := order2LessFunc data a b swaps in
  let '(b, c, swaps) := order2LessFunc data b c swaps in
  let '(a, b, swaps) := order2LessFunc data a b swaps in
  (b, swaps).

Definition medianAdjacentLessFunc (data : list A) (a swaps : nat) : nat * nat :=
  medianLessFunc data (a - 1) a (a + 1) swaps.

Definition choosePivotLessFunc (data : list A) (a b : nat) : nat * sortedHint :=
  let shortestNinther := 50 in
  let maxSwaps := 4 * 3 in
  let l := b - a in
  let swaps := 0 in
  let i := a + l / 4 * 1 in
  let j := a + l / 4 * 2 in
  let k := a + l / 4 * 3 in
  let '(j, swaps) :=
    if 8 <=? l then
      let '(i, j, k, swaps) :=
        if shortestNinther <=? l then
          let '(i, swaps) := medianAdjacentLessFunc data i swaps in
          let '(j, swaps) := medianAdjacentLessFunc data j swaps in
          let '(k, swaps) := medianAdjacentLessFunc data k swaps in
          (i, j, k, swaps)
        else (i, j, k, swaps) in
      medianLessFunc data i j k swaps
    else (j, swaps) in
  if swaps =? 0 then (j, increasingHint)
  else if swaps =? maxSwaps then (j, decreasingHint)
  else (j, unknownHint).

(** [reverseRangeLessFunc]: [for i < j { Swap(i, j); i++; j-- }]. *)
Fixpoint reverse_loop (fuel : nat) (data : list A) (i j : nat) : list A :=
  match fuel with
  | O => data
  | S fuel' =>
      if i <? j then reverse_loop fuel' (Swap data i j) (S i) (j - 1) else data
  end.

Definition reverseRangeLessFunc (data : list A) (a b : nat) : list A :=
  reverse_loop (b - a) data a (b - 1).

(** [partialInsertionSortLessFunc].  The three inner loops come first,
    then one turn of [for j := 0; j < maxSteps; j++]. *)

(** [for i < b && !data.Less(i, i-1) { i++ }] *)
Fixpoint skip_ordered (fuel : nat) (data : list A) (i b : nat) : nat :=
  match fuel with
  | O => i
  | S fuel' =>
      if (i <? b) && negb (Less data i (i - 1))
      then skip_ordered fuel' data (S i) b else i
  end.

(** [for j := i - 1; j >= 1; j--], entered with [j]. *)
Fixpoint shift_left (data : list A) (j : nat) : list A :=
  match j with
  | O => data
  | S j' =>
      if negb (Less data j j') then data
      else shift_left (Swap data j j') j'
  end.

(** [for j := i + 1; j < b; j++], with [n] iterations left. *)
Fixpoint shift_right (data : list A) (j n : nat) : list A :=
  match n with
  | O => data
  | S n' =>
      if negb (Less data j (j - 1)) then data
      else shift_right (Swap data j (j - 1)) (S j) n'
  end.

Fixpoint partialInsertion_loop (steps : nat) (data : list A) (a b i : nat)
  : list A * bool :=
  match steps with
  | O => (data, false)
  | S steps' =>
      let shortestShifting := 50 in
      let i := skip_ordered (b - i) data i b in
      if i =? b then (data, true)
      else if b - a <? shortestShifting then (data, false)
      else
        let data := Swap data i (i - 1) in
        let data := if 2 <=? i - a then shift_left data (i - 1) else data in
        let data := if 2 <=? b - i then shift_right data (i + 1) (b - (i + 1)) else data in
        partialInsertion_loop steps' data a b i
  end.

Definition partialInsertionSortLessFunc (data : list A) (a b : nat) : list A * bool :=
  let maxSteps := 5 in
  partialInsertion_loop maxSteps data a b (a + 1).

(** The two scans shared by [partitionLessFunc] and
    [partitionEqualLessFunc]:
    [for i <= j && p(i) { i++ }] and [for i <= j && p(j) { j-- }]. *)
Fixpoint scan_up (fuel : nat) (p : nat -> bool) (i j : nat) : nat :=
  match fuel with
  | O => i
  | S fuel' => if (i <=? j) && p i then scan_up fuel' p (S i) j else i
  end.

Fixpoint scan_down (fuel : nat) (p : nat -> bool) (i j : nat) : nat :=
  match fuel with
  | O => j
  | S fuel' => if (i <=? j) && p j then scan_down fuel' p i (j - 1) else j
  end.

(** The [for { ... }] loop of [partitionLessFunc]; it returns the slice
    and the final [j]. *)
Fixpoint partition_loop (fuel : nat) (data : list A) (a i j : nat) : list A * nat :=
  match fuel with
  | O => (data, j)
  | S fuel' =>
      let i := scan_up (S j - i) (fun i => Less data i a) i j in
      let j := scan_down (S j - i) (fun j => negb (Less data j a)) i j in
      if j <? i then (data, j)
      else partition_loop fuel' (Swap data i j) a (S i) (j - 1)
  end.

Definition partitionLessFunc (data : list A) (a b pivot : nat) : list A * nat * bool :=
  let data := Swap data a pivot in
  let i := a + 1 in
  let j := b - 1 in
  let i := scan_up (S j - i) (fun i => Less data i a) i j in
  let j := scan_down (S j - i) (fun j => negb (Less data j a)) i j in
  if j <? i then (Swap data j a, j, true)
  else
    let data := Swap data i j in
    let '(data, j) := partition_loop (b - a) data a (S i) (j - 1) in
    (Swap data j a, j, false).

(** The loop of [partitionEqualLessFunc]; it returns the slice and the
    final [i]. *)
Fixpoint partitionEqual_loop (fuel : nat) (data : list A) (a i j : nat) : list A * nat :=
  match fuel with
  | O => (data, i)
  | S fuel' =>
      let i := scan_up (S j - i) (fun i => negb (Less data a i)) i j in
      let j := scan_down (S j - i) (fun j => Less data a j) i j in
      if j <? i then (data, i)
      else partitionEqual_loop fuel' (Swap data i j) a (S i) (j - 1)
  end.

Definition partitionEqualLessFunc (data : list A) (a b pivot : nat) : list A * nat :=
  let data := Swap data a pivot in
  partitionEqual_loop (S (b - a)) data a (a + 1) (b - 1).

(** [pdqsortLessFunc].  [fuel] bounds the turns of the outer [for] and
    the depth of the recursion together: every turn and every recursive
    call works on a strictly shorter range, so [b - a + 1] is enough.
    [wasBalanced] and [wasPartitioned] are the two local flags. *)
Fixpoint pdqsort_loop (fuel : nat) (data : list A) (a b limit : nat)
    (wasBalanced wasPartitioned : bool) : list A :=
  match fuel with
  | O => data
  | S fuel' =>
      let maxInsertion := 12 in
      let length := b - a in
      if length <=? maxInsertion then insertionSortLessFunc data a b
      else if limit =? 0 then heapSortLessFunc data a b
      else
        let '(data, limit) :=
          if negb wasBalanced then (breakPatternsLessFunc data a b, limit - 1)
          else (data, limit) in
        let '(pivot, hint) := choosePivotLessFunc data a b in
        let '(data, pivot, hint) :=
          match hint with
          | decreasingHint =>
              (reverseRangeLessFunc data a b, (b - 1) - (pivot - a), increasingHint)
          | _ => (data, pivot, hint)
          end in
        let try_partial :=
          match hint with
          | increasingHint => wasBalanced && wasPartitioned
          | _ => false
          end in
        let '(data, sorted) :=
          if try_partial then partialInsertionSortLessFunc data a b
          else (data, false) in
        if sorted then data
        else if (0 <? a) && negb (Less data (a - 1) pivot) then
          let '(data, mid) := partitionEqualLessFunc data a b pivot in
          pdqsort_loop fuel' data mid b limit wasBalanced wasPartitioned
        else
          let '(data, mid, alreadyPartitioned) := partitionLessFunc data a b pivot in
          let wasPartitioned := alreadyPartitioned in
          let leftLen := mid - a in
          let rightLen := b - mid in
          let balanceThreshold := length / 8 in
          if leftLen <? rightLen then
            let wasBalanced := balanceThreshold <=? leftLen in
            let data := pdqsort_loop fuel' data a mid limit true true in
            pdqsort_loop fuel' data (mid + 1) b limit wasBalanced wasPartitioned
          else
            let wasBalanced := balanceThreshold <=? rightLen in
            let data := pdqsort_loop fuel' data (mid + 1) b limit true true in
            pdqsort_loop fuel' data a mid limit wasBalanced wasPartitioned
  end.

Definition pdqsortLessFunc (data : list A) (a b limit : nat) : list A :=
  pdqsort_loop (S (b - a)) data a b limit true true.

(** [sort.Slice(x, less)]. *)
Definition Slice (x : list A) : list A :=
  let length := List.length x in
  let limit := Z.to_nat (bits_Len (Z.of_nat length)) in
  pdqsortLessFunc x 0 length limit.

End LessSwap.
End sort.

(** * Properties *)

(** ** Facts about binary64 arithmetic

    They are read off the specification of the primitive operations
    ([Prim2SF] and the [SF...] functions of the standard library). *)

Module Float64.
Import Go.

Definition is_zero_sf (x : spec_float) : bool :=
  match x with S754_zero _ => true | _ => false end.

(** A finite number (zero included): neither NaN nor an infinity. *)
Definition finite_sf (x : spec_float) : bool :=
  match x with S754_zero _ | S754_finite _ _ _ => true | _ => false end.

(** A strictly positive number or [+Inf]. *)
Definition positive_sf (x : spec_float) : bool :=
  match x with S754_finite false _ _ | S754_infinity false => true | _ => false end.

Lemma compare_cont_Eq_refl (m : positive) : Pos.compare_cont Eq m m = Eq.
Proof. apply Pos.compare_cont_refl. Qed.

Lemma SFcompare_refl (x : spec_float) :
  x <> S754_nan -> SFcompare x x = Some Eq.
Proof.
  destruct x as [s|s| |s m e]; simpl; try congruence; intros _.
  - destruct s; reflexivity.
  - destruct s; rewrite Z.compare_refl, compare_cont_Eq_refl; reflexivity.
Qed.

Lemma SFcompare_swap (x y : spec_float) :
  SFcompare y x = option_map CompOpp (SFcompare x y).
Proof.
  destruct x as [s1|s1| |s1 m1 e1], y as [s2|s2| |s2 m2 e2]; simpl;
    try reflexivity;
    try (destruct s1; reflexivity);
    try (destruct s2; reflexivity);
    try (destruct s1, s2; reflexivity).
  destruct s1, s2; simpl; try reflexivity;
    rewrite (Z.compare_antisym e1 e2);
    destruct (e1 ?= e2) eqn:He; simpl; try reflexivity;
    rewrite (Pos.compare_cont_antisym m1 m2 Eq); simpl;
    try rewrite CompOpp_involutive; reflexivity.
Qed.

Lemma SFcompare_Lt_trans (x y z : spec_float) :
  SFcompare x y = Some Lt -> SFcompare y z = Some Lt -> SFcompare x z = Some Lt.
Proof.
  destruct x as [s1|s1| |s1 m1 e1], y as [s2|s2| |s2 m2 e2], z as [s3|s3| |s3 m3 e3];
    simpl; try congruence;
    try (destruct s1; simpl; congruence);
    try (destruct s2; simpl; congruence);
    try (destruct s3; simpl; congruence);
    try (destruct s1, s2; simpl; congruence);
    try (destruct s1, s3; simpl; congruence);
    try (destruct s2, s3; simpl; congruence);
    try (destruct s1, s2, s3; simpl; congruence).
  change (PosDef.Pos.compare_cont Eq) with Pos.compare.
  destruct s1, s2, s3; simpl; try congruence;
    destruct (Z.compare_spec e1 e2), (Z.compare_spec e2 e3), (Z.compare_spec e1 e3);
    try congruence; try lia; subst;
    destruct (Pos.compare_spec m1 m2), (Pos.compare_spec m2 m3), (Pos.compare_spec m1 m3);
    simpl; try congruence; try lia.
Qed.

Lemma SFcompare_Eq_Lt_trans (x y z : spec_float) :
  SFcompare x y = Some Eq -> SFcompare y z = Some Lt -> SFcompare x z = Some Lt.
Proof.
  destruct x as [s1|s1| |s1 m1 e1], y as [s2|s2| |s2 m2 e2], z as [s3|s3| |s3 m3 e3];
    simpl; try congruence;
    try (destruct s1; simpl; congruence);
    try (destruct s2; simpl; congruence);
    try (destruct s3; simpl; congruence);
    try (destruct s1, s2; simpl; congruence);
    try (destruct s1, s3; simpl; congruence);
    try (destruct s2, s3; simpl; congruence);
    try (destruct s1, s2, s3; simpl; congruence).
  change (PosDef.Pos.compare_cont Eq) with Pos.compare.
  destruct s1, s2, s3; simpl; try congruence;
    destruct (Z.compare_spec e1 e2), (Z.compare_spec e2 e3), (Z.compare_spec e1 e3);
    try congruence; try lia; subst;
    destruct (Pos.compare_spec m1 m2), (Pos.compare_spec m2 m3), (Pos.compare_spec m1 m3);
    simpl; try congruence; try lia.
Qed.

Lemma SFcompare_Lt_Eq_trans (x y z : spec_float) :
  SFcompare x y = Some Lt -> SFcompare y z = Some Eq -> SFcompare x z = Some Lt.
Proof.
  destruct x as [s1|s1| |s1 m1 e1], y as [s2|s2| |s2 m2 e2], z as [s3|s3| |s3 m3 e3];
    simpl; try congruence;
    try (destruct s1; simpl; congruence);
    try (destruct s2; simpl; congruence);
    try (destruct s3; simpl; congruence);
    try (destruct s1, s2; simpl; congruence);
    try (destruct s1, s3; simpl; congruence);
    try (destruct s2, s3; simpl; congruence);
    try (destruct s1, s2, s3; simpl; congruence).
  change (PosDef.Pos.compare_cont Eq) with Pos.compare.
  destruct s1, s2, s3; simpl; try congruence;
    destruct (Z.compare_spec e1 e2), (Z.compare_spec e2 e3), (Z.compare_spec e1 e3);
    try congruence; try lia; subst;
    destruct (Pos.compare_spec m1 m2), (Pos.compare_spec m2 m3), (Pos.compare_spec m1 m3);
    simpl; try congruence; try lia.
Qed.

(** [c <= x] and [x < y] give [c <= y]. *)
Lemma leb_ltb_trans (c x y : float) :
  PrimFloat.leb c x = true -> PrimFloat.ltb x y = true -> PrimFloat.leb c y = true.
Proof.
  rewrite !FloatAxioms.leb_spec, FloatAxioms.ltb_spec. unfold SFleb, SFltb.
  destruct (SFcompare (Prim2SF c) (Prim2SF x)) as [[]|] eqn:H1; try discriminate;
    destruct (SFcompare (Prim2SF x) (Prim2SF y)) as [[]|] eqn:H2; try discriminate;
    intros _ _.
  - rewrite (SFcompare_Eq_Lt_trans _ _ _ H1 H2). reflexivity.
  - rewrite (SFcompare_Lt_trans _ _ _ H1 H2). reflexivity.
Qed.

(** [c1 < c2] and [c2 <= s] give [c1 <= s]. *)
Lemma ltb_leb_trans (c1 c2 s : float) :
  PrimFloat.ltb c1 c2 = true -> PrimFloat.leb c2 s = true -> PrimFloat.leb c1 s = true.
Proof.
  rewrite !FloatAxioms.leb_spec, FloatAxioms.ltb_spec. unfold SFleb, SFltb.
  destruct (SFcompare (Prim2SF c1) (Prim2SF c2)) as [[]|] eqn:H1; try discriminate;
    destruct (SFcompare (Prim2SF c2) (Prim2SF s)) as [[]|] eqn:H2; try discriminate;
    intros _ _.
  - rewrite (SFcompare_Lt_Eq_trans _ _ _ H1 H2). reflexivity.
  - rewrite (SFcompare_Lt_trans _ _ _ H1 H2). reflexivity.
Qed.

Lemma SFcompare_Eq_trans (x y z : spec_float) :
  SFcompare x y = Some Eq -> SFcompare y z = Some Eq -> SFcompare x z = Some Eq.
Proof.
  destruct x as [s1|s1| |s1 m1 e1], y as [s2|s2| |s2 m2 e2], z as [s3|s3| |s3 m3 e3];
    simpl; try congruence;
    try (destruct s1; simpl; congruence);
    try (destruct s2; simpl; congruence);
    try (destruct s3; simpl; congruence);
    try (destruct s1, s2; simpl; congruence);
    try (destruct s1, s3; simpl; congruence);
    try (destruct s2, s3; simpl; congruence);
    try (destruct s1, s2, s3; simpl; congruence).
  change (PosDef.Pos.compare_cont Eq) with Pos.compare.
  destruct s1, s2, s3; simpl; try congruence;
    destruct (Z.compare_spec e1 e2), (Z.compare_spec e2 e3), (Z.compare_spec e1 e3);
    try congruence; try lia; subst;
    destruct (Pos.compare_spec m1 m2), (Pos.compare_spec m2 m3), (Pos.compare_spec m1 m3);
    simpl; try congruence; try lia.
Qed.

Lemma ltb_trans (x y z : float) :
  PrimFloat.ltb x y = true -> PrimFloat.ltb y z = true -> PrimFloat.ltb x z = true.
Proof.
  rewrite !FloatAxioms.ltb_spec. unfold SFltb.
  destruct (SFcompare (Prim2SF x) (Prim2SF y)) as [[]|] eqn:H1; try discriminate;
    destruct (SFcompare (Prim2SF y) (Prim2SF z)) as [[]|] eqn:H2; try discriminate;
    intros _ _.
  rewrite (SFcompare_Lt_trans _ _ _ H1 H2). reflexivity.
Qed.

Lemma leb_trans (x y z : float) :
  PrimFloat.leb x y = true -> PrimFloat.leb y z = true -> PrimFloat.leb x z = true.
Proof.
  rewrite !FloatAxioms.leb_spec. unfold SFleb.
  destruct (SFcompare (Prim2SF x) (Prim2SF y)) as [[]|] eqn:H1; try discriminate;
    destruct (SFcompare (Prim2SF y) (Prim2SF z)) as [[]|] eqn:H2; try discriminate;
    intros _ _.
  - rewrite (SFcompare_Eq_trans _ _ _ H1 H2). reflexivity.
  - rewrite (SFcompare_Eq_Lt_trans _ _ _ H1 H2). reflexivity.
  - rewrite (SFcompare_Lt_Eq_trans _ _ _ H1 H2). reflexivity.
  - rewrite (SFcompare_Lt_trans _ _ _ H1 H2). reflexivity.
Qed.

(** [x <= y] excludes [y < x]. *)
Lemma leb_not_ltb (x y : float) :
  PrimFloat.leb x y = true -> PrimFloat.ltb y x = false.
Proof.
  rewrite FloatAxioms.leb_spec, FloatAxioms.ltb_spec. unfold SFleb, SFltb.
  rewrite (SFcompare_swap (Prim2SF x) (Prim2SF y)).
  destruct (SFcompare (Prim2SF x) (Prim2SF y)) as [[]|]; simpl; congruence.
Qed.

Lemma is_nan_spec (x : float) :
  PrimFloat.is_nan x = true <-> Prim2SF x = S754_nan.
Proof.
  unfold PrimFloat.is_nan. rewrite FloatAxioms.eqb_spec. unfold SFeqb.
  destruct (Prim2SF x) as [s|s| |s m e] eqn:Hx.
  - rewrite SFcompare_refl by discriminate. simpl. split; discriminate.
  - rewrite SFcompare_refl by discriminate. simpl. split; discriminate.
  - simpl. split; reflexivity.
  - rewrite SFcompare_refl by discriminate. simpl. split; discriminate.
Qed.

(** Without NaN the order is total: [not (x < y)] gives [y <= x]. *)
Lemma not_ltb_leb (x y : float) :
  PrimFloat.is_nan x = false -> PrimFloat.is_nan y = false ->
  PrimFloat.ltb x y = false -> PrimFloat.leb y x = true.
Proof.
  intros Hx Hy.
  assert (Prim2SF x <> S754_nan) as Hx' by (rewrite <- is_nan_spec; congruence).
  assert (Prim2SF y <> S754_nan) as Hy' by (rewrite <- is_nan_spec; congruence).
  rewrite FloatAxioms.leb_spec, FloatAxioms.ltb_spec. unfold SFleb, SFltb.
  rewrite (SFcompare_swap (Prim2SF x) (Prim2SF y)).
  destruct (SFcompare (Prim2SF x) (Prim2SF y)) as [[]|] eqn:H; simpl;
    try congruence.
  destruct (Prim2SF x) as [s1|s1| |s1 m1 e1], (Prim2SF y) as [s2|s2| |s2 m2 e2];
    simpl in H; congruence.
Qed.

Lemma zero_sf : Prim2SF 0%float = S754_zero false.
Proof. vm_compute. reflexivity. Qed.

Lemma one_sf : Prim2SF 1%float = S754_finite false 4503599627370496 (-52).
Proof. vm_compute. reflexivity. Qed.

Lemma float_of_sf (x : float) (y : spec_float) : Prim2SF x = y -> x = SF2Prim y.
Proof. intros <-. symmetry. apply SF2Prim_Prim2SF. Qed.

(** Zero has two representations, [+0] and [-0]. *)
Lemma is_zero_inv (x : float) :
  is_zero_sf (Prim2SF x) = true -> x = 0%float \/ x = (-0)%float.
Proof.
  destruct (Prim2SF x) as [s| | |] eqn:Hx; try discriminate. intros _.
  apply float_of_sf in Hx. destruct s; [right|left]; exact Hx.
Qed.

Lemma eqb_zero_spec (x : float) :
  PrimFloat.eqb x 0%float = true -> is_zero_sf (Prim2SF x) = true.
Proof.
  rewrite FloatAxioms.eqb_spec. rewrite zero_sf.
  unfold SFeqb. destruct (Prim2SF x) as [s|s| |s m e]; simpl;
    try reflexivity; try discriminate; destruct s; discriminate.
Qed.

(** The interval the data model gives scores and confidences. *)
Definition in_unit (x : float) : bool :=
  PrimFloat.leb 0%float x && PrimFloat.leb x 1%float.

Lemma in_unit_finite (x : float) :
  in_unit x = true -> finite_sf (Prim2SF x) = true.
Proof.
  unfold in_unit. rewrite andb_true_iff, !FloatAxioms.leb_spec, zero_sf, one_sf.
  unfold SFleb.
  destruct (Prim2SF x) as [s|s| |s m e]; try reflexivity; intros [H0 H1].
  - destruct s; discriminate.
  - discriminate.
Qed.

(** A finite number times a zero is a zero. *)
Lemma mul_zero_r (x y : float) :
  finite_sf (Prim2SF x) = true -> is_zero_sf (Prim2SF y) = true ->
  is_zero_sf (Prim2SF (x * y)%float) = true.
Proof.
  rewrite FloatAxioms.mul_spec. unfold SF64mul.
  destruct (Prim2SF x) as [s1|s1| |s1 m1 e1], (Prim2SF y) as [s2|s2| |s2 m2 e2];
    simpl; congruence.
Qed.

(** [+0] plus a zero of either sign is [+0]. *)
Lemma add_zero_zero (y : float) :
  is_zero_sf (Prim2SF y) = true -> (0 + y)%float = 0%float.
Proof. intros H. destruct (is_zero_inv y H) as [-> | ->]; reflexivity. Qed.

(** *** Rounding a positive mantissa never gives zero or NaN *)

Lemma iter_pos_nat {A} (f : A -> A) (p : positive) (x : A) :
  SpecFloat.iter_pos f p x = Nat.iter (Pos.to_nat p) f x.
Proof.
  revert x. induction p as [p IH|p IH|]; intros x; cbn [SpecFloat.iter_pos].
  - rewrite !IH, Pos2Nat.inj_xI, Nat.iter_succ_r.
    replace (2 * Pos.to_nat p)%nat with (Pos.to_nat p + Pos.to_nat p)%nat by lia.
    rewrite Nat.iter_add. reflexivity.
  - rewrite !IH, Pos2Nat.inj_xO.
    replace (2 * Pos.to_nat p)%nat with (Pos.to_nat p + Pos.to_nat p)%nat by lia.
    rewrite Nat.iter_add. reflexivity.
  - reflexivity.
Qed.

Lemma shr_1_iter_pos (k : nat) (m : positive) (r s : bool) :
  (k < Pos.to_nat (digits2_pos m))%nat ->
  exists m' r' s', Nat.iter k shr_1 (Build_shr_record (Zpos m) r s)
                   = Build_shr_record (Zpos m') r' s'.
Proof.
  revert m r s. induction k as [|k IH]; intros m r s Hk.
  - exists m, r, s. reflexivity.
  - rewrite Nat.iter_succ_r.
    destruct m as [p|p|]; simpl in Hk |- *.
    + apply IH. rewrite Pos2Nat.inj_succ in Hk. lia.
    + apply IH. rewrite Pos2Nat.inj_succ in Hk. lia.
    + change (Pos.to_nat 1) with 1%nat in Hk. lia.
Qed.

Lemma shr_fexp_pos (m : positive) (e : Z) (l : location) :
  emin <= e ->
  exists m' r' s' e',
    shr_fexp prec emax (Zpos m) e l = (Build_shr_record (Zpos m') r' s', e')
    /\ emin <= e'.
Proof.
  intros He. unfold shr_fexp, shr.
  set (n := fexp prec emax (Zdigits2 (Z.pos m) + e) - e).
  assert (n < Zpos (digits2_pos m)) as Hn.
  { subst n. unfold fexp, SpecFloat.emin, prec, emax in *. simpl Zdigits2. lia. }
  assert (exists r0 s0, shr_record_of_loc (Z.pos m) l = Build_shr_record (Zpos m) r0 s0)
    as (r0 & s0 & ->).
  { destruct l as [|[]]; simpl; eauto. }
  destruct n as [|p|p] eqn:Hp.
  - exists m, r0, s0, e. auto.
  - rewrite iter_pos_nat.
    destruct (shr_1_iter_pos (Pos.to_nat p) m r0 s0) as (m' & r' & s' & ->).
    { lia. }
    exists m', r', s', (e + Z.pos p). split; [reflexivity | lia].
  - exists m, r0, s0, e. auto.
Qed.

Lemma binary_round_aux_pos (sx : bool) (m : positive) (e : Z) (l : location) :
  emin <= e ->
  (exists m' e', binary_round_aux prec emax sx (Zpos m) e l = S754_finite sx m' e')
  \/ binary_round_aux prec emax sx (Zpos m) e l = S754_infinity sx.
Proof.
  intros He. unfold binary_round_aux.
  destruct (shr_fexp_pos m e l He) as (m1 & r1 & s1 & e1 & -> & He1).
  assert (exists m2, round_nearest_even (shr_m (Build_shr_record (Zpos m1) r1 s1))
                       (loc_of_shr_record (Build_shr_record (Zpos m1) r1 s1)) = Zpos m2)
    as (m2 & ->).
  { simpl. destruct r1, s1; simpl; eauto; destruct m1; simpl; eauto. }
  destruct (shr_fexp_pos m2 e1 loc_Exact He1) as (m3 & r3 & s3 & e3 & -> & He3).
  simpl. destruct (e3 <=? emax - prec); eauto.
Qed.

Lemma binary_round_pos (sx : bool) (m : positive) (e : Z) :
  emin <= e -> positive_sf (binary_round prec emax false m e) = true.
Proof.
  intros He. unfold binary_round, shl_align.
  set (e' := fexp prec emax (Z.pos (digits2_pos m) + e)).
  assert (emin <= e') as He' by (subst e'; unfold fexp; lia).
  destruct (e' - e) as [|d|d];
    match goal with
    | |- context [binary_round_aux _ _ _ (Zpos ?mz) ?ez _] =>
        destruct (binary_round_aux_pos false mz ez loc_Exact) as [(m' & e'' & ->) | ->];
        auto
    end.
Qed.

(** [float64(n)] is strictly positive for a positive [int] [n]. *)
Lemma float64_of_int_pos (n : Z) :
  0 < n < 2 ^ 63 -> positive_sf (Prim2SF (float64_of_int n)) = true.
Proof.
  intros Hn. unfold float64_of_int.
  destruct (Z.ltb_spec n 0) as [?|_]; [lia|].
  rewrite FloatAxioms.of_uint63_spec, Uint63.of_Z_spec.
  rewrite Z.mod_small by (change wB with (2 ^ 63); lia).
  destruct n as [|p|p]; try lia. simpl.
  apply (binary_round_pos false). unfold SpecFloat.emin, prec, emax. lia.
Qed.

(** [+0] divided by a positive number is [+0]; by a zero it is NaN. *)
Lemma div_zero_pos (x : float) :
  positive_sf (Prim2SF x) = true -> (0 / x)%float = 0%float.
Proof.
  intros Hx. apply Prim2SF_inj. rewrite FloatAxioms.div_spec.
  rewrite zero_sf. unfold SF64div.
  destruct (Prim2SF x) as [s|s| |s m e]; try discriminate;
    destruct s; try discriminate; reflexivity.
Qed.

(** *** The multiply-add with a zero factor, and [math.Min(x, 1.0)] *)

Lemma muladd_zero (fused : bool) (x y : float) :
  finite_sf (Prim2SF x) = true -> is_zero_sf (Prim2SF y) = true ->
  muladd fused x y 0%float = 0%float.
Proof.
  intros Hx Hy. destruct fused; unfold muladd.
  - unfold fma. rewrite zero_sf.
    destruct (Prim2SF x) as [sx| | |sx mx ex], (Prim2SF y) as [sy| | |];
      try discriminate; destruct sx, sy; reflexivity.
  - apply add_zero_zero, mul_zero_r; assumption.
Qed.

(** The fused operation rounds once: [0.1 * 10] is 1.0 after rounding,
    but the exact product exceeds 1.0 by [2^-54], which the fused
    operation keeps. *)
Lemma fma_rounds_once :
  fma 0.1 10 (-1) = 0x1p-54%float /\ (-1 + 0.1 * 10)%float = 0%float.
Proof. split; vm_compute; reflexivity. Qed.

Lemma infinity_sf : Prim2SF infinity = S754_infinity false.
Proof. vm_compute. reflexivity. Qed.

Lemma is_neg_inf_spec (x : float) : is_neg_inf x = true -> x = neg_infinity.
Proof.
  unfold is_neg_inf, PrimFloat.is_infinity, PrimFloat.get_sign, PrimFloat.is_zero.
  rewrite andb_true_iff, !FloatAxioms.eqb_spec, FloatAxioms.abs_spec, infinity_sf.
  change PrimFloat.zero with 0%float. rewrite zero_sf.
  destruct (Prim2SF x) as [s|s| |s m e] eqn:Hx; unfold SFeqb; cbn [SFabs SFcompare];
    intros [Hinf Hsign]; try discriminate Hinf.
  destruct s; cbn in Hsign.
  - apply float_of_sf in Hx. exact Hx.
  - rewrite FloatAxioms.ltb_spec, Hx, zero_sf in Hsign. discriminate Hsign.
Qed.

Lemma nan_not_neg_inf (x : float) : PrimFloat.is_nan x = true -> is_neg_inf x = false.
Proof.
  intros Hn. apply is_nan_spec in Hn.
  unfold is_neg_inf, PrimFloat.is_infinity.
  rewrite FloatAxioms.eqb_spec, FloatAxioms.abs_spec, Hn. reflexivity.
Qed.

Lemma ltb_not_nan (x y : float) : PrimFloat.ltb x y = true -> PrimFloat.is_nan x = false.
Proof.
  rewrite FloatAxioms.ltb_spec. intros H.
  destruct (PrimFloat.is_nan x) eqn:Hn; [|reflexivity].
  apply is_nan_spec in Hn. rewrite Hn in H. discriminate H.
Qed.

Lemma leb_not_nan_r (x y : float) : PrimFloat.leb x y = true -> PrimFloat.is_nan y = false.
Proof.
  rewrite FloatAxioms.leb_spec. intros H.
  destruct (PrimFloat.is_nan y) eqn:Hn; [|reflexivity].
  apply is_nan_spec in Hn. rewrite Hn in H. unfold SFleb in H.
  destruct (Prim2SF x); discriminate H.
Qed.

Lemma eqb_ltb_false (x y : float) : PrimFloat.eqb x y = true -> PrimFloat.ltb x y = false.
Proof.
  rewrite FloatAxioms.eqb_spec, FloatAxioms.ltb_spec. unfold SFeqb, SFltb.
  destruct (SFcompare (Prim2SF x) (Prim2SF y)) as [[]|]; congruence.
Qed.

(** [math.Min(x, 1.0)] is [x] below 1.0, 1.0 from 1.0 on, and NaN for
    NaN. *)
Lemma math_Min_lt (x : float) : PrimFloat.ltb x 1%float = true -> math_Min x 1%float = x.
Proof.
  intros Hlt. unfold math_Min.
  destruct (is_neg_inf x) eqn:Hinf.
  - symmetry. apply is_neg_inf_spec, Hinf.
  - change (is_neg_inf 1%float) with false. cbn [orb].
    rewrite (ltb_not_nan _ _ Hlt). change (PrimFloat.is_nan 1%float) with false.
    cbn [orb].
    destruct (PrimFloat.eqb x 1%float) eqn:He.
    + rewrite (eqb_ltb_false _ _ He) in Hlt. discriminate Hlt.
    + rewrite andb_false_r, Hlt. reflexivity.
Qed.

Lemma math_Min_ge (x : float) :
  PrimFloat.leb 1%float x = true -> math_Min x 1%float = 1%float.
Proof.
  intros Hle. unfold math_Min.
  destruct (is_neg_inf x) eqn:Hinf.
  - apply is_neg_inf_spec in Hinf. subst x. discriminate Hle.
  - change (is_neg_inf 1%float) with false. cbn [orb].
    rewrite (leb_not_nan_r _ _ Hle). change (PrimFloat.is_nan 1%float) with false.
    cbn [orb].
    destruct (PrimFloat.eqb x 0%float) eqn:Hz.
    + apply eqb_zero_spec, is_zero_inv in Hz. destruct Hz; subst x; discriminate Hle.
    + cbn [andb]. rewrite (leb_not_ltb _ _ Hle). reflexivity.
Qed.

Lemma math_Min_nan (x : float) :
  PrimFloat.is_nan x = true -> PrimFloat.is_nan (math_Min x 1%float) = true.
Proof.
  intros Hn. unfold math_Min. rewrite (nan_not_neg_inf _ Hn), Hn.
  change (is_neg_inf 1%float) with false. reflexivity.
Qed.

End Float64.

(** ** The risk engine *)

(** *** Vocabulary of the specification *)

Module spec.
Import Go scanner risk.

Section Verdicts.
Context {World : Type}.

(** The verdicts the heuristics [hs] return when they run one after the
    other from the state [st], in execution order. *)
Fixpoint verdicts (hs : list (Heuristic World)) (st : PersistenceItem * World)
  : list HeuristicResult :=
  match hs with
  | [] => []
  | h :: hs' => fst (Analyze h st) :: verdicts hs' (snd (Analyze h st))
  end.

(** The item and the world once they all have run. *)
Fixpoint after (hs : list (Heuristic World)) (st : PersistenceItem * World)
  : PersistenceItem * World :=
  match hs with
  | [] => st
  | h :: hs' => after hs' (snd (Analyze h st))
  end.

(** A heuristic that is a function of the item: it changes neither the
    item nor the world, and the world does not influence its verdict. *)
Definition pure (h : Heuristic World) : Prop :=
  exists f : PersistenceItem -> HeuristicResult,
    forall item w, Analyze h (item, w) = (f item, (item, w)).

End Verdicts.

Definition triggered (vs : list HeuristicResult) : list HeuristicResult :=
  List.filter Triggered vs.

(** The sum of a list of [float64] as the loop accumulates it: from
    [0.0], left to right. *)
Definition fsum (xs : list float) : float := fold_left PrimFloat.add xs 0%float.

Definition weighted_scores (vs : list HeuristicResult) : list float :=
  map (fun v => (Score v * Confidence v)%float) (triggered vs).

Definition confidences (vs : list HeuristicResult) : list float :=
  map Confidence (triggered vs).

(** The sum of [score * confidence] over the triggered verdicts as the
    loop accumulates it: from [0.0], in execution order, every product
    added to the running sum by one multiply-add, fused or not. *)
Definition score_sum (fused : bool) (vs : list HeuristicResult) : float :=
  fold_left (fun acc v => muladd fused (Score v) (Confidence v) acc) (triggered vs)
    0%float.

(** What the documentation of [sort.Slice] and of [sort.Interface] asks
    of [less] on the elements being sorted: it is irreflexive, it is
    transitive, and so is its complement. *)
Definition transitive_ordering {A} (less : A -> A -> bool) (l : list A) : Prop :=
  (forall x, x ∈ l -> less x x = false)
  /\ (forall x y z, x ∈ l -> y ∈ l -> z ∈ l ->
        less x y = true -> less y z = true -> less x z = true)
  /\ (forall x y z, x ∈ l -> y ∈ l -> z ∈ l ->
        less x y = false -> less y z = false -> less x z = false).

(** No element is [less] than an element before it. *)
Definition sorted_by {A} (less : A -> A -> bool) (out : list A) : Prop :=
  forall i j x y, (i < j)%nat -> out !! i = Some x -> out !! j = Some y ->
    less y x = false.

(** What [sort.Slice] promises: the slice is rearranged so that it is
    sorted by [less].  It does not promise to keep equal elements in their
    original order. *)
Definition sorts (sort : forall A : Type, (A -> A -> bool) -> list A -> list A) : Prop :=
  forall A (less : A -> A -> bool) (l : list A),
    transitive_ordering less l ->
    sort A less l ≡ₚ l /\ sorted_by less (sort A less l).

(** Stability as the specification words it: verdicts with equal scores
    come out in the order in which their heuristics ran. *)
Definition stable_order (vs out : list HeuristicResult) : Prop :=
  forall i j x y, (i < j)%nat -> vs !! i = Some x -> vs !! j = Some y ->
    PrimFloat.eqb (Score x) (Score y) = true ->
    exists i' j', (i' < j')%nat /\ out !! i' = Some x /\ out !! j' = Some y.

(** A stable sort, for reference: insertion from the right, an element
    going in front of the first element that is not [less] than it. *)
Fixpoint insert_stable {A} (less : A -> A -> bool) (x : A) (l : list A) : list A :=
  match l with
  | [] => [x]
  | y :: l' => if less y x then y :: insert_stable less x l' else x :: l
  end.

Definition stable_sort (A : Type) (less : A -> A -> bool) (l : list A) : list A :=
  fold_right (insert_stable less) [] l.

(** The items of the probes that succeeded, probe after probe, each
    probe's items in the order it returned them. *)
Definition items_of (s : Scanner) : list PersistenceItem :=
  match snd (Scan s) with
  | None => elems (fst (Scan s))
  | Some _ => []
  end.

Definition merged_items (ss : list Scanner) : list PersistenceItem :=
  concat (map items_of ss).

(** What a [ScanError] records of the probe that failed: everything but
    the time at which the failure was recorded. *)
Definition error_key (e : ScanError) : MechanismType * string * string :=
  (EMechanism e, EPath e, EError e).

Definition failure_of (s : Scanner) : option (MechanismType * string * string) :=
  match snd (Scan s) with
  | Some msg => Some (Type_ s, "", msg)
  | None => None
  end.

Definition failures (ss : list Scanner) : list (MechanismType * string * string) :=
  omap failure_of ss.

(** The number of items that carry a given risk level. *)
Definition count_level (level : RiskLevel) (items : list PersistenceItem) : Z :=
  Z.of_nat (length (List.filter (fun item => String.eqb (Level (Risk item)) level) items)).

(** The order of the tiers: Info < Low < Medium < High < Critical. *)
Definition tier_rank (l : RiskLevel) : nat :=
  if String.eqb l RiskCritical then 4
  else if String.eqb l RiskHigh then 3
  else if String.eqb l RiskMedium then 2
  else if String.eqb l RiskLow then 1
  else 0.

End spec.

(** *** Engines used as concrete instances *)

Module examples.
Import Go scanner risk.

Definition item0 : PersistenceItem :=
  mkPersistenceItem "com.example.agent.plist" MechanismLaunchAgent "com.example.agent"
    "/Library/LaunchAgents/com.example.agent.plist" "/usr/local/bin/agent" None ""
    true false false 0 0 "-rw-r--r--" RiskAssessment_zero ∅ None.

Definition verdict (name : string) (triggered : bool) (score confidence : float)
  : HeuristicResult :=
  mkHeuristicResult name triggered score confidence (name ++ " matched").

(** A heuristic that returns the same verdict for every item. *)
Definition fixed (v : HeuristicResult) : Heuristic unit :=
  mkHeuristic (fun st => (v, st)) (Name v).

(** Two triggered heuristics and a silent one. *)
Definition two_triggers : Engine unit :=
  NewEngine (Some [fixed (verdict "A" true 0.9 0.5);
                   fixed (verdict "B" true 0.3 1);
                   fixed (verdict "C" false 0 0)]).

(** One heuristic that triggers with confidence 0. *)
Definition no_confidence : Engine unit :=
  NewEngine (Some [fixed (verdict "A" true 0.7 0)]).


(** Thirteen heuristics: the first twelve give the score 0.5, the last
    one 0.9. *)
Definition thirteen_verdicts : list HeuristicResult :=
  map (fun name => verdict name true 0.5 1)
      ["h00"; "h01"; "h02"; "h03"; "h04"; "h05"; "h06"; "h07"; "h08"; "h09"; "h10"; "h11"]
  ++ [verdict "h12" true 0.9 1].

Definition thirteen : Engine unit :=
  NewEngine (Some (map fixed thirteen_verdicts)).

(** Probes: two that find items, two that fail. *)
Definition item1 : PersistenceItem :=
  mkPersistenceItem "com.example.helper.plist" MechanismLaunchAgent "com.example.helper"
    "/Library/LaunchAgents/com.example.helper.plist" "/usr/local/bin/helper" None ""
    false true false 0 0 "-rw-r--r--" RiskAssessment_zero ∅ None.

Definition item2 : PersistenceItem :=
  mkPersistenceItem "loginhook" MechanismLoginHook "LoginHook"
    "/var/root/Library/Preferences/com.apple.loginwindow.plist" "/usr/local/bin/hook.sh"
    None "root" false false false 0 0 "" RiskAssessment_zero ∅ None.

Definition probe_agents : Scanner :=
  mkScanner (Some [item0; item1], None) MechanismLaunchAgent.

Definition probe_hooks : Scanner :=
  mkScanner (Some [item2], None) MechanismLoginHook.

Definition probe_cron : Scanner :=
  mkScanner (None, Some "permission denied") MechanismCronJob.

Definition probe_profiles : Scanner :=
  mkScanner (None, Some "exit status 1") MechanismConfigProfile.

(** A clock that advances by one at every reading. *)
Definition ticking (k : nat) : Time := Z.of_nat k.

Definition background : Ctx := mkCtx false.
Definition cancelled : Ctx := mkCtx true.

(** An interleaving of the main goroutine and three probe goroutines in
    which the probes get the mutex in the order 1, 2, 0. *)
Definition interleaved : list thread :=
  [Main; Worker 0; Main; Worker 1; Worker 1; Main; Worker 2; Worker 1; Worker 1;
   Worker 2; Worker 1; Worker 2; Worker 2; Worker 0; Worker 2; Worker 0; Worker 0;
   Worker 0].

(** Two probes, the second one reaching the mutex first. *)
Definition second_first : list thread :=
  [Main; Main] ++ replicate 5 (Worker 1) ++ replicate 5 (Worker 0).

(** One failing probe between two that succeed, run in parallel. *)
Definition three_probes : Orchestrator :=
  NewOrchestrator (Some [probe_agents; probe_cron; probe_hooks]) true.

(** The two failing probes, in either mode. *)
Definition all_failing (parallel : bool) : Orchestrator :=
  NewOrchestrator (Some [probe_cron; probe_profiles]) parallel.

(** [sort.Slice] as the Go library implements it, for a given generator. *)
Definition go_sort_Slice (next : Z -> Z) (A : Type) (less : A -> A -> bool) (x : list A)
  : list A :=
  sort.Slice less next x.

End examples.

(** ** Packages [strings] and [path/filepath] of the Go standard library

    A Go string is a sequence of bytes: a [string], one character per
    byte. *)

Module strings.
Import Stdlib.Strings.Ascii.

(** [strings.HasPrefix(s, prefix)] *)
Definition HasPrefix (s prefix : string) : bool := String.prefix prefix s.

(** [strings.Contains(s, substr)]: [substr] occurs in [s] at some
    offset. *)
Fixpoint Contains (s substr : string) : bool :=
  String.prefix substr s
  || match s with
     | EmptyString => false
     | String _ s' => Contains s' substr
     end.

(** [strings.Count(s, substr)] for a [substr] of the single byte [c]:
    the number of bytes of [s] equal to [c]. *)
Fixpoint Count (s : string) (c : Ascii.ascii) : Z :=
  match s with
  | EmptyString => 0
  | String a s' => (if Ascii.eqb a c then 1 else 0) + Count s' c
  end.

(** [strings.Join(elems, sep)] *)
Fixpoint Join (elems : list string) (sep : string) : string :=
  match elems with
  | [] => ""
  | [s] => s
  | s :: rest => s ++ sep ++ Join rest sep
  end.

(** [strings.ToLower].  A string of ASCII bytes is mapped byte by byte.
    A string with a byte outside ASCII is mapped rune by rune through
    [unicode.ToLower]; that mapping is the parameter
    [Map_unicode_ToLower]. *)
Definition isASCII (s : string) : bool :=
  forallb (fun c => (nat_of_ascii c <? 128)%nat) (String.list_ascii_of_string s).

Definition lower_byte (c : ascii) : ascii :=
  if (("A" <=? c) && (c <=? "Z"))%char then ascii_of_nat (nat_of_ascii c + 32) else c.

Fixpoint map_bytes (f : ascii -> ascii) (s : string) : string :=
  match s with
  | EmptyString => EmptyString
  | String c s' => String (f c) (map_bytes f s')
  end.

Definition ToLower (Map_unicode_ToLower : string -> string) (s : string) : string :=
  if isASCII s then map_bytes lower_byte s else Map_unicode_ToLower s.

End strings.

Module filepath.
Import Stdlib.Strings.Ascii.

(** The separator of the systems the tool is written for. *)
Definition IsPathSeparator (c : Ascii.ascii) : bool := Ascii.eqb c "/"%char.

(** The two loops of [Base], on the bytes of the path from the last to
    the first: the trailing separators are dropped, and the last
    element is what comes before the next separator. *)
Fixpoint strip_separators (r : list Ascii.ascii) : list Ascii.ascii :=
  match r with
  | c :: r' => if IsPathSeparator c then strip_separators r' else r
  | [] => []
  end.

Fixpoint last_element (r : list Ascii.ascii) : list Ascii.ascii :=
  match r with
  | c :: r' => if IsPathSeparator c then [] else c :: last_element r'
  | [] => []
  end.

(** [filepath.Base(path)]; there is no volume name to throw away. *)
Definition Base (path : string) : string :=
  if String.eqb path "" then "."
  else
    let path := String.string_of_list_ascii
                  (rev (last_element (strip_separators (rev (String.list_ascii_of_string path))))) in
    if String.eqb path "" then "/" else path.

End filepath.

(** ** Package [heuristics]: the path heuristic *)

Module heuristics.
Import Stdlib.Strings.Ascii Go scanner risk.

Definition PathHeuristic_Name : string := "suspicious_path".

Record pathPattern : Type := mkPathPattern {
  pattern : string;
  score : float;
  reason : string
}.

Definition suspiciousPatterns : list pathPattern :=
  [ mkPathPattern "/tmp/" 0.8 "Binary located in temporary directory";
    mkPathPattern "/var/tmp/" 0.8 "Binary located in temporary directory";
    mkPathPattern "/Users/Shared/" 0.6
      "Binary in shared user directory (common malware location)";
    mkPathPattern "/.hidden" 0.7 "Binary in hidden directory";
    mkPathPattern "/Library/Application Support/" 0.3
      "Binary in Application Support (sometimes suspicious)";
    mkPathPattern "~/Downloads/" 0.5 "Binary in Downloads folder";
    mkPathPattern "/usr/local/bin/" 0.2
      "Binary in user local bin (common for legitimate tools)" ].

Definition systemBinaries : list string :=
  ["bash"; "sh"; "python"; "ruby"; "perl"; "osascript"].

(** [PathHeuristic.Analyze]: it reads the item and nothing else. *)
Definition PathHeuristic_Analyze (item : PersistenceItem) : HeuristicResult :=
  let result := mkHeuristicResult PathHeuristic_Name false 0 0.9 "" in
  let programPath :=
    if String.eqb (Program item) "" && negb (String.eqb (Path item) "")
    then Path item else Program item in
  match List.find (fun p => strings.Contains programPath (pattern p)) suspiciousPatterns with
  | Some p =>
      mkHeuristicResult (Name result) true (score p) (Confidence result) (reason p)
  | None =>
      if (String.eqb (Mechanism item) MechanismLaunchDaemon
          || strings.HasPrefix (Path item) "/Library/")
         && strings.Contains programPath "/Users/"
         && negb (strings.Contains programPath "/Users/Shared/")
      then mkHeuristicResult (Name result) true 0.7 (Confidence result)
             "System-level persistence pointing to user directory"
      else if strings.Count programPath "/"%char >? 8
      then mkHeuristicResult (Name result) true 0.5 (Confidence result)
             "Binary located in deeply nested directory"
      else
        let basename := filepath.Base programPath in
        if existsb (fun sysbin =>
                      String.eqb basename sysbin
                      && negb (strings.HasPrefix programPath "/usr/")
                      && negb (strings.HasPrefix programPath "/bin/")
                      && negb (strings.HasPrefix programPath "/System/"))
                   systemBinaries
        then mkHeuristicResult (Name result) true 0.6 (Confidence result)
               "System binary name in non-standard location"
        else result
  end.

(** [NewPathHeuristic()], as a [risk.Heuristic]. *)
Definition NewPathHeuristic {World : Type} : Heuristic World :=
  mkHeuristic (fun st => (PathHeuristic_Analyze (fst st), st)) PathHeuristic_Name.

(** *** The signature heuristic

    It runs [codesign].  The world it works in is the machine: what a
    command prints and whether it fails, and the commands run so far. *)

Record Machine : Type := mkMachine {
  CombinedOutput : list string -> string * option string;
  commands : list (list string)
}.

(** [exec.Command(name, arg...).CombinedOutput()] *)
Definition exec_CombinedOutput (argv : list string) (m : Machine)
  : string * option string * Machine :=
  (CombinedOutput m argv, mkMachine (CombinedOutput m) (commands m ++ [argv])).

Definition SignatureHeuristic_Name : string := "signature_verification".

Definition SignatureHeuristic_Analyze (st : PersistenceItem * Machine)
  : HeuristicResult * (PersistenceItem * Machine) :=
  let '(item, m) := st in
  let result := mkHeuristicResult SignatureHeuristic_Name false 0 0.8 "" in
  if String.eqb (Program item) "" then (result, (item, m))
  else
    let '(output, err, m) :=
      exec_CombinedOutput ["codesign"; "-dv"; "--verbose=4"; Program item] m in
    match err with
    | Some _ =>
        let result :=
          if strings.Contains output "code object is not signed"
          then mkHeuristicResult (Name result) true 0.6 (Confidence result)
                 "Binary is not code signed"
          else if strings.Contains output "adhoc"
          then mkHeuristicResult (Name result) true 0.8 (Confidence result)
                 "Binary has ad-hoc signature (not from trusted developer)"
          else mkHeuristicResult (Name result) true 0.7 (Confidence result)
                 "Binary is unsigned or has invalid signature" in
        (result, (item, m))
    | None =>
        let outputStr := output in
        if strings.Contains outputStr "Authority=Apple"
           || strings.Contains outputStr "com.apple."
        then (mkHeuristicResult (Name result) false (Score result) (Confidence result)
                (Details result), (item, m))
        else if strings.Contains outputStr "Authority=Developer ID"
        then (mkHeuristicResult (Name result) true 0.2 0.9
                "Binary signed with Developer ID certificate", (item, m))
        else if strings.Contains outputStr "REVOKED"
        then (mkHeuristicResult (Name result) true 0.9 1.0
                "Binary signed with revoked certificate", (item, m))
        else (mkHeuristicResult (Name result) true 0.5 (Confidence result)
                "Binary has unknown signature type", (item, m))
    end.

(** [NewSignatureHeuristic()], as a [risk.Heuristic]. *)
Definition NewSignatureHeuristic : Heuristic Machine :=
  mkHeuristic SignatureHeuristic_Analyze SignatureHeuristic_Name.

(** *** The name heuristic (entropy.go): [isSuspiciousNaming] *)

Definition appleMimicry : list string :=
  ["com.apple."; "com.aaple."; "com.appie."; "com.aple."; "systemd"; "systemagent";
   "coreservices"; "macos"; "macosupdate"].

Definition suspicious : list string :=
  ["update"; "updater"; "service"; "system"; "helper"; "agent"; "daemon"].

Definition isSuspiciousNaming (Map_unicode_ToLower : string -> string) (name : string)
  : bool :=
  let name := strings.ToLower Map_unicode_ToLower name in
  if existsb (fun mimic => strings.Contains name mimic
                           && negb (strings.HasPrefix name "com.apple."))
             appleMimicry
  then true
  else
    let count :=
      fold_left (fun count word => if strings.Contains name word then int_incr count
                                   else count)
                suspicious 0 in
    count >=? 2.

End heuristics.

(** ** Package [output]: the formatters (formatter.go, sarif.go, table.go) *)

Module output.
Import Go scanner.

Definition FormatterType : Type := string.

Definition FormatterTable : FormatterType := "table".
Definition FormatterJSON : FormatterType := "json".
Definition FormatterSARIF : FormatterType := "sarif".

(** The three implementations of the [Formatter] interface. *)
Inductive Formatter : Type :=
| JSONFormatter (Pretty : bool)
| SARIFFormatter
| TableFormatter.

Definition GetFormatter (formatType : FormatterType) : Formatter :=
  if String.eqb formatType FormatterJSON then JSONFormatter false
  else if String.eqb formatType FormatterSARIF then SARIFFormatter
  else TableFormatter.

(** *** SARIF (sarif.go) *)

Record SARIFDescription : Type := mkSARIFDescription { DText : string }.

Record SARIFRule : Type := mkSARIFRule {
  ID : string;
  RName : string;
  ShortDescription : SARIFDescription;
  FullDescription : SARIFDescription;
  DefaultLevel : string
}.

Record SARIFMessage : Type := mkSARIFMessage { Text : string }.

Record SARIFArtifactLocation : Type := mkSARIFArtifactLocation { URI : string }.

Record SARIFPhysicalLocation : Type := mkSARIFPhysicalLocation {
  ArtifactLocation : SARIFArtifactLocation
}.

Record SARIFLocation : Type := mkSARIFLocation {
  PhysicalLocation : SARIFPhysicalLocation
}.

Record SARIFResult : Type := mkSARIFResult {
  RuleID : string;
  Level : string;
  Message : SARIFMessage;
  Locations : slice SARIFLocation
}.

Definition generateRules : slice SARIFRule :=
  Some
    [ mkSARIFRule "unsigned-binary" "Unsigned Binary"
        (mkSARIFDescription "Binary is not code signed")
        (mkSARIFDescription
           "The persistence mechanism uses an unsigned binary, which could indicate malicious software")
        "warning";
      mkSARIFRule "suspicious-path" "Suspicious File Path"
        (mkSARIFDescription "Binary located in suspicious directory")
        (mkSARIFDescription
           "The persistence mechanism references a binary in a temporary or unusual location")
        "warning";
      mkSARIFRule "suspicious-behavior" "Suspicious Behavior Pattern"
        (mkSARIFDescription "Persistence exhibits suspicious behavioral patterns")
        (mkSARIFDescription
           "The persistence mechanism shows patterns commonly associated with malware")
        "warning";
      mkSARIFRule "high-entropy-name" "High Entropy Name"
        (mkSARIFDescription "Name appears random or obfuscated")
        (mkSARIFDescription
           "The persistence item has a name with high entropy, suggesting randomness or obfuscation")
        "note" ].

(** The map literal of [heuristicToRuleID]; a key that is missing reads
    as the empty string. *)
Definition mapping : gmap string string :=
  list_to_map
    [ ("signature_verification", "unsigned-binary");
      ("suspicious_path", "suspicious-path");
      ("suspicious_behavior", "suspicious-behavior");
      ("name_entropy", "high-entropy-name") ].

Definition heuristicToRuleID (heuristicName : string) : string :=
  default "" (mapping !! heuristicName).

Definition riskLevelToSARIF (level : RiskLevel) : string :=
  if String.eqb level RiskCritical || String.eqb level RiskHigh then "error"
  else if String.eqb level RiskMedium then "warning"
  else if String.eqb level RiskLow then "note"
  else "none".

(** The body of the inner loop of [convertResults], for one verdict of
    one item. *)
Definition convert_heuristic (item : PersistenceItem) (results : slice SARIFResult)
    (heuristic : HeuristicResult) : slice SARIFResult :=
  if negb (Triggered heuristic) then results
  else
    let ruleID := heuristicToRuleID (Name heuristic) in
    if String.eqb ruleID "" then results
    else
      append results
        [ mkSARIFResult ruleID (riskLevelToSARIF (scanner.Level (Risk item)))
            (mkSARIFMessage (Label item ++ ": " ++ Details heuristic))
            (Some [ mkSARIFLocation
                      (mkSARIFPhysicalLocation (mkSARIFArtifactLocation (Path item))) ]) ].

(** The body of the outer loop. *)
Definition convert_item (results : slice SARIFResult) (item : PersistenceItem)
  : slice SARIFResult :=
  if String.eqb (scanner.Level (Risk item)) RiskInfo then results
  else fold_left (convert_heuristic item) (elems (Heuristics (Risk item))) results.

Definition convertResults (items : slice PersistenceItem) : slice SARIFResult :=
  fold_left convert_item (elems items) None.

(** *** The table (table.go) *)

Definition riskLevelToInt (level : RiskLevel) : Z :=
  if String.eqb level RiskCritical then 5
  else if String.eqb level RiskHigh then 4
  else if String.eqb level RiskMedium then 3
  else if String.eqb level RiskLow then 2
  else 1.

Definition formatNotes (item : PersistenceItem) : string :=
  let notes : slice string := None in
  let notes := if RunAtLoad item then append notes ["RunAtLoad"] else notes in
  let notes := if KeepAlive item then append notes ["KeepAlive"] else notes in
  let notes := if Disabled item then append notes ["Disabled"] else notes in
  let notes :=
    match elems (Reasons (Risk item)) with
    | top :: _ => append notes [top]
    | [] => notes
    end in
  strings.Join (elems notes) ", ".

End output.

(** ** Package [main]: the [scan] command (main.go) *)

Module main.
Import Stdlib.Strings.Ascii Go scanner risk.

(** How [runScan] ends: with [os.Exit(code)], or by returning [err]. *)
Inductive outcome : Type :=
| Exit (code : Z)
| Return (err : option string).

Definition set_Risk (item : PersistenceItem) (a : RiskAssessment) : PersistenceItem :=
  mkPersistenceItem (ID item) (Mechanism item) (Label item) (Path item) (Program item)
    (ProgramArgs item) (User item) (RunAtLoad item) (KeepAlive item) (Disabled item)
    (CreatedAt item) (ModifiedAt item) (FileMode item) a (RawData item) (Errors item).

Definition set_Items (result : ScanResult) (items : slice PersistenceItem) : ScanResult :=
  mkScanResult (StartTime result) (EndTime result) (SDuration result) items
    (TotalItems result) (RiskSummary result) (SErrors result) (PermissionIssues result).

Section runScan.
Context {World : Type}.
Variable clock : nat -> Time.

(** Whether the build fuses the multiply-add of [AssessRisk]. *)
Variable fused : bool.
Variable sort_Slice : forall A : Type, (A -> A -> bool) -> list A -> list A.

(** [formatter.Format(result)]: the bytes and the error it returns. *)
Variable Format : output.Formatter -> ScanResult -> string * option string.

(** [for i := range result.Items {
       result.Items[i].Risk = riskEngine.AssessRisk(&result.Items[i]) }]:
    the engine is handed a pointer to the element, and the assessment is
    stored in the element once the call has returned. *)
Fixpoint assess (riskEngine : Engine World) (items : list PersistenceItem) (w : World)
  : list PersistenceItem * World :=
  match items with
  | [] => ([], w)
  | item :: rest =>
      let '(a, (item', w')) := AssessRisk fused sort_Slice riskEngine (item, w) in
      let '(rest', w'') := assess riskEngine rest w' in
      (set_Risk item' a :: rest', w'')
  end.

(** [runScan].  The seven probes and the four heuristics it builds are
    arguments here, as are the flags of the command; [sched] and [t0]
    are those of [RunScan].  The result is what was written to the
    standard output, how the function ended, and the world the
    heuristics leave. *)
Definition runScan (scanners : slice Scanner) (heuristicsList : slice (Heuristic World))
    (outputFormat : string) (parallel verbose : bool)
    (sched : list thread) (t0 : nat) (w : World)
  : option (string * outcome * World) :=
  let ctx := mkCtx false in
  let riskEngine := NewEngine heuristicsList in
  let orchestrator := NewOrchestrator scanners parallel in
  let stdout : string :=
    if verbose then String.append "Starting scan..." (String "010"%char "") else "" in
  match RunScan clock orchestrator ctx sched t0 with
  | None => None
  | Some (result, Some err) => Some (stdout, Return (Some (String.append "scan failed: " err)), w)
  | Some (result, None) =>
      let '(items, w') := assess riskEngine (elems (Items result)) w in
      let result := set_Items result (option_map (fun _ => items) (Items result)) in
      let formatter := output.GetFormatter outputFormat in
      let formatter :=
        match formatter with
        | output.JSONFormatter _ =>
            if String.eqb outputFormat "json" then output.JSONFormatter true
            else formatter
        | _ => formatter
        end in
      match Format formatter result with
      | (_, Some err) =>
          Some (stdout, Return (Some (String.append "failed to format output: " err)), w')
      | (outputData, None) =>
          let stdout := String.append stdout outputData in
          if default 0 (RiskSummary result !! RiskCritical) >? 0
          then Some (stdout, Exit 3, w')
          else if default 0 (RiskSummary result !! RiskHigh) >? 0
          then Some (stdout, Exit 2, w')
          else if default 0 (RiskSummary result !! RiskMedium) >? 0
          then Some (stdout, Exit 1, w')
          else Some (stdout, Return None, w')
      end
  end.

End runScan.

End main.

(** *** A scan used as a concrete instance *)

Module samples.
Import Go scanner risk.

(** A launch daemon that runs a script from the temporary directory, as
    a probe returns it: not assessed yet. *)
Definition dropper : PersistenceItem :=
  mkPersistenceItem "com.example.dropper.plist" MechanismLaunchDaemon "com.example.dropper"
    "/Library/LaunchDaemons/com.example.dropper.plist" "/tmp/payload.sh" None "root"
    true true false 0 0 "-rw-r--r--" RiskAssessment_zero ∅ None.

Definition probe_daemons : Scanner :=
  mkScanner (Some [dropper], None) MechanismLaunchDaemon.

(** The engine that holds the path heuristic alone. *)
Definition path_engine : Engine unit := NewEngine (Some [heuristics.NewPathHeuristic]).

(** An engine whose two heuristics of equal score are followed by one
    of a higher score. *)
Definition tied : Engine unit :=
  NewEngine (Some [examples.fixed (examples.verdict "A" true 0.5 1);
                   examples.fixed (examples.verdict "B" true 0.5 1);
                   examples.fixed (examples.verdict "C" true 0.9 1)]).

(** A machine on which [codesign] finds no signature. *)
Definition unsigned_machine : heuristics.Machine :=
  heuristics.mkMachine
    (fun argv => ("code object is not signed at all", Some "exit status 1")) [].

(** Two triggered heuristics with which the rounding of the products
    shows in the score. *)
Definition rounding : Engine unit :=
  NewEngine (Some [examples.fixed (examples.verdict "A" true 0.8 0.8);
                   examples.fixed (examples.verdict "B" true 0.8 0.9)]).

(** A formatter that succeeds. *)
Definition report (formatter : output.Formatter) (result : ScanResult)
  : string * option string :=
  ("report", None).

(** The SARIF result for [dropper] once the path heuristic has rated
    it. *)
Definition finding : output.SARIFResult :=
  output.mkSARIFResult "suspicious-path" "error"
    (output.mkSARIFMessage "com.example.dropper: Binary located in temporary directory")
    (Some [output.mkSARIFLocation
             (output.mkSARIFPhysicalLocation
                (output.mkSARIFArtifactLocation
                   "/Library/LaunchDaemons/com.example.dropper.plist"))]).

End samples.

Section EngineProperties.
Import Go scanner risk spec Float64.
Context {World : Type}.
Variable fused : bool.
Variable sort_Slice : forall A : Type, (A -> A -> bool) -> list A -> list A.

Implicit Types (hs : list (Heuristic World)) (st : PersistenceItem * World).
Implicit Types (l : locals) (e : Engine World).

Lemma int_incr_small (c : Z) : 0 <= c < 2 ^ 63 - 1 -> int_incr c = c + 1.
Proof.
  intros Hc. unfold int_incr, int_wrap.
  rewrite Z.mod_small by lia. lia.
Qed.

Lemma iter_int_incr (n : nat) (c : Z) :
  0 <= c -> c + Z.of_nat n < 2 ^ 63 ->
  Nat.iter n int_incr c = c + Z.of_nat n.
Proof.
  revert c. induction n as [|n IH]; intros c Hc Hn.
  - simpl. lia.
  - rewrite Nat.iter_succ_r, int_incr_small by lia.
    rewrite IH by lia. lia.
Qed.

(** What the loop leaves in the locals, in terms of the verdicts. *)
Lemma loop_spec hs st l (rs : list string) (hv : list HeuristicResult) :
  Reasons (assessment l) = Some rs ->
  Heuristics (assessment l) = Some hv ->
  loop fused hs (l, st) =
    (mkLocals
       (mkRiskAssessment (Level (assessment l)) (RScore (assessment l))
          (RConfidence (assessment l))
          (Some (rs ++ map Details (triggered (verdicts hs st))))
          (Some (hv ++ verdicts hs st)))
       (fold_left (fun acc v => muladd fused (Score v) (Confidence v) acc)
          (triggered (verdicts hs st)) (totalScore l))
       (fold_left PrimFloat.add (confidences (verdicts hs st)) (totalConfidence l))
       (Nat.iter (length (triggered (verdicts hs st))) int_incr (triggeredCount l)),
     after hs st).
Proof.
  revert st l rs hv. induction hs as [|h hs IH]; intros st l rs hv Hrs Hhv.
  - destruct l as [[lv sc cf rs' hv'] ts tc n]. simpl in *. subst.
    rewrite !app_nil_r. reflexivity.
  - destruct l as [[lv sc cf rs' hv'] ts tc n]. simpl in Hrs, Hhv. subst.
    cbn [loop loop_body verdicts after assessment Heuristics Reasons].
    destruct (Analyze h st) as [result st'] eqn:Hh. cbn [fst snd].
    unfold weighted_scores, confidences, triggered. cbn [List.filter].
    destruct (Triggered result) eqn:Htr.
    + erewrite IH by reflexivity.
      cbn [assessment totalScore totalConfidence triggeredCount Level RScore
           RConfidence map fold_left length elems].
      rewrite <- !app_assoc, Nat.iter_succ_r. reflexivity.
    + erewrite IH by reflexivity.
      cbn [assessment totalScore totalConfidence triggeredCount Level RScore
           RConfidence elems].
      rewrite <- !app_assoc. reflexivity.
Qed.

(** [AssessRisk] in terms of the verdicts: the loop is gone. *)
Lemma AssessRisk_spec e st :
  AssessRisk fused sort_Slice e st =
    (let vs := verdicts (elems (heuristics e)) st in
     let n := Nat.iter (length (triggered vs)) int_incr 0 in
     let score :=
       if n >? 0 then (score_sum fused vs / fsum (confidences vs))%float
       else 0%float in
     let confidence :=
       if n >? 0
       then math_Min (fsum (confidences vs) / float64_of_int n)%float 1%float
       else 1%float in
     (mkRiskAssessment (scoreToRiskLevel score) score confidence
        (Some (map Details (triggered vs)))
        (Some (sort_Slice HeuristicResult by_score_desc vs)),
      after (elems (heuristics e)) st)).
Proof.
  unfold AssessRisk.
  rewrite (loop_spec _ st locals_init [] []) by reflexivity.
  cbn [assessment totalScore totalConfidence triggeredCount locals_init
       Reasons Heuristics RScore RConfidence app option_map].
  fold (score_sum fused (verdicts (elems (heuristics e)) st)).
  fold (fsum (confidences (verdicts (elems (heuristics e)) st))).
  cbv zeta.
  destruct (Nat.iter _ int_incr 0 >? 0); reflexivity.
Qed.

Lemma triggered_count (vs : list HeuristicResult) :
  Z.of_nat (length (triggered vs)) < 2 ^ 63 ->
  Nat.iter (length (triggered vs)) int_incr 0 = Z.of_nat (length (triggered vs)).
Proof. intros H. rewrite iter_int_incr by lia. lia. Qed.

(** Without fusion the products are rounded before they are summed. *)
Lemma score_sum_unfused (vs : list HeuristicResult) :
  score_sum false vs = fsum (weighted_scores vs).
Proof.
  unfold score_sum, fsum, weighted_scores. generalize 0%float.
  induction (triggered vs) as [|v l IH]; intros acc; cbn [fold_left map];
    [reflexivity|].
  apply IH.
Qed.

Lemma score_sum_zeros (vs : list HeuristicResult) :
  Forall (fun v => in_unit (Score v) = true
                   /\ PrimFloat.eqb (Confidence v) 0%float = true) (triggered vs) ->
  score_sum fused vs = 0%float.
Proof.
  unfold score_sum. induction 1 as [|v l [Hs Hc] _ IH]; cbn [fold_left]; [reflexivity|].
  rewrite muladd_zero; [exact IH|apply in_unit_finite, Hs|apply eqb_zero_spec, Hc].
Qed.

(** C3.  When at least one heuristic triggers, the score is the sum of
    [score * confidence] over the triggered verdicts divided by the sum of
    their confidences (not by their number), and the confidence is the
    smaller of 1.0 and that sum of confidences divided by the number [n]
    of triggered verdicts: the quotient below 1.0, 1.0 from there on.
    Verdicts that did not trigger enter neither sum.  The sums are the
    [float64] sums the loop forms, from 0.0 and in execution order; each
    product enters the running sum rounded on its own, or fused with the
    addition and rounded once, as the build has it. *)
Theorem AssessRisk_weighted_average e st :
  let vs := verdicts (elems (heuristics e)) st in
  let n := length (triggered vs) in
  let a := fst (AssessRisk fused sort_Slice e st) in
  let q := (fsum (confidences vs) / float64_of_int (Z.of_nat n))%float in
  (0 < n)%nat ->
  Z.of_nat n < 2 ^ 63 ->
  RScore a = (score_sum fused vs / fsum (confidences vs))%float
  /\ score_sum false vs = fsum (map (fun v => (Score v * Confidence v)%float) (triggered vs))
  /\ score_sum true vs
     = fold_left (fun acc v => fma (Score v) (Confidence v) acc) (triggered vs) 0%float
  /\ (PrimFloat.ltb q 1%float = true -> RConfidence a = q)
  /\ (PrimFloat.leb 1%float q = true -> RConfidence a = 1%float)
  /\ (PrimFloat.is_nan q = true -> PrimFloat.is_nan (RConfidence a) = true).
Proof.
  intros vs n a q Hpos Hn. unfold a. rewrite AssessRisk_spec. fold vs. cbv zeta.
  rewrite (triggered_count vs Hn). fold n.
  destruct (Z.gtb_spec (Z.of_nat n) 0) as [_|?]; [|lia].
  cbn [fst RScore RConfidence]. fold q.
  split; [reflexivity|]. split; [apply score_sum_unfused|]. split; [reflexivity|].
  split; [apply math_Min_lt|]. split; [apply math_Min_ge|apply math_Min_nan].
Qed.


Lemma verdicts_pure hs (item : PersistenceItem) (w1 w2 : World) :
  Forall pure hs ->
  verdicts hs (item, w1) = verdicts hs (item, w2)
  /\ after hs (item, w1) = (item, w1).
Proof.
  intros Hp. induction Hp as [|h hs [f Hf] _ [IH1 IH2]]; simpl; [auto|].
  rewrite !Hf. simpl. rewrite IH1, IH2. auto.
Qed.

(** C8.  With heuristics that are functions of the item, the assessment
    is a function of the item: whatever the state of the world, and
    however often the engine is called, the same item gets the same
    level, score, confidence, reasons and verdict list, and the item is
    left as it was. *)
Theorem AssessRisk_deterministic e (item : PersistenceItem) (w1 w2 : World) :
  Forall pure (elems (heuristics e)) ->
  fst (AssessRisk fused sort_Slice e (item, w1)) = fst (AssessRisk fused sort_Slice e (item, w2))
  /\ snd (AssessRisk fused sort_Slice e (item, w1)) = (item, w1)
  /\ fst (AssessRisk fused sort_Slice e (snd (AssessRisk fused sort_Slice e (item, w1))))
     = fst (AssessRisk fused sort_Slice e (item, w1)).
Proof.
  intros Hp. rewrite !AssessRisk_spec. cbv zeta. cbn [fst snd].
  destruct (verdicts_pure _ item w1 w2 Hp) as [Hv Ha].
  rewrite !Ha, Hv. auto.
Qed.

Lemma fsum_zeros (xs : list float) :
  Forall (fun x => is_zero_sf (Prim2SF x) = true) xs -> fsum xs = 0%float.
Proof.
  unfold fsum. induction 1 as [|x xs Hx _ IH]; simpl; [reflexivity|].
  rewrite (add_zero_zero x Hx). exact IH.
Qed.

(** C9.  The division by the summed confidence has no guard.  When every
    triggered verdict has confidence 0 (its score lying in [0, 1]), and at
    least one verdict triggered, the score is 0/0, that is NaN, and the
    confidence is 0. *)
Theorem AssessRisk_zero_confidence e st :
  let vs := verdicts (elems (heuristics e)) st in
  let n := length (triggered vs) in
  (0 < n)%nat ->
  Z.of_nat n < 2 ^ 63 ->
  Forall (fun v => in_unit (Score v) = true
                   /\ PrimFloat.eqb (Confidence v) 0%float = true) (triggered vs) ->
  RScore (fst (AssessRisk fused sort_Slice e st)) = (0 / 0)%float
  /\ PrimFloat.is_nan (RScore (fst (AssessRisk fused sort_Slice e st))) = true
  /\ RConfidence (fst (AssessRisk fused sort_Slice e st)) = 0%float.
Proof.
  intros vs n Hpos Hn Hz. rewrite AssessRisk_spec. fold vs. cbv zeta.
  rewrite (triggered_count vs Hn). fold n.
  destruct (Z.gtb_spec (Z.of_nat n) 0) as [_|?]; [|lia].
  cbn [fst RScore RConfidence].
  assert (score_sum fused vs = 0%float) as -> by (apply score_sum_zeros, Hz).
  assert (fsum (confidences vs) = 0%float) as ->.
  { apply fsum_zeros. unfold confidences. apply List.Forall_map.
    eapply List.Forall_impl; [|exact Hz]. intros v [Hs Hc]. simpl.
    apply eqb_zero_spec, Hc. }
  rewrite (div_zero_pos (float64_of_int (Z.of_nat n)))
    by (apply float64_of_int_pos; lia).
  repeat split; reflexivity.
Qed.

Lemma verdicts_length hs st : length (verdicts hs st) = length hs.
Proof.
  revert st. induction hs as [|h hs IH]; intros st; simpl; [reflexivity|].
  rewrite IH. reflexivity.
Qed.

Lemma ltb_irrefl (x : float) : PrimFloat.ltb x x = false.
Proof.
  rewrite FloatAxioms.ltb_spec. unfold SFltb.
  destruct (Prim2SF x) as [s|s| |s m e] eqn:Hx; try reflexivity;
    rewrite SFcompare_refl by discriminate; reflexivity.
Qed.

(** On verdicts whose scores are numbers, "has the greater score" is an
    ordering [sort.Slice] accepts. *)
Lemma by_score_desc_ordering (vs : list HeuristicResult) :
  Forall (fun v => PrimFloat.is_nan (Score v) = false) vs ->
  transitive_ordering by_score_desc vs.
Proof.
  intros Hnum. rewrite List.Forall_forall in Hnum.
  assert (forall v, v ∈ vs -> PrimFloat.is_nan (Score v) = false) as Hn.
  { intros v Hv. apply Hnum, list_elem_of_In, Hv. }
  unfold by_score_desc, fgt. repeat split.
  - intros x _. apply ltb_irrefl.
  - intros x y z _ _ _ Hxy Hyz. exact (ltb_trans _ _ _ Hyz Hxy).
  - intros x y z Hx Hy Hz Hxy Hyz.
    apply leb_not_ltb.
    apply (leb_trans _ (Score y)).
    + apply not_ltb_leb; auto.
    + apply not_ltb_leb; auto.
Qed.

(** C5, as the code has it.  The verdict list of the assessment holds
    one verdict per heuristic, triggered or not (it is a rearrangement of
    the verdicts in execution order), and it is sorted by score, highest
    first.  This is what [sort.Slice] gives for scores that are numbers;
    the order among verdicts of equal score is left to [sort.Slice]. *)
Theorem AssessRisk_verdicts_sorted e st :
  let vs := verdicts (elems (heuristics e)) st in
  sorts sort_Slice ->
  Forall (fun v => PrimFloat.is_nan (Score v) = false) vs ->
  exists out,
    Heuristics (fst (AssessRisk fused sort_Slice e st)) = Some out
    /\ out ≡ₚ vs
    /\ length out = length (elems (heuristics e))
    /\ (forall i j x y, (i < j)%nat -> out !! i = Some x -> out !! j = Some y ->
          fge (Score x) (Score y) = true).
Proof.
  intros vs Hsort Hnum. rewrite AssessRisk_spec. fold vs. cbv zeta.
  cbn [fst Heuristics].
  destruct (Hsort _ by_score_desc vs (by_score_desc_ordering vs Hnum)) as [Hperm Hsorted].
  eexists. split; [reflexivity|]. split; [exact Hperm|]. split.
  - rewrite Hperm. apply verdicts_length.
  - intros i j x y Hij Hx Hy.
    pose proof (Hsorted i j x y Hij Hx Hy) as Hless.
    unfold by_score_desc, fgt in Hless. unfold fge.
    rewrite List.Forall_forall in Hnum.
    apply not_ltb_leb; [| |exact Hless].
    + apply Hnum, list_elem_of_In. rewrite <- Hperm.
      apply list_elem_of_lookup. eauto.
    + apply Hnum, list_elem_of_In. rewrite <- Hperm.
      apply list_elem_of_lookup. eauto.
Qed.

End EngineProperties.

(** C4.  The tier is the threshold function of the score: 0.8 and above
    is Critical, otherwise 0.6 and above is High, otherwise 0.4 and above
    is Medium, otherwise 0.2 and above is Low, otherwise Info; each
    threshold belongs to the higher tier; and a larger score never gets a
    lower tier. *)
Theorem scoreToRiskLevel_monotone :
  (forall s, Go.fge s 0.8%float = true ->
             risk.scoreToRiskLevel s = scanner.RiskCritical)
  /\ (forall s, Go.fge s 0.8%float = false -> Go.fge s 0.6%float = true ->
                risk.scoreToRiskLevel s = scanner.RiskHigh)
  /\ (forall s, Go.fge s 0.6%float = false -> Go.fge s 0.4%float = true ->
                risk.scoreToRiskLevel s = scanner.RiskMedium)
  /\ (forall s, Go.fge s 0.4%float = false -> Go.fge s 0.2%float = true ->
                risk.scoreToRiskLevel s = scanner.RiskLow)
  /\ (forall s, Go.fge s 0.2%float = false ->
                risk.scoreToRiskLevel s = scanner.RiskInfo)
  /\ (risk.scoreToRiskLevel 0.8%float = scanner.RiskCritical
      /\ risk.scoreToRiskLevel 0.6%float = scanner.RiskHigh
      /\ risk.scoreToRiskLevel 0.4%float = scanner.RiskMedium
      /\ risk.scoreToRiskLevel 0.2%float = scanner.RiskLow)
  /\ (forall s1 s2, PrimFloat.ltb s1 s2 = true ->
        (spec.tier_rank (risk.scoreToRiskLevel s1)
         <= spec.tier_rank (risk.scoreToRiskLevel s2))%nat).
Proof.
  assert (forall c s1 s2, PrimFloat.ltb s1 s2 = true ->
            Go.fge s1 c = true -> Go.fge s2 c = true) as Hup.
  { intros c s1 s2 Hlt Hc. unfold Go.fge in *.
    exact (Float64.leb_ltb_trans c s1 s2 Hc Hlt). }
  assert (forall c1 c2 s, PrimFloat.ltb c1 c2 = true ->
            Go.fge s c2 = true -> Go.fge s c1 = true) as Hdown.
  { intros c1 c2 s Hlt Hc. unfold Go.fge in *.
    exact (Float64.ltb_leb_trans c1 c2 s Hlt Hc). }
  unfold risk.scoreToRiskLevel.
  repeat split.
  - intros s ->. reflexivity.
  - intros s -> ->. reflexivity.
  - intros s H6 H4.
    destruct (Go.fge s 0.8%float) eqn:H8.
    + rewrite (Hdown 0.6%float 0.8%float s eq_refl H8) in H6. discriminate.
    + rewrite H6, H4. reflexivity.
  - intros s H4 H2.
    destruct (Go.fge s 0.8%float) eqn:H8.
    { rewrite (Hdown 0.4%float 0.8%float s eq_refl H8) in H4. discriminate. }
    destruct (Go.fge s 0.6%float) eqn:H6.
    { rewrite (Hdown 0.4%float 0.6%float s eq_refl H6) in H4. discriminate. }
    rewrite H4, H2. reflexivity.
  - intros s H2.
    destruct (Go.fge s 0.8%float) eqn:H8.
    { rewrite (Hdown 0.2%float 0.8%float s eq_refl H8) in H2. discriminate. }
    destruct (Go.fge s 0.6%float) eqn:H6.
    { rewrite (Hdown 0.2%float 0.6%float s eq_refl H6) in H2. discriminate. }
    destruct (Go.fge s 0.4%float) eqn:H4.
    { rewrite (Hdown 0.2%float 0.4%float s eq_refl H4) in H2. discriminate. }
    rewrite H2. reflexivity.
  - intros s1 s2 Hlt.
    pose proof (Hup 0.8%float s1 s2 Hlt) as U8.
    pose proof (Hup 0.6%float s1 s2 Hlt) as U6.
    pose proof (Hup 0.4%float s1 s2 Hlt) as U4.
    pose proof (Hup 0.2%float s1 s2 Hlt) as U2.
    destruct (Go.fge s1 0.8%float); [rewrite U8 by reflexivity; reflexivity|].
    destruct (Go.fge s1 0.6%float);
      [rewrite U6 by reflexivity; destruct (Go.fge s2 0.8%float); vm_compute; lia|].
    destruct (Go.fge s1 0.4%float);
      [rewrite U4 by reflexivity;
       destruct (Go.fge s2 0.8%float), (Go.fge s2 0.6%float); vm_compute; lia|].
    destruct (Go.fge s1 0.2%float);
      [rewrite U2 by reflexivity;
       destruct (Go.fge s2 0.8%float), (Go.fge s2 0.6%float), (Go.fge s2 0.4%float);
       vm_compute; lia|].
    destruct (Go.fge s2 0.8%float), (Go.fge s2 0.6%float), (Go.fge s2 0.4%float),
      (Go.fge s2 0.2%float); vm_compute; lia.
Qed.

(** ** The sorts *)

Section SortFacts.
Import spec.
Context {A : Type} (less : A -> A -> bool).

Lemma insert_stable_perm (x : A) (l : list A) : insert_stable less x l ≡ₚ x :: l.
Proof.
  induction l as [|y l IH]; simpl; [reflexivity|].
  destruct (less y x); [|reflexivity].
  rewrite IH. apply Permutation_swap.
Qed.

Lemma stable_sort_perm (l : list A) : stable_sort A less l ≡ₚ l.
Proof.
  induction l as [|x l IH]; simpl; [reflexivity|].
  rewrite insert_stable_perm, IH. reflexivity.
Qed.

Lemma transitive_ordering_incl (l l' : list A) :
  (forall x, x ∈ l' -> x ∈ l) ->
  transitive_ordering less l -> transitive_ordering less l'.
Proof.
  intros Hin (Hirr & Htr & Hntr). repeat split.
  - intros a Ha. apply Hirr; auto.
  - intros a b c Ha Hb Hc. apply Htr; auto.
  - intros a b c Ha Hb Hc. apply Hntr; auto.
Qed.

Lemma insert_stable_sorted (x : A) (l : list A) :
  transitive_ordering less (x :: l) ->
  StronglySorted (fun a b => less b a = false) l ->
  StronglySorted (fun a b => less b a = false) (insert_stable less x l).
Proof.
  intros Hord Hs.
  induction Hs as [|y l Hs IH Hy]; simpl.
  - repeat constructor.
  - destruct Hord as (Hirr & Htr & Hntr).
    assert (x ∈ x :: y :: l) as Hx by (apply elem_of_cons; auto).
    assert (y ∈ x :: y :: l) as Hy' by (apply elem_of_cons; right; apply elem_of_cons; auto).
    destruct (less y x) eqn:Hyx.
    + constructor.
      * apply IH. apply (transitive_ordering_incl (x :: y :: l)).
        -- intros a Ha. apply elem_of_cons in Ha as [->|Ha]; [exact Hx|].
           apply elem_of_cons; right. apply elem_of_cons; auto.
        -- repeat split; assumption.
      * rewrite insert_stable_perm. constructor; [|exact Hy].
        destruct (less x y) eqn:Hxy; [|reflexivity].
        rewrite <- (Hirr y Hy'). symmetry.
        exact (Htr y x y Hy' Hx Hy' Hyx Hxy).
    + constructor; [constructor; assumption|].
      constructor; [exact Hyx|].
      rewrite List.Forall_forall in Hy |- *. intros z Hz.
      assert (z ∈ x :: y :: l) as Hz'.
      { apply elem_of_cons; right. apply elem_of_cons; right.
        apply list_elem_of_In, Hz. }
      exact (Hntr z y x Hz' Hy' Hx (Hy z Hz) Hyx).
Qed.

Lemma stable_sort_sorted (l : list A) :
  transitive_ordering less l ->
  StronglySorted (fun a b => less b a = false) (stable_sort A less l).
Proof.
  induction l as [|x l IH]; intros Hord; simpl; [constructor|].
  apply insert_stable_sorted.
  - apply (transitive_ordering_incl (x :: l)); [|exact Hord].
    intros a Ha. apply elem_of_cons in Ha as [->|Ha].
    + apply elem_of_cons; auto.
    + apply elem_of_cons; right. rewrite <- (stable_sort_perm l). exact Ha.
  - apply IH. apply (transitive_ordering_incl (x :: l)); [|exact Hord].
    intros a Ha. apply elem_of_cons; auto.
Qed.

Lemma StronglySorted_sorted_by (l : list A) :
  StronglySorted (fun a b => less b a = false) l -> sorted_by less l.
Proof.
  induction 1 as [|x l Hs IH Hx]; intros i j a b Hij Ha Hb.
  - rewrite lookup_nil in Ha. discriminate.
  - destruct j as [|j]; [lia|]. simpl in Hb.
    destruct i as [|i]; simpl in Ha.
    + injection Ha as <-. rewrite List.Forall_forall in Hx.
      apply Hx, list_elem_of_In, list_elem_of_lookup. eauto.
    + apply (IH i j); [lia|assumption|assumption].
Qed.

(** [sort.Slice] for a slice of at most twelve elements is the insertion
    sort of the library. *)
Lemma Slice_short (next : Z -> Z) (x : list A) :
  (length x <= 12)%nat ->
  sort.Slice less next x = sort.insertionSortLessFunc less x 0 (length x).
Proof.
  intros Hlen. unfold sort.Slice, sort.pdqsortLessFunc. cbn [sort.pdqsort_loop].
  rewrite Nat.sub_0_r.
  destruct (Nat.leb_spec (length x) 12) as [_|?]; [reflexivity|lia].
Qed.

End SortFacts.

(** The reference sort does what [sort.Slice] promises. *)
Lemma stable_sort_sorts : spec.sorts spec.stable_sort.
Proof.
  intros A less l Hord. split.
  - apply stable_sort_perm.
  - apply StronglySorted_sorted_by, stable_sort_sorted, Hord.
Qed.

(** *** The insertion sort of the library

    [sort.Slice] sorts a slice of at most twelve elements with
    [insertionSortLessFunc].  That sort is related here to a function on
    lists: the part already sorted is kept in reverse, and each new
    element sinks into it past the elements it is [less] than. *)

Section InsertionSort.
Import spec.
Context {A : Type} (less : A -> A -> bool).

Fixpoint sink (x : A) (rp : list A) : list A :=
  match rp with
  | [] => [x]
  | y :: rp' => if less x y then y :: sink x rp' else x :: rp
  end.

Definition sink_all (l rp : list A) : list A :=
  fold_left (fun rp x => sink x rp) l rp.

Lemma Less_adjacent (pre post : list A) (x y : A) :
  sort.Less less (pre ++ y :: x :: post) (S (length pre)) (length pre) = less x y.
Proof.
  unfold sort.Less.
  rewrite (list_lookup_middle pre (x :: post) y (length pre) eq_refl).
  replace (pre ++ y :: x :: post) with ((pre ++ [y]) ++ x :: post)
    by (rewrite <- app_assoc; reflexivity).
  rewrite (list_lookup_middle (pre ++ [y]) post x (S (length pre)))
    by (rewrite length_app; simpl; lia).
  reflexivity.
Qed.

Lemma Swap_adjacent (pre post : list A) (x y : A) :
  sort.Swap (pre ++ y :: x :: post) (S (length pre)) (length pre)
  = pre ++ x :: y :: post.
Proof.
  unfold sort.Swap.
  rewrite (list_lookup_middle pre (x :: post) y (length pre) eq_refl).
  replace (pre ++ y :: x :: post) with ((pre ++ [y]) ++ x :: post)
    by (rewrite <- app_assoc; reflexivity).
  rewrite (list_lookup_middle (pre ++ [y]) post x (S (length pre)))
    by (rewrite length_app; simpl; lia).
  rewrite <- app_assoc. cbn [app].
  rewrite (insert_app_r_alt pre _ (length pre)) by lia.
  rewrite Nat.sub_diag. cbn [list_insert].
  rewrite (insert_app_r_alt pre _ (S (length pre))) by lia.
  replace (S (length pre) - length pre)%nat with 1%nat by lia.
  reflexivity.
Qed.

Lemma insertion_inner_sink (rp post : list A) (x : A) :
  sort.insertion_inner less (rev rp ++ x :: post) 0 (length rp)
  = rev (sink x rp) ++ post.
Proof.
  revert post. induction rp as [|y rp IH]; intros post; [reflexivity|].
  cbn [length sort.insertion_inner rev sink]. rewrite <- app_assoc. cbn [app].
  replace (length rp) with (length (rev rp)) by apply length_rev.
  rewrite Less_adjacent. cbn [Nat.ltb Nat.leb andb].
  destruct (less x y).
  - rewrite Swap_adjacent, length_rev, IH. cbn [rev]. rewrite <- app_assoc.
    reflexivity.
  - cbn [rev]. rewrite <- !app_assoc. reflexivity.
Qed.

Lemma insertion_outer_sink (rest rp : list A) :
  sort.insertion_outer less (rev rp ++ rest) 0 (length rp) (length rest)
  = rev (sink_all rest rp).
Proof.
  revert rp. induction rest as [|x rest IH]; intros rp.
  - simpl. rewrite app_nil_r. reflexivity.
  - cbn [length sort.insertion_outer sink_all fold_left].
    rewrite insertion_inner_sink.
    specialize (IH (sink x rp)).
    assert (length (sink x rp) = S (length rp)) as Hlen.
    { clear. induction rp as [|y rp IH]; simpl; [reflexivity|].
      destruct (less x y); simpl; rewrite ?IH; reflexivity. }
    rewrite Hlen in IH. exact IH.
Qed.

(** The insertion sort of the library, on lists. *)
Lemma insertionSort_sink (l : list A) :
  sort.insertionSortLessFunc less l 0 (length l) = rev (sink_all l []).
Proof.
  unfold sort.insertionSortLessFunc. destruct l as [|x l]; [reflexivity|].
  cbn [length]. rewrite Nat.sub_succ, Nat.sub_0_r.
  exact (insertion_outer_sink l [x]).
Qed.

End InsertionSort.

(** ** The engine on concrete inputs *)

Lemma fixed_pure (v : scanner.HeuristicResult) : spec.pure (examples.fixed v).
Proof. exists (fun _ => v). intros item w. reflexivity. Qed.

(** The two triggers of the specification's worked example: the score is
    (0.9 * 0.5 + 0.3 * 1.0) / (0.5 + 1.0) = 0.5 and the confidence
    min(1.5 / 2, 1.0) = 0.75. *)
Lemma AssessRisk_weighted_average_witness :
  let rounded := fst (risk.AssessRisk false spec.stable_sort samples.rounding
                        (examples.item0, tt)) in
  let fused := fst (risk.AssessRisk true spec.stable_sort samples.rounding
                      (examples.item0, tt)) in
  scanner.RScore rounded = 0x1.999999999999bp-1%float
  /\ scanner.RScore fused = 0x1.9999999999999p-1%float
  /\ scanner.RConfidence rounded = 0x1.b333333333334p-1%float
  /\ scanner.RConfidence fused = 0x1.b333333333334p-1%float.
Proof.
  cbv zeta.
  pose proof (AssessRisk_weighted_average false spec.stable_sort samples.rounding
                (examples.item0, tt)) as H0.
  pose proof (AssessRisk_weighted_average true spec.stable_sort samples.rounding
                (examples.item0, tt)) as H1.
  cbv zeta in H0, H1.
  assert (0 < length (spec.triggered (spec.verdicts
              (Go.elems (risk.heuristics samples.rounding))
              (examples.item0, tt))))%nat as Hpos by (vm_compute; lia).
  assert (Z.of_nat (length (spec.triggered (spec.verdicts
              (Go.elems (risk.heuristics samples.rounding))
              (examples.item0, tt)))) < 2 ^ 63) as Hn by (vm_compute; reflexivity).
  destruct (H0 Hpos Hn) as (Hs0 & _ & _ & Hc0 & _).
  destruct (H1 Hpos Hn) as (Hs1 & _ & _ & Hc1 & _).
  split; [rewrite Hs0; vm_compute; reflexivity|].
  split; [rewrite Hs1; vm_compute; reflexivity|].
  split.
  - rewrite Hc0 by (vm_compute; reflexivity). vm_compute. reflexivity.
  - rewrite Hc1 by (vm_compute; reflexivity). vm_compute. reflexivity.
Defined.


Lemma AssessRisk_deterministic_witness :
  fst (risk.AssessRisk true spec.stable_sort examples.two_triggers (examples.item0, tt))
  = fst (risk.AssessRisk true spec.stable_sort examples.two_triggers
           (snd (risk.AssessRisk true spec.stable_sort examples.two_triggers
                   (examples.item0, tt)))).
Proof.
  symmetry.
  apply (AssessRisk_deterministic true spec.stable_sort examples.two_triggers
           examples.item0 tt tt).
  repeat constructor; apply fixed_pure.
Defined.

Lemma AssessRisk_zero_confidence_witness :
  let a := fst (risk.AssessRisk true spec.stable_sort examples.no_confidence
                  (examples.item0, tt)) in
  PrimFloat.is_nan (scanner.RScore a) = true /\ scanner.RConfidence a = 0%float.
Proof.
  pose proof (AssessRisk_zero_confidence true spec.stable_sort examples.no_confidence
                (examples.item0, tt)) as H.
  cbv zeta in H |- *.
  assert (0 < length (spec.triggered (spec.verdicts
              (Go.elems (risk.heuristics examples.no_confidence))
              (examples.item0, tt))))%nat as H1 by (vm_compute; lia).
  assert (Z.of_nat (length (spec.triggered (spec.verdicts
              (Go.elems (risk.heuristics examples.no_confidence))
              (examples.item0, tt)))) < 2 ^ 63) as H2 by (vm_compute; reflexivity).
  destruct (H H1 H2) as (_ & Hn & Hc).
  - repeat constructor.
  - split; assumption.
Defined.

Lemma scoreToRiskLevel_monotone_witness :
  (spec.tier_rank (risk.scoreToRiskLevel 0.35%float)
   <= spec.tier_rank (risk.scoreToRiskLevel 0.65%float))%nat.
Proof.
  apply scoreToRiskLevel_monotone. vm_compute. reflexivity.
Defined.

Lemma AssessRisk_verdicts_sorted_witness :
  exists out,
    scanner.Heuristics (fst (risk.AssessRisk true spec.stable_sort examples.two_triggers
                               (examples.item0, tt))) = Some out
    /\ out ≡ₚ spec.verdicts (Go.elems (risk.heuristics examples.two_triggers))
                (examples.item0, tt)
    /\ length out = length (Go.elems (risk.heuristics examples.two_triggers))
    /\ (forall i j x y, (i < j)%nat -> out !! i = Some x -> out !! j = Some y ->
          Go.fge (scanner.Score x) (scanner.Score y) = true).
Proof.
  apply (AssessRisk_verdicts_sorted true spec.stable_sort examples.two_triggers
           (examples.item0, tt) stable_sort_sorts).
  repeat constructor.
Defined.

(** C5, as the specification has it, fails.  With the thirteen heuristics
    of [examples.thirteen], whatever generator [sort.Slice] draws from,
    the verdicts of equal score do not come back in execution order:
    ["h06"] is moved in front of ["h02"], and ["h01"] to the very end. *)
Lemma AssessRisk_order_not_stable :
  ~ exists fused next,
      spec.stable_order
        (spec.verdicts (Go.elems (risk.heuristics examples.thirteen)) (examples.item0, tt))
        (Go.elems (scanner.Heuristics
           (fst (risk.AssessRisk fused (examples.go_sort_Slice next) examples.thirteen
                   (examples.item0, tt))))).
Proof.
  intros (fused & next & Hstable).
  destruct (Hstable 1%nat 6%nat (examples.verdict "h01" true 0.5 1)
              (examples.verdict "h06" true 0.5 1))
    as (i' & j' & Hlt & Hi & Hj); try reflexivity; [lia|].
  vm_compute in Hi, Hj.
  assert (i' = 12%nat) as ->.
  { do 13 (destruct i' as [|i']; [first [discriminate Hi | reflexivity]|]).
    discriminate Hi. }
  assert (j' = 1%nat) as ->.
  { do 13 (destruct j' as [|j']; [first [discriminate Hj | reflexivity]|]).
    discriminate Hj. }
  lia.
Qed.

(** ** The orchestrator *)

Section OrchestratorProperties.
Import Go scanner spec.
Variable clock : nat -> Time.

Implicit Types (s : Scanner) (ss : list Scanner) (v : shared) (st : pstate).

Lemma append_append {A} (x : slice A) (ys zs : list A) :
  append (append x ys) zs = append x (ys ++ zs).
Proof.
  destruct x as [l|]; destruct ys, zs; simpl; rewrite ?app_nil_r, <- ?app_assoc;
    reflexivity.
Qed.

Lemma elems_append {A} (x : slice A) (ys : list A) :
  elems (append x ys) = elems x ++ ys.
Proof. destruct x as [l|]; destruct ys; simpl; rewrite ?app_nil_r; reflexivity. Qed.

(** The errors the sequential loop records from clock reading [t] on. *)
Fixpoint errors_from (t : nat) (ss : list Scanner) : list ScanError :=
  match ss with
  | [] => []
  | s :: ss' =>
      match snd (Scan s) with
      | Some msg => mkScanError (Type_ s) "" msg (clock t) :: errors_from (S t) ss'
      | None => errors_from t ss'
      end
  end.

Lemma errors_from_keys (t : nat) ss :
  map error_key (errors_from t ss) = failures ss.
Proof.
  revert t. induction ss as [|s ss IH]; intros t; [reflexivity|].
  unfold failures. cbn [errors_from omap list_omap]. unfold failure_of at 1.
  destruct (snd (Scan s)) as [msg|]; simpl.
  - f_equal. apply IH.
  - apply IH.
Qed.

(** The sequential loop, in closed form. *)
Lemma scan_sequential_spec ss v :
  scan_sequential clock ss v =
    mkShared (append (allItems v) (merged_items ss))
             (append (allErrors v) (errors_from (ticks v) ss))
             (ticks v + length (errors_from (ticks v) ss)).
Proof.
  revert v. induction ss as [|s ss IH]; intros v.
  - destruct v as [[?|] [?|] t]; simpl; rewrite ?app_nil_r, ?Nat.add_0_r; reflexivity.
  - unfold scan_sequential in *. cbn [fold_left]. rewrite IH.
    unfold scan_one, record_outcome, merged_items. cbn [map concat errors_from].
    unfold items_of at 2.
    destruct (snd (Scan s)) as [msg|]; cbn [allItems allErrors ticks].
    + rewrite append_append. simpl. f_equal. lia.
    + rewrite append_append. reflexivity.
Qed.

(** *** The parallel branch: invariants of a run *)

(** A goroutine has merged its outcome once it is past the body. *)
Definition committed (g : goroutine) : bool :=
  match g_pc g with AtUnlock | AtDone | Exited => true | _ => false end.

(** It counts in the wait group until [wg.Done()] has run. *)
Definition live (g : goroutine) : bool :=
  match g_pc g with Exited => false | _ => true end.

(** It holds the mutex between [mu.Lock()] and [mu.Unlock()]. *)
Definition critical (g : goroutine) : bool :=
  match g_pc g with AtBody _ | AtUnlock => true | _ => false end.

(** The outcome it carries is the outcome of its probe. *)
Definition carries_outcome (g : goroutine) : Prop :=
  match g_pc g with
  | AtLock out | AtBody out => out = Scan (g_scanner g)
  | _ => True
  end.

(** The steps a goroutine has left. *)
Definition steps_left (g : goroutine) : nat :=
  match g_pc g with
  | AtScan => 5 | AtLock _ => 4 | AtBody _ => 3 | AtUnlock => 2 | AtDone => 1
  | Exited => 0
  end.

Record inv (ss : list Scanner) (v0 : shared) (st : pstate) : Prop := mkInv {
  inv_spawned : map g_scanner (pool st) ++ todo st = ss;
  inv_outcome : Forall carries_outcome (pool st);
  inv_wg : wg st = Z.of_nat (length (List.filter live (pool st)));
  inv_mu : length (List.filter critical (pool st)) = if mu st then 1%nat else 0%nat;
  inv_merged : exists order,
      order ≡ₚ map g_scanner (List.filter committed (pool st))
      /\ sh st = scan_sequential clock order v0
}.

Lemma inv_init ss v0 : inv ss v0 (mkPState ss [] false 0 v0).
Proof.
  split; simpl; auto.
  exists []. split; reflexivity.
Qed.

(** Replacing the goroutine at index [i]. *)
Lemma pool_split (l : list goroutine) (i : nat) (g g' : goroutine) :
  l !! i = Some g ->
  exists pre post, l = pre ++ g :: post /\ <[i := g']> l = pre ++ g' :: post.
Proof.
  intros Hi. exists (take i l), (drop (S i) l). split.
  - symmetry. apply take_drop_middle, Hi.
  - apply insert_take_drop. apply lookup_lt_Some in Hi. exact Hi.
Qed.

Lemma scan_sequential_snoc (order : list Scanner) s v0 :
  scan_sequential clock (order ++ [s]) v0
  = record_outcome clock s (Scan s) (scan_sequential clock order v0).
Proof. unfold scan_sequential. rewrite fold_left_app. reflexivity. Qed.

Lemma step_inv ss v0 (t : thread) st st' :
  inv ss v0 st -> step clock t st = Some st' -> inv ss v0 st'.
Proof.
  intros [Hsp Hout Hwg Hmu (order & Hperm & Hsh)] Hstep.
  destruct t as [|i]; simpl in Hstep.
  - (* the main goroutine starts the next probe *)
    destruct (todo st) as [|s rest] eqn:Htodo; [discriminate|].
    injection Hstep as <-. split; simpl.
    + rewrite map_app, <- app_assoc. exact Hsp.
    + apply Forall_app. split; [exact Hout|]. repeat constructor.
    + rewrite List.filter_app, length_app, Hwg. simpl. lia.
    + rewrite List.filter_app, length_app. simpl. rewrite Nat.add_0_r. exact Hmu.
    + exists order. rewrite List.filter_app, map_app. simpl. rewrite app_nil_r. auto.
  - destruct (pool st !! i) as [g|] eqn:Hg; [|discriminate].
    destruct g as [s p]. unfold set_pc in Hstep. cbn [g_scanner g_pc] in Hstep.
    destruct p as [|out|out| | |];
      try (destruct (mu st) eqn:Hlocked; [discriminate|]);
      try discriminate;
      injection Hstep as <-;
      match goal with
      | |- context [<[i := ?g']> (pool st)] =>
          destruct (pool_split (pool st) i _ g' Hg) as (pre & post & Hpool & ->)
      end;
      rewrite Hpool in Hsp, Hout, Hwg, Hmu, Hperm;
      rewrite ?List.filter_app, ?map_app, ?length_app in *;
      cbn [List.filter map length committed live critical g_pc g_scanner app] in *;
      apply Forall_app in Hout as [Hpre Hpost];
      apply Forall_cons in Hpost as [Hg' Hpost];
      (split; cbn [todo pool mu wg sh];
       [ rewrite map_app; exact Hsp
       | apply Forall_app; split; [exact Hpre|];
         apply Forall_cons; split; [try exact I; try exact Hg'; reflexivity|exact Hpost]
       | rewrite ?List.filter_app, ?length_app;
         cbn [List.filter length live g_pc]; try rewrite Hwg; lia
       | rewrite ?List.filter_app, ?length_app;
         cbn [List.filter length critical g_pc];
         try rewrite Hlocked in Hmu; try destruct (mu st); lia
       | ]).
    + exists order. rewrite List.filter_app, map_app. cbn. auto.
    + exists order. rewrite List.filter_app, map_app. cbn. auto.
    + exists (order ++ [s]). split.
      * rewrite List.filter_app, map_app. cbn [List.filter committed g_pc map g_scanner].
        etransitivity; [symmetry; apply Permutation_cons_append|].
        etransitivity; [apply perm_skip, Hperm|]. apply Permutation_middle.
      * rewrite scan_sequential_snoc, <- Hsh. cbn in Hg'. rewrite Hg'. reflexivity.
    + exists order. rewrite List.filter_app, map_app. cbn. auto.
    + exists order. rewrite List.filter_app, map_app. cbn. auto.
Qed.

Lemma run_inv ss v0 (sched : list thread) st st' :
  inv ss v0 st -> run clock sched st = Some st' -> inv ss v0 st'.
Proof.
  revert st. induction sched as [|t sched IH]; intros st Hinv Hrun; simpl in Hrun.
  - injection Hrun as <-. exact Hinv.
  - destruct (step clock t st) as [st1|] eqn:Hstep; [|discriminate].
    exact (IH st1 (step_inv _ _ _ _ _ Hinv Hstep) Hrun).
Qed.

Lemma none_live_all_committed (l : list goroutine) :
  List.filter live l = [] -> List.filter committed l = l.
Proof.
  induction l as [|[s p] l IH]; [reflexivity|].
  cbn [List.filter live committed g_pc].
  destruct p; try discriminate; intros H; rewrite (IH H); reflexivity.
Qed.

(** Whatever the interleaving, a parallel run that reaches the join has
    merged the outcomes exactly as the sequential loop would for the
    probes taken in the order in which their goroutines got the mutex. *)
Lemma scan_parallel_spec (sched : list thread) ss v0 v :
  scan_parallel clock sched ss v0 = Some v ->
  exists order, order ≡ₚ ss /\ v = scan_sequential clock order v0.
Proof.
  unfold scan_parallel.
  destruct (run clock sched (mkPState ss [] false 0 v0)) as [st|] eqn:Hrun; [|discriminate].
  destruct (joined st) eqn:Hj; [|discriminate]. intros [= <-].
  destruct (run_inv ss v0 sched _ st (inv_init ss v0) Hrun)
    as [Hsp _ Hwg _ (order & Hperm & Hsh)].
  unfold joined in Hj. destruct (todo st) eqn:Htodo; [|discriminate].
  apply Z.eqb_eq in Hj. rewrite Hj in Hwg.
  assert (List.filter live (pool st) = []) as Hnone.
  { destruct (List.filter live (pool st)); [reflexivity|simpl in Hwg; lia]. }
  rewrite (none_live_all_committed _ Hnone), <- (app_nil_r (map _ _)), Hsp in Hperm.
  exists order. auto.
Qed.

(** *** The parallel branch always reaches the join *)

Lemma run_app (s1 s2 : list thread) st :
  run clock (s1 ++ s2) st
  = match run clock s1 st with Some st' => run clock s2 st' | None => None end.
Proof.
  revert st. induction s1 as [|t s1 IH]; intros st; simpl; [reflexivity|].
  destruct (step clock t st); [apply IH|reflexivity].
Qed.

(** The schedule in which the main goroutine starts every probe and the
    goroutines then run to their end one after the other. *)
Definition in_turn (n : nat) : list thread :=
  replicate n Main ++ concat (map (fun i => replicate 5 (Worker i)) (seq 0 n)).

Lemma run_spawn ss (gs : list goroutine) (m : bool) (w : Z) v :
  run clock (replicate (length ss) Main) (mkPState ss gs m w v)
  = Some (mkPState [] (gs ++ map (fun s => mkGoroutine s AtScan) ss) m
            (w + Z.of_nat (length ss)) v).
Proof.
  revert gs w. induction ss as [|s ss IH]; intros gs w.
  - simpl. rewrite app_nil_r, Z.add_0_r. reflexivity.
  - cbn [length replicate run step todo pool mu wg sh]. rewrite IH.
    rewrite <- app_assoc. do 2 f_equal. cbn [map app]. lia.
Qed.

Lemma insert_middle (done rest : list goroutine) (g g' : goroutine) :
  <[length done := g']> (done ++ g :: rest) = done ++ g' :: rest.
Proof.
  rewrite insert_app_r_alt by lia. rewrite Nat.sub_diag. reflexivity.
Qed.

Lemma run_worker (done rest : list goroutine) s (w : Z) v :
  run clock (replicate 5 (Worker (length done)))
    (mkPState [] (done ++ mkGoroutine s AtScan :: rest) false w v)
  = Some (mkPState [] (done ++ mkGoroutine s Exited :: rest) false (w - 1)
            (scan_one clock v s)).
Proof.
  cbn [replicate run].
  repeat (unfold step at 1; cbn [pool todo mu wg sh];
          rewrite list_lookup_middle by reflexivity;
          cbn [g_pc g_scanner]; unfold set_pc; cbn [pool g_scanner];
          rewrite insert_middle).
  reflexivity.
Qed.

Lemma run_workers (rest : list Scanner) (done : list goroutine) (w : Z) v :
  run clock (concat (map (fun i => replicate 5 (Worker i))
                       (seq (length done) (length rest))))
    (mkPState [] (done ++ map (fun s => mkGoroutine s AtScan) rest) false
       (w + Z.of_nat (length rest)) v)
  = Some (mkPState [] (done ++ map (fun s => mkGoroutine s Exited) rest) false w
            (scan_sequential clock rest v)).
Proof.
  revert done v. induction rest as [|s rest IH]; intros done v.
  - simpl. rewrite Z.add_0_r. reflexivity.
  - cbn [length seq map concat]. rewrite run_app, run_worker.
    specialize (IH (done ++ [mkGoroutine s Exited]) (scan_one clock v s)).
    rewrite length_app, Nat.add_1_r, <- !app_assoc in IH. cbn [app] in IH.
    replace (w + Z.of_nat (S (length rest)) - 1) with (w + Z.of_nat (length rest)) by lia.
    rewrite IH. reflexivity.
Qed.

(** Run in turn, the goroutines give exactly the result of the
    sequential loop, timestamps included. *)
Lemma scan_parallel_in_turn ss v0 :
  scan_parallel clock (in_turn (length ss)) ss v0 = Some (scan_sequential clock ss v0).
Proof.
  unfold scan_parallel, in_turn. rewrite run_app, run_spawn.
  pose proof (run_workers ss [] 0 v0) as H. cbn [length] in H.
  rewrite H. reflexivity.
Qed.

(** No deadlock: short of the join, some thread can move. *)
Lemma filter_nonempty_lookup {A} (p : A -> bool) (l : list A) :
  List.filter p l <> [] -> exists i x, l !! i = Some x /\ p x = true.
Proof.
  induction l as [|x l IH]; simpl; [congruence|].
  destruct (p x) eqn:Hp.
  - intros _. exists 0%nat, x. auto.
  - intros H. destruct (IH H) as (i & y & Hi & Hy). exists (S i), y. auto.
Qed.

Lemma progress ss v0 st :
  inv ss v0 st -> joined st = false ->
  exists t st', step clock t st = Some st'.
Proof.
  intros [_ _ Hwg Hmu _] Hj. unfold joined in Hj.
  destruct (todo st) as [|s rest] eqn:Htodo.
  - apply Z.eqb_neq in Hj.
    destruct (mu st) eqn:Hlocked.
    + destruct (filter_nonempty_lookup critical (pool st)) as (i & [s' p] & Hi & Hc).
      { intros H. rewrite H in Hmu. discriminate. }
      exists (Worker i). cbn [step]. rewrite Hi. cbn [g_pc].
      destruct p; try discriminate Hc; eauto.
    + destruct (filter_nonempty_lookup live (pool st)) as (i & [s' p] & Hi & Hl).
      { intros H. rewrite H in Hwg. simpl in Hwg. lia. }
      exists (Worker i). cbn [step]. rewrite Hi, Hlocked. cbn [g_pc].
      destruct p; try discriminate Hl; eauto.
  - exists Main. cbn [step]. rewrite Htodo. eauto.
Qed.

(** Termination: every step uses up one of the steps that are left. *)
Definition measure (st : pstate) : nat :=
  6 * length (todo st) + list_sum (map steps_left (pool st)).

Lemma step_measure (t : thread) st st' :
  step clock t st = Some st' -> (measure st' < measure st)%nat.
Proof.
  unfold measure. destruct t as [|i]; cbn [step]; intros Hstep.
  - destruct (todo st) as [|s rest]; [discriminate|]. injection Hstep as <-.
    cbn [todo pool length]. rewrite map_app, list_sum_app. simpl. lia.
  - destruct (pool st !! i) as [[s p]|] eqn:Hg; [|discriminate].
    unfold set_pc in Hstep. cbn [g_pc g_scanner] in Hstep.
    destruct p; try (destruct (mu st); [discriminate|]); try discriminate;
      injection Hstep as <-; cbn [todo pool];
      match goal with
      | |- context [<[i := ?g']> (pool st)] =>
          destruct (pool_split (pool st) i _ g' Hg) as (pre & post & -> & ->)
      end;
      rewrite !map_app, !list_sum_app; simpl; lia.
Qed.

Lemma run_completes ss v0 st :
  inv ss v0 st ->
  exists sched st', run clock sched st = Some st' /\ joined st' = true.
Proof.
  remember (measure st) as n eqn:Hn. revert st Hn.
  induction n as [n IH] using lt_wf_ind. intros st -> Hinv.
  destruct (joined st) eqn:Hj.
  - exists [], st. auto.
  - destruct (progress ss v0 st Hinv Hj) as (t & st1 & Hstep).
    destruct (IH (measure st1) (step_measure t st st1 Hstep) st1 eq_refl
                 (step_inv ss v0 t st st1 Hinv Hstep)) as (sched & st' & Hrun & Hj').
    exists (t :: sched), st'. simpl. rewrite Hstep. auto.
Qed.

(** However far a parallel run has got, it can be brought to the join,
    and then [scan_parallel] returns. *)
Lemma scan_parallel_completes (sched : list thread) ss v0 st :
  run clock sched (mkPState ss [] false 0 v0) = Some st ->
  exists sched' v, scan_parallel clock (sched ++ sched') ss v0 = Some v.
Proof.
  intros Hrun.
  destruct (run_completes ss v0 st (run_inv ss v0 sched _ st (inv_init ss v0) Hrun))
    as (sched' & st' & Hrun' & Hj).
  exists sched', (sh st'). unfold scan_parallel. rewrite run_app, Hrun, Hrun', Hj.
  reflexivity.
Qed.

End OrchestratorProperties.

(** *** What [RunScan] returns *)

Section RunScanProperties.
Import Go scanner spec.
Variable clock : nat -> Time.

Implicit Types (o : Orchestrator) (ctx : Ctx) (sched : list thread) (r : ScanResult).

Lemma merged_items_perm (l l' : list Scanner) :
  l ≡ₚ l' -> merged_items l ≡ₚ merged_items l'.
Proof.
  unfold merged_items. induction 1 as [|x l l' _ IH|x y l|l l' l'' _ IH1 _ IH2]; simpl.
  - reflexivity.
  - rewrite IH. reflexivity.
  - rewrite !app_assoc. apply Permutation_app_tail, Permutation_app_comm.
  - etransitivity; eassumption.
Qed.

Lemma failures_perm (l l' : list Scanner) :
  l ≡ₚ l' -> failures l ≡ₚ failures l'.
Proof.
  unfold failures. induction 1 as [|x l l' _ IH|x y l|l l' l'' _ IH1 _ IH2];
    cbn [omap list_omap].
  - reflexivity.
  - destruct (failure_of x); [apply perm_skip|]; exact IH.
  - destruct (failure_of x), (failure_of y); try reflexivity. apply perm_swap.
  - etransitivity; eassumption.
Qed.

(** Every result of [RunScan] is the sequential merge of the probes taken
    in some order, which is their own order in sequential mode; the error
    result is nil. *)
Lemma RunScan_spec o ctx sched (t0 : nat) r (err : option string) :
  RunScan clock o ctx sched t0 = Some (r, err) ->
  err = None
  /\ exists order,
       order ≡ₚ elems (scanners o)
       /\ (parallel o = false -> order = elems (scanners o))
       /\ r = finish clock (clock t0)
                (scan_sequential clock order (mkShared None None (S t0))).
Proof.
  unfold RunScan. destruct (parallel o) eqn:Hpar.
  - destruct (scan_parallel clock sched _ _) as [v|] eqn:Hv; [|discriminate].
    intros [= <- <-]. split; [reflexivity|].
    destruct (scan_parallel_spec clock sched _ _ v Hv) as (order & Hperm & ->).
    exists order. repeat split; [exact Hperm|discriminate].
  - intros [= <- <-]. split; [reflexivity|].
    exists (elems (scanners o)). repeat split; reflexivity.
Qed.

(** [RunScan] does return: in sequential mode always, in parallel mode
    for the schedule that runs the goroutines in turn (among others). *)
Lemma RunScan_returns o ctx (t0 : nat) :
  exists sched r, RunScan clock o ctx sched t0 = Some (r, None).
Proof.
  exists (in_turn (length (elems (scanners o)))). unfold RunScan.
  destruct (parallel o).
  - rewrite scan_parallel_in_turn. eauto.
  - eauto.
Qed.

Lemma finish_items (start : Time) (order : list Scanner) (t : nat) :
  elems (Items (finish clock start (scan_sequential clock order (mkShared None None t))))
  = merged_items order.
Proof.
  rewrite scan_sequential_spec. cbn [finish Items allItems]. rewrite elems_append.
  reflexivity.
Qed.

Lemma finish_errors (start : Time) (order : list Scanner) (t : nat) :
  elems (SErrors (finish clock start (scan_sequential clock order (mkShared None None t))))
  = errors_from clock t order.
Proof.
  rewrite scan_sequential_spec. cbn [finish SErrors allErrors ticks]. rewrite elems_append.
  reflexivity.
Qed.

Lemma elem_of_merged_items (q : Scanner) (item : PersistenceItem) (l : list Scanner) :
  q ∈ l -> snd (Scan q) = None -> item ∈ elems (fst (Scan q)) -> item ∈ merged_items l.
Proof.
  intros Hq Hok Hitem. unfold merged_items.
  apply list_elem_of_In, in_concat. exists (items_of q). split.
  - apply in_map, list_elem_of_In, Hq.
  - unfold items_of. rewrite Hok. apply list_elem_of_In, Hitem.
Qed.

(** C1.  [RunScan] returns, and whatever it returns, in sequential and in
    parallel mode alike, has a nil error; every item of every probe that
    succeeded is among the items of the result (which are exactly the
    items of those probes); and the errors of the result record, one
    [ScanError] each, the mechanism kind and error text of the probes
    that failed. *)
Theorem RunScan_fault_isolation o ctx (t0 : nat) :
  (exists sched r, RunScan clock o ctx sched t0 = Some (r, None))
  /\ (forall sched r err,
        RunScan clock o ctx sched t0 = Some (r, err) ->
        err = None
        /\ (forall q item, q ∈ elems (scanners o) -> snd (Scan q) = None ->
              item ∈ elems (fst (Scan q)) -> item ∈ elems (Items r))
        /\ elems (Items r) ≡ₚ merged_items (elems (scanners o))
        /\ map error_key (elems (SErrors r)) ≡ₚ failures (elems (scanners o))).
Proof.
  split; [apply RunScan_returns|].
  intros sched r err Hrun.
  destruct (RunScan_spec o ctx sched t0 r err Hrun) as (-> & order & Hperm & _ & ->).
  rewrite finish_items, finish_errors, errors_from_keys.
  split; [reflexivity|]. split; [|split].
  - intros q item Hq Hok Hitem. rewrite (merged_items_perm _ _ Hperm).
    exact (elem_of_merged_items q item _ Hq Hok Hitem).
  - apply merged_items_perm, Hperm.
  - apply failures_perm, Hperm.
Qed.

(** C2, as the code has it.  For the same probes with the same outcomes,
    a parallel run and a sequential run return the same items as
    multisets, and errors that agree as multisets in everything but the
    timestamp: mechanism kind, path and error text.  The parallel result
    lists the probes' outcomes in some order of the probes, so that each
    probe's items stay together and in the order the probe gave them. *)
Theorem RunScan_modes_agree (ss : slice Scanner) ctx ctx' sched sched'
    (t0 t0' : nat) r r' (err err' : option string) :
  RunScan clock (mkOrchestrator ss true) ctx sched t0 = Some (r, err) ->
  RunScan clock (mkOrchestrator ss false) ctx' sched' t0' = Some (r', err') ->
  elems (Items r) ≡ₚ elems (Items r')
  /\ map error_key (elems (SErrors r)) ≡ₚ map error_key (elems (SErrors r'))
  /\ exists order,
       order ≡ₚ elems ss
       /\ elems (Items r) = concat (map items_of order)
       /\ map error_key (elems (SErrors r)) = failures order.
Proof.
  intros Hpar Hseq.
  destruct (RunScan_spec _ _ _ _ _ _ Hpar) as (_ & order & Hperm & _ & ->).
  destruct (RunScan_spec _ _ _ _ _ _ Hseq) as (_ & order' & _ & Hsame & ->).
  rewrite (Hsame eq_refl). cbn [scanners] in *.
  rewrite !finish_items, !finish_errors, !errors_from_keys.
  split; [apply merged_items_perm, Hperm|].
  split; [apply failures_perm, Hperm|].
  exists order. auto.
Qed.

Lemma tally_fold (items : list PersistenceItem) (m : gmap RiskLevel Z) (level : RiskLevel) :
  fold_left tally items m !! level
  = match length (List.filter (fun item => String.eqb (Level (Risk item)) level) items) with
    | O => m !! level
    | S n => Some (Nat.iter (S n) int_incr (default 0 (m !! level)))
    end.
Proof.
  revert m. induction items as [|item items IH]; intros m; [reflexivity|].
  cbn [fold_left List.filter]. rewrite IH. unfold tally.
  destruct (String.eqb_spec (Level (Risk item)) level) as [<-|Hne].
  - rewrite lookup_insert_eq. cbn [default length].
    destruct (length _) as [|n]; [reflexivity|].
    rewrite (Nat.iter_succ_r (S n)). reflexivity.
  - rewrite lookup_insert_ne by exact Hne. reflexivity.
Qed.

(** C7, as the code has it.  [TotalItems] is the length of the returned
    item list.  [RiskSummary] is not left empty: it maps every risk
    level carried by a returned item to the number of items that carry it
    (an item that has not been assessed carries the empty level), and has
    no other key; it is the empty mapping exactly when no item was
    returned. *)
Theorem RunScan_summary o ctx sched (t0 : nat) r (err : option string) :
  RunScan clock o ctx sched t0 = Some (r, err) ->
  len (Items r) < 2 ^ 63 ->
  TotalItems r = Z.of_nat (length (elems (Items r)))
  /\ (forall level,
        RiskSummary r !! level
        = if count_level level (elems (Items r)) =? 0 then None
          else Some (count_level level (elems (Items r))))
  /\ (RiskSummary r = ∅ <-> elems (Items r) = []).
Proof.
  intros Hrun Hlen.
  destruct (RunScan_spec _ _ _ _ _ _ Hrun) as (_ & order & _ & _ & ->).
  cbn [finish TotalItems RiskSummary Items] in *. unfold len in *.
  set (items := elems (allItems _)) in *.
  assert (forall level,
            fold_left tally items ∅ !! level
            = if count_level level items =? 0 then None
              else Some (count_level level items)) as Hlookup.
  { intros level. rewrite tally_fold, lookup_empty. unfold count_level.
    pose proof (List.filter_length_le
                  (fun item => String.eqb (Level (Risk item)) level) items) as Hle.
    destruct (length (List.filter _ items)) as [|n] eqn:Hn; [reflexivity|].
    cbn [default]. rewrite iter_int_incr by lia.
    destruct (Z.eqb_spec (Z.of_nat (S n)) 0) as [?|_]; [lia|]. f_equal. }
  split; [reflexivity|]. split; [exact Hlookup|]. split.
  - intros Hempty. destruct items as [|item items'] eqn:Hitems; [reflexivity|].
    specialize (Hlookup (Level (Risk item))). rewrite Hempty, lookup_empty in Hlookup.
    unfold count_level in Hlookup. cbn [List.filter] in Hlookup.
    rewrite String.eqb_refl in Hlookup. cbn [length] in Hlookup.
    destruct (Z.eqb_spec (Z.of_nat (S (length (List.filter
                (fun item0 => String.eqb (Level (Risk item0)) (Level (Risk item)))
                items')))) 0) as [?|_]; [lia|discriminate].
  - intros ->. reflexivity.
Qed.

(** C10.  [RunScan] returns, and never with an error: in sequential mode
    for every input, in parallel mode however the goroutines are
    scheduled (a run that has got anywhere can always be brought to the
    join).  The context plays no part in the result.  When every probe
    fails the result has no item (the item slice is nil and [TotalItems]
    is 0) and one [ScanError] for each probe. *)
Theorem RunScan_never_fails o ctx (t0 : nat) :
  (exists sched r, RunScan clock o ctx sched t0 = Some (r, None))
  /\ (parallel o = false ->
      forall sched, exists r, RunScan clock o ctx sched t0 = Some (r, None))
  /\ (parallel o = true ->
      forall sched st,
        run clock sched (mkPState (elems (scanners o)) [] false 0 (mkShared None None (S t0)))
          = Some st ->
        exists sched' r, RunScan clock o ctx (sched ++ sched') t0 = Some (r, None))
  /\ (forall sched r err, RunScan clock o ctx sched t0 = Some (r, err) -> err = None)
  /\ (forall ctx' sched, RunScan clock o ctx' sched t0 = RunScan clock o ctx sched t0)
  /\ (forall sched r err,
        RunScan clock o ctx sched t0 = Some (r, err) ->
        Forall (fun s => snd (Scan s) <> None) (elems (scanners o)) ->
        Items r = None /\ TotalItems r = 0
        /\ length (elems (SErrors r)) = length (elems (scanners o))
        /\ map error_key (elems (SErrors r)) ≡ₚ failures (elems (scanners o))).
Proof.
  split; [apply RunScan_returns|]. split; [|split; [|split; [|split]]].
  - intros Hseq sched. unfold RunScan. rewrite Hseq. eauto.
  - intros Hpar sched st Hrun. unfold RunScan. rewrite Hpar.
    destruct (scan_parallel_completes clock sched _ _ st Hrun) as (sched' & v & Hv).
    exists sched'. rewrite Hv. eauto.
  - intros sched r err Hrun. exact (proj1 (RunScan_spec _ _ _ _ _ _ Hrun)).
  - reflexivity.
  - intros sched r err Hrun Hfail.
    destruct (RunScan_spec _ _ _ _ _ _ Hrun) as (_ & order & Hperm & _ & ->).
    assert (Forall (fun s => snd (Scan s) <> None) order) as Hfail'.
    { rewrite Hperm. exact Hfail. }
    assert (merged_items order = []) as Hnone.
    { clear -Hfail'. unfold merged_items.
      induction Hfail' as [|s l Hs _ IH]; [reflexivity|].
      cbn [map concat]. rewrite IH. unfold items_of.
      destruct (snd (Scan s)); [reflexivity|congruence]. }
    assert (length (failures order) = length order) as Hcount.
    { clear -Hfail'. unfold failures.
      induction Hfail' as [|s l Hs _ IH]; [reflexivity|].
      cbn [omap list_omap]. unfold failure_of at 1.
      destruct (snd (Scan s)); [|congruence]. cbn [length]. rewrite IH. reflexivity. }
    rewrite finish_errors, errors_from_keys.
    rewrite scan_sequential_spec. cbn [finish Items TotalItems allItems].
    rewrite Hnone. cbn [append elems len length]. repeat split.
    + rewrite <- (length_map error_key), errors_from_keys, Hcount.
      apply Permutation_length, Hperm.
    + apply failures_perm, Hperm.
Qed.

End RunScanProperties.

(** ** The orchestrator on concrete inputs *)

Lemma RunScan_fault_isolation_witness :
  exists r,
    scanner.RunScan examples.ticking examples.three_probes examples.background
      examples.interleaved 0 = Some (r, None)
    /\ examples.item2 ∈ Go.elems (scanner.Items r)
    /\ map spec.error_key (Go.elems (scanner.SErrors r))
       ≡ₚ [(scanner.MechanismCronJob, EmptyString, "permission denied"%string)].
Proof.
  destruct (scanner.RunScan examples.ticking examples.three_probes examples.background
              examples.interleaved 0) as [[r err]|] eqn:Hrun;
    [|vm_compute in Hrun; discriminate].
  destruct (proj2 (RunScan_fault_isolation examples.ticking examples.three_probes
                     examples.background 0) examples.interleaved r err Hrun)
    as (-> & Hin & _ & Herr).
  exists r. split; [reflexivity|]. split; [|exact Herr].
  apply (Hin examples.probe_hooks examples.item2); [|reflexivity|].
  - cbn. repeat constructor.
  - cbn. repeat constructor.
Defined.

(** C2, as the specification has it, fails on the timestamps.  Two probes
    fail; in the parallel run the goroutine of the second records its
    error first.  The two results hold the same two failures, but each
    with the timestamp the other has in the sequential run: the error
    lists are not equal as multisets. *)
Lemma RunScan_modes_timestamps_differ :
  exists r r',
    scanner.RunScan examples.ticking (examples.all_failing true) examples.background
      examples.second_first 0 = Some (r, None)
    /\ scanner.RunScan examples.ticking (examples.all_failing false) examples.background
         [] 0 = Some (r', None)
    /\ ~ (Go.elems (scanner.SErrors r) ≡ₚ Go.elems (scanner.SErrors r')).
Proof.
  do 2 eexists. split; [vm_compute; reflexivity|]. split; [vm_compute; reflexivity|].
  cbn [scanner.SErrors Go.elems]. intros Hperm.
  apply (Permutation_in
           (scanner.mkScanError scanner.MechanismConfigProfile EmptyString
              "exit status 1"%string 1)) in Hperm; [|left; reflexivity].
  destruct Hperm as [H|[H|[]]]; discriminate H.
Qed.

Lemma RunScan_modes_agree_witness :
  exists r r',
    scanner.RunScan examples.ticking (examples.all_failing true) examples.background
      examples.second_first 0 = Some (r, None)
    /\ scanner.RunScan examples.ticking (examples.all_failing false) examples.background
         [] 0 = Some (r', None)
    /\ map spec.error_key (Go.elems (scanner.SErrors r))
       ≡ₚ map spec.error_key (Go.elems (scanner.SErrors r')).
Proof.
  destruct (scanner.RunScan examples.ticking (examples.all_failing true)
              examples.background examples.second_first 0) as [[r err]|] eqn:Hpar;
    [|vm_compute in Hpar; discriminate].
  destruct (scanner.RunScan examples.ticking (examples.all_failing false)
              examples.background [] 0) as [[r' err']|] eqn:Hseq;
    [|vm_compute in Hseq; discriminate].
  destruct (RunScan_modes_agree examples.ticking _ _ _ _ _ _ _ _ _ _ _ Hpar Hseq)
    as (_ & Herr & _).
  assert (err = None) as -> by (vm_compute in Hpar; congruence).
  assert (err' = None) as -> by (vm_compute in Hseq; congruence).
  exists r, r'. auto.
Defined.

(** C7, as the specification has it, fails as soon as a probe returns an
    item: the summary counts the item under the level it carries, which
    is the empty level before any assessment. *)
Lemma RunScan_summary_not_empty :
  exists r,
    scanner.RunScan examples.ticking examples.three_probes examples.background
      examples.interleaved 0 = Some (r, None)
    /\ scanner.RiskSummary r !! EmptyString = Some 3
    /\ scanner.RiskSummary r <> ∅.
Proof.
  eexists. split; [vm_compute; reflexivity|].
  assert (forall m : gmap scanner.RiskLevel Z, m !! EmptyString = Some 3 ->
            m !! EmptyString = Some 3 /\ m <> ∅) as H.
  { intros m Hm. split; [exact Hm|]. intros ->. rewrite lookup_empty in Hm. discriminate. }
  apply H. vm_compute. reflexivity.
Qed.

Lemma RunScan_summary_witness :
  exists r,
    scanner.RunScan examples.ticking examples.three_probes examples.background
      examples.interleaved 0 = Some (r, None)
    /\ scanner.TotalItems r = 3
    /\ scanner.RiskSummary r !! EmptyString = Some 3
    /\ scanner.RiskSummary r !! scanner.RiskCritical = None.
Proof.
  destruct (scanner.RunScan examples.ticking examples.three_probes examples.background
              examples.interleaved 0) as [[r err]|] eqn:Hrun;
    [|vm_compute in Hrun; discriminate].
  assert (Go.elems (scanner.Items r)
          = [examples.item2; examples.item0; examples.item1] /\ err = None) as [Hitems ->].
  { vm_compute in Hrun. injection Hrun as <- <-. split; reflexivity. }
  destruct (RunScan_summary examples.ticking _ _ _ _ r None Hrun)
    as (Htotal & Hsummary & _).
  { unfold Go.len. rewrite Hitems. vm_compute. reflexivity. }
  exists r. split; [reflexivity|]. split; [|split].
  - rewrite Htotal, Hitems. reflexivity.
  - rewrite Hsummary, Hitems. reflexivity.
  - rewrite Hsummary, Hitems. reflexivity.
Defined.

Lemma RunScan_never_fails_witness :
  exists r,
    scanner.RunScan examples.ticking (examples.all_failing true) examples.cancelled
      examples.second_first 0 = Some (r, None)
    /\ scanner.Items r = None /\ scanner.TotalItems r = 0
    /\ length (Go.elems (scanner.SErrors r)) = 2%nat.
Proof.
  destruct (scanner.RunScan examples.ticking (examples.all_failing true)
              examples.cancelled examples.second_first 0) as [[r err]|] eqn:Hrun;
    [|vm_compute in Hrun; discriminate].
  destruct (RunScan_never_fails examples.ticking (examples.all_failing true)
              examples.cancelled 0) as (_ & _ & _ & Hnil & _ & Hall).
  rewrite (Hnil _ _ _ Hrun) in *.
  destruct (Hall _ _ _ Hrun) as (Hitems & Htotal & Hcount & _).
  { repeat constructor; discriminate. }
  exists r. auto.
Defined.

(** * Further properties of the two packages *)

(** ** The engine: reasons, confidence, and scores that are not numbers *)

Lemma eqb_leb (x y : float) : PrimFloat.eqb x y = true -> PrimFloat.leb x y = true.
Proof.
  rewrite FloatAxioms.eqb_spec, FloatAxioms.leb_spec. unfold SFeqb, SFleb.
  destruct (SFcompare (Prim2SF x) (Prim2SF y)) as [[]|]; congruence.
Qed.

Lemma ltb_leb (x y : float) : PrimFloat.ltb x y = true -> PrimFloat.leb x y = true.
Proof.
  rewrite FloatAxioms.ltb_spec, FloatAxioms.leb_spec. unfold SFltb, SFleb.
  destruct (SFcompare (Prim2SF x) (Prim2SF y)) as [[]|]; congruence.
Qed.

(** [math.Min(x, 1.0)] is NaN or at most 1.0. *)
Lemma math_Min_one (x : float) :
  PrimFloat.is_nan (Go.math_Min x 1%float) = true
  \/ PrimFloat.leb (Go.math_Min x 1%float) 1%float = true.
Proof.
  unfold Go.math_Min.
  destruct (Go.is_neg_inf x || Go.is_neg_inf 1%float); [right; reflexivity|].
  destruct (PrimFloat.is_nan x || PrimFloat.is_nan 1%float); [left; reflexivity|].
  destruct (PrimFloat.eqb x 0%float && PrimFloat.eqb x 1%float) eqn:Hz.
  - apply andb_true_iff in Hz as [_ H1].
    destruct (PrimFloat.get_sign x); right; [apply eqb_leb, H1|reflexivity].
  - destruct (PrimFloat.ltb x 1%float) eqn:Hlt; right; [apply ltb_leb, Hlt|reflexivity].
Qed.

(** A score that is not a number falls through every threshold. *)
Lemma scoreToRiskLevel_nan (s : float) :
  PrimFloat.is_nan s = true -> risk.scoreToRiskLevel s = scanner.RiskInfo.
Proof.
  intros Hs. apply Float64.is_nan_spec in Hs.
  assert (forall c, Go.fge s c = false) as Hc.
  { intros c. unfold Go.fge. rewrite FloatAxioms.leb_spec, Hs. unfold SFleb.
    destruct (Prim2SF c); reflexivity. }
  unfold risk.scoreToRiskLevel. rewrite !Hc. reflexivity.
Qed.

Section MoreEngineProperties.
Import Go scanner risk spec Float64.
Context {World : Type}.
Variable fused : bool.
Variable sort_Slice : forall A : Type, (A -> A -> bool) -> list A -> list A.

Implicit Types (e : Engine World) (st : PersistenceItem * World).

(** The reasons of an assessment are the explanations of the triggered
    verdicts in the order in which the heuristics ran, one per triggered
    verdict: sorting the verdict list does not reorder them. *)
Theorem AssessRisk_reasons_in_execution_order e st :
  Reasons (fst (AssessRisk fused sort_Slice e st))
  = Some (map Details (triggered (verdicts (elems (heuristics e)) st)))
  /\ length (elems (Reasons (fst (AssessRisk fused sort_Slice e st))))
     = length (triggered (verdicts (elems (heuristics e)) st)).
Proof.
  rewrite AssessRisk_spec. cbv zeta. cbn [fst Reasons elems].
  split; [reflexivity|]. apply length_map.
Qed.

(** The confidence of an assessment is never above 1.0: it is at most
    1.0, or it is NaN. *)
Theorem AssessRisk_confidence_capped e st :
  PrimFloat.is_nan (RConfidence (fst (AssessRisk fused sort_Slice e st))) = true
  \/ PrimFloat.leb (RConfidence (fst (AssessRisk fused sort_Slice e st))) 1%float = true.
Proof.
  rewrite AssessRisk_spec. cbv zeta. cbn [fst RConfidence].
  destruct (_ >? 0); [apply math_Min_one|right; reflexivity].
Qed.

(** When the score is not a number the tier is Info.  This is the tier of
    an item whose triggered heuristics all report confidence 0, however
    high their scores. *)
Theorem AssessRisk_nan_is_Info e st :
  (PrimFloat.is_nan (RScore (fst (AssessRisk fused sort_Slice e st))) = true ->
   Level (fst (AssessRisk fused sort_Slice e st)) = RiskInfo)
  /\ (let vs := verdicts (elems (heuristics e)) st in
      (0 < length (triggered vs))%nat ->
      Z.of_nat (length (triggered vs)) < 2 ^ 63 ->
      Forall (fun v => in_unit (Score v) = true
                       /\ PrimFloat.eqb (Confidence v) 0%float = true) (triggered vs) ->
      Level (fst (AssessRisk fused sort_Slice e st)) = RiskInfo).
Proof.
  rewrite AssessRisk_spec. cbv zeta. cbn [fst RScore Level]. split.
  - apply scoreToRiskLevel_nan.
  - intros Hpos Hn Hz.
    rewrite (triggered_count _ Hn).
    destruct (Z.gtb_spec (Z.of_nat (length (triggered
                (verdicts (elems (heuristics e)) st)))) 0) as [_|?]; [|lia].
    assert (score_sum fused (verdicts (elems (heuristics e)) st) = 0%float) as ->
        by (apply score_sum_zeros, Hz).
    assert (fsum (confidences (verdicts (elems (heuristics e)) st)) = 0%float) as ->.
    { apply fsum_zeros. unfold confidences. apply List.Forall_map.
      eapply List.Forall_impl; [|exact Hz]. intros v [Hs Hc]. simpl.
      apply eqb_zero_spec, Hc. }
    reflexivity.
Qed.

End MoreEngineProperties.

Lemma AssessRisk_nan_is_Info_witness :
  scanner.Level (fst (risk.AssessRisk true spec.stable_sort examples.no_confidence
                        (examples.item0, tt))) = scanner.RiskInfo.
Proof.
  apply (proj1 (AssessRisk_nan_is_Info true spec.stable_sort examples.no_confidence
                  (examples.item0, tt))).
  vm_compute. reflexivity.
Defined.

(** ** The orchestrator: the mutex, the number of steps, the timestamps *)

Lemma filter_at_most_one {A} (p : A -> bool) (l : list A) (i j : nat) (x y : A) :
  (length (List.filter p l) <= 1)%nat ->
  l !! i = Some x -> l !! j = Some y -> p x = true -> p y = true -> i = j.
Proof.
  revert i j. induction l as [|z l IH]; intros i j Hlen Hi Hj Hx Hy.
  - rewrite lookup_nil in Hi. discriminate.
  - cbn [List.filter] in Hlen.
    assert (forall k w, l !! k = Some w -> p w = true ->
              (1 <= length (List.filter p l))%nat) as Hsome.
    { clear. intros k w Hk Hw.
      assert (In w (List.filter p l)) as Hin.
      { apply filter_In. split; [|exact Hw].
        apply list_elem_of_In, list_elem_of_lookup. eauto. }
      destruct (List.filter p l); [destruct Hin|simpl; lia]. }
    destruct i as [|i], j as [|j]; cbn in Hi, Hj.
    + reflexivity.
    + injection Hi as ->. rewrite Hx in Hlen. cbn [length] in Hlen.
      pose proof (Hsome j y Hj Hy). lia.
    + injection Hj as ->. rewrite Hy in Hlen. cbn [length] in Hlen.
      pose proof (Hsome i x Hi Hx). lia.
    + f_equal. apply IH; try assumption.
      destruct (p z); cbn [length] in Hlen; lia.
Qed.

Section MoreOrchestratorProperties.
Import Go scanner spec.
Variable clock : nat -> Time.

Implicit Types (ss : list Scanner) (v : shared) (st : pstate) (sched : list thread).

(** In every state a parallel run can reach, at most one goroutine is
    between [mu.Lock()] and [mu.Unlock()], and the mutex is held exactly
    when there is one. *)
Theorem parallel_mutual_exclusion sched ss v st :
  run clock sched (mkPState ss [] false 0 v) = Some st ->
  (forall i j gi gj,
     pool st !! i = Some gi -> pool st !! j = Some gj ->
     critical gi = true -> critical gj = true -> i = j)
  /\ (mu st = true <-> exists i g, pool st !! i = Some g /\ critical g = true).
Proof.
  intros Hrun.
  destruct (run_inv clock ss v sched _ st (inv_init clock ss v) Hrun) as [_ _ _ Hmu _].
  split.
  - intros i j gi gj Hi Hj Hci Hcj.
    apply (filter_at_most_one critical (pool st) i j gi gj); try assumption.
    rewrite Hmu. destruct (mu st); lia.
  - split.
    + intros Hlocked. rewrite Hlocked in Hmu.
      apply (filter_nonempty_lookup critical). intros H. rewrite H in Hmu. discriminate.
    + intros (i & g & Hi & Hc). destruct (mu st); [reflexivity|].
      assert (In g (List.filter critical (pool st))) as Hin.
      { apply filter_In. split; [|exact Hc].
        apply list_elem_of_In, list_elem_of_lookup. eauto. }
      destruct (List.filter critical (pool st)); [destruct Hin|discriminate].
Qed.

Lemma step_measure_exact (t : thread) st st' :
  step clock t st = Some st' -> measure st = S (measure st').
Proof.
  unfold measure. destruct t as [|i]; cbn [step]; intros Hstep.
  - destruct (todo st) as [|s rest]; [discriminate|]. injection Hstep as <-.
    cbn [todo pool length]. rewrite map_app, list_sum_app. simpl. lia.
  - destruct (pool st !! i) as [[s p]|] eqn:Hg; [|discriminate].
    unfold set_pc in Hstep. cbn [g_pc g_scanner] in Hstep.
    destruct p; try (destruct (mu st); [discriminate|]); try discriminate;
      injection Hstep as <-; cbn [todo pool];
      match goal with
      | |- context [<[i := ?g']> (pool st)] =>
          destruct (pool_split (pool st) i _ g' Hg) as (pre & post & -> & ->)
      end;
      rewrite !map_app, !list_sum_app; simpl; lia.
Qed.

Lemma run_measure sched st st' :
  run clock sched st = Some st' -> measure st = (length sched + measure st')%nat.
Proof.
  revert st. induction sched as [|t sched IH]; intros st Hrun; cbn in Hrun.
  - injection Hrun as <-. reflexivity.
  - destruct (step clock t st) as [st1|] eqn:Hstep; [|discriminate].
    rewrite (step_measure_exact t st st1 Hstep), (IH st1 Hrun). simpl. lia.
Qed.

Lemma none_live_no_steps (l : list goroutine) :
  List.filter live l = [] -> list_sum (map steps_left l) = 0%nat.
Proof.
  induction l as [|[s p] l IH]; simpl; [reflexivity|].
  destruct p; simpl; try discriminate. exact IH.
Qed.

(** A parallel run that reaches the join has taken six steps for each
    probe, no more and no fewer: the start of its goroutine and the five
    steps of the goroutine.  No goroutine is left behind at the join, and
    none runs twice. *)
Theorem parallel_run_length sched ss v v' :
  scan_parallel clock sched ss v = Some v' ->
  length sched = (6 * length ss)%nat.
Proof.
  unfold scan_parallel.
  destruct (run clock sched (mkPState ss [] false 0 v)) as [st|] eqn:Hrun; [|discriminate].
  destruct (joined st) eqn:Hj; [|discriminate]. intros _.
  pose proof (run_measure sched _ st Hrun) as Hm.
  destruct (run_inv clock ss v sched _ st (inv_init clock ss v) Hrun) as [_ _ Hwg _ _].
  unfold joined in Hj. destruct (todo st) eqn:Htodo; [|discriminate].
  apply Z.eqb_eq in Hj. rewrite Hj in Hwg.
  assert (List.filter live (pool st) = []) as Hnone.
  { destruct (List.filter live (pool st)); [reflexivity|simpl in Hwg; lia]. }
  unfold measure in Hm. cbn [todo pool map list_sum length] in Hm.
  rewrite Htodo, (none_live_no_steps _ Hnone) in Hm. simpl in Hm. lia.
Qed.

Lemma errors_from_timestamps (t : nat) ss :
  map ETimestamp (errors_from clock t ss)
  = map clock (seq t (length (errors_from clock t ss))).
Proof.
  revert t. induction ss as [|s ss IH]; intros t; [reflexivity|].
  cbn [errors_from]. destruct (snd (Scan s)).
  - cbn [map length seq ETimestamp]. rewrite IH. reflexivity.
  - apply IH.
Qed.

(** With a clock that does not go back, the times in a result are in
    order: the start, then the timestamps of the errors in the order of
    the error list, then the end; the duration is not negative. *)
Theorem RunScan_timestamps_ordered (o : Orchestrator) (ctx : Ctx) sched (t0 : nat)
    (r : ScanResult) (err : option string) :
  (forall a b : nat, (a <= b)%nat -> clock a <= clock b) ->
  RunScan clock o ctx sched t0 = Some (r, err) ->
  StartTime r <= EndTime r
  /\ Forall (fun e => StartTime r <= ETimestamp e <= EndTime r) (elems (SErrors r))
  /\ Sorted Z.le (map ETimestamp (elems (SErrors r)))
  /\ 0 <= SDuration r.
Proof.
  intros Hmono Hrun.
  destruct (RunScan_spec clock _ _ _ _ _ _ Hrun) as (_ & order & _ & _ & ->).
  rewrite finish_errors. rewrite scan_sequential_spec.
  cbn [finish StartTime EndTime SDuration ticks allErrors allItems].
  set (n := length (errors_from clock (S t0) order)).
  assert (clock t0 <= clock (S t0 + n)) as Hend by (apply Hmono; lia).
  split; [exact Hend|]. split; [|split].
  - apply List.Forall_forall. intros e He.
    apply (in_map ETimestamp) in He. rewrite errors_from_timestamps in He.
    apply in_map_iff in He as (k & Hk & Hin). apply in_seq in Hin. fold n in Hin.
    rewrite <- Hk. split; apply Hmono; lia.
  - rewrite errors_from_timestamps. fold n. generalize (S t0). clear -Hmono.
    induction n as [|n IH]; intros t; cbn [seq map]; [constructor|].
    constructor; [apply IH|].
    destruct n; cbn [seq map]; constructor. apply Hmono. lia.
  - unfold Time_Sub, int_min, int_max. lia.
Qed.

End MoreOrchestratorProperties.

Lemma parallel_mutual_exclusion_witness :
  exists st,
    scanner.run examples.ticking
      [scanner.Main; scanner.Main; scanner.Worker 0; scanner.Worker 1; scanner.Worker 1]
      (scanner.mkPState [examples.probe_agents; examples.probe_cron] [] false 0
         (scanner.mkShared None None 1)) = Some st
    /\ scanner.mu st = true
    /\ scanner.step examples.ticking (scanner.Worker 0) st = None.
Proof.
  eexists. split; [vm_compute; reflexivity|].
  split; [|vm_compute; reflexivity].
  apply (parallel_mutual_exclusion examples.ticking
           [scanner.Main; scanner.Main; scanner.Worker 0; scanner.Worker 1; scanner.Worker 1]
           [examples.probe_agents; examples.probe_cron] (scanner.mkShared None None 1)).
  - vm_compute. reflexivity.
  - exists 1%nat. eexists. split; [vm_compute; reflexivity|reflexivity].
Defined.

Lemma parallel_run_length_witness : length examples.interleaved = 18%nat.
Proof.
  apply (parallel_run_length examples.ticking examples.interleaved
           [examples.probe_agents; examples.probe_cron; examples.probe_hooks]
           (scanner.mkShared None None 1)
           (scanner.scan_sequential examples.ticking
              [examples.probe_cron; examples.probe_hooks; examples.probe_agents]
              (scanner.mkShared None None 1))).
  vm_compute. reflexivity.
Defined.

Lemma RunScan_timestamps_ordered_witness :
  exists r,
    scanner.RunScan examples.ticking (examples.all_failing true) examples.background
      examples.second_first 0 = Some (r, None)
    /\ scanner.StartTime r <= scanner.EndTime r
    /\ Sorted Z.le (map scanner.ETimestamp (Go.elems (scanner.SErrors r))).
Proof.
  destruct (scanner.RunScan examples.ticking (examples.all_failing true)
              examples.background examples.second_first 0) as [[r err]|] eqn:Hrun;
    [|vm_compute in Hrun; discriminate].
  assert (err = None) as -> by (vm_compute in Hrun; congruence).
  destruct (RunScan_timestamps_ordered examples.ticking _ _ _ _ r None
              (fun a b H => proj1 (Nat2Z.inj_le a b) H) Hrun) as (H1 & _ & H3 & _).
  exists r. auto.
Defined.

(** ** The engine with at most twelve heuristics: ties stay in order *)

Lemma StronglySorted_app_iff {B} (R : B -> B -> Prop) (l1 l2 : list B) :
  StronglySorted R (l1 ++ l2) <->
  (forall a b, a ∈ l1 -> b ∈ l2 -> R a b) /\ StronglySorted R l1 /\ StronglySorted R l2.
Proof.
  induction l1 as [|x l1 IH]; cbn [app].
  - split; [intros H; repeat split; [|constructor|exact H]|intros (_ & _ & H); exact H].
    intros a b Ha. apply elem_of_nil in Ha. destruct Ha.
  - split.
    + intros H. apply StronglySorted_inv in H as [Hs Hx].
      apply IH in Hs as (Hab & Hs1 & Hs2). rewrite List.Forall_forall in Hx.
      split; [|split; [constructor; [exact Hs1|]|exact Hs2]].
      * intros a b Ha Hb. apply elem_of_cons in Ha as [->|Ha]; [|auto].
        apply Hx, list_elem_of_In, elem_of_app. auto.
      * apply List.Forall_forall. intros a Ha. apply Hx, in_or_app. auto.
    + intros (Hab & Hs1 & Hs2). apply StronglySorted_inv in Hs1 as [Hs1 Hx].
      constructor.
      * apply IH. split; [|split; assumption].
        intros a b Ha Hb. apply Hab; [apply elem_of_cons; auto|exact Hb].
      * apply List.Forall_forall. intros a Ha. apply in_app_or in Ha as [Ha|Ha].
        -- rewrite List.Forall_forall in Hx. auto.
        -- apply Hab; [apply elem_of_cons; auto|apply list_elem_of_In, Ha].
Qed.

Section InsertionSortFacts.
Import spec.
Context {A : Type} (less : A -> A -> bool).

(** [x] has an occurrence in [l] before an occurrence of [y]. *)
Definition before (x y : A) (l : list A) : Prop :=
  exists i j, (i < j)%nat /\ l !! i = Some x /\ l !! j = Some y.

(** Where an element sinks to: past the elements it is [less] than, in
    front of the first one it is not. *)
Lemma sink_insert (x : A) (rp : list A) :
  exists oa ob,
    rev rp = oa ++ ob /\ rev (sink less x rp) = oa ++ x :: ob
    /\ Forall (fun w => less x w = true) ob
    /\ (forall oa' w, oa = oa' ++ [w] -> less x w = false).
Proof.
  induction rp as [|y rp IH]; cbn [sink rev].
  - exists [], []. repeat split; try constructor.
    intros oa' w H. destruct oa'; discriminate H.
  - destruct (less x y) eqn:Hxy.
    + destruct IH as (oa & ob & H1 & H2 & H3 & H4).
      exists oa, (ob ++ [y]). cbn [rev]. rewrite H1, H2, <- !app_assoc.
      repeat split; [|exact H4].
      apply Forall_app. split; [exact H3|]. repeat constructor. exact Hxy.
    + exists (rev rp ++ [y]), []. cbn [rev]. rewrite app_nil_r.
      repeat split; [constructor|].
      intros oa' w H. apply app_inj_tail in H as [_ <-]. exact Hxy.
Qed.

Lemma sink_all_snoc (l rp : list A) (z : A) :
  sink_all less (l ++ [z]) rp = sink less z (sink_all less l rp).
Proof. unfold sink_all. rewrite fold_left_app. reflexivity. Qed.

Lemma sink_all_insert (l : list A) (z : A) :
  exists oa ob,
    rev (sink_all less l []) = oa ++ ob
    /\ rev (sink_all less (l ++ [z]) []) = oa ++ z :: ob
    /\ Forall (fun w => less z w = true) ob
    /\ (forall oa' w, oa = oa' ++ [w] -> less z w = false).
Proof. rewrite sink_all_snoc. apply sink_insert. Qed.

Lemma sink_all_perm (l : list A) : rev (sink_all less l []) ≡ₚ l.
Proof.
  induction l as [|z l IH] using rev_ind; [reflexivity|].
  destruct (sink_all_insert l z) as (oa & ob & H1 & H2 & _).
  rewrite H2. rewrite <- Permutation_middle, <- H1, IH.
  apply Permutation_cons_append.
Qed.

Lemma lookup_insert_middle (oa ob : list A) (z : A) (k : nat) :
  (oa ++ z :: ob) !! (if (k <? length oa)%nat then k else S k) = (oa ++ ob) !! k.
Proof.
  destruct (Nat.ltb_spec k (length oa)) as [Hk|Hk].
  - rewrite !lookup_app_l by exact Hk. reflexivity.
  - rewrite !lookup_app_r by lia.
    replace (S k - length oa)%nat with (S (k - length oa)) by lia. reflexivity.
Qed.

Lemma before_insert (x y z : A) (oa ob : list A) :
  before x y (oa ++ ob) -> before x y (oa ++ z :: ob).
Proof.
  intros (i & j & Hij & Hi & Hj).
  exists (if (i <? length oa)%nat then i else S i), (if (j <? length oa)%nat then j else S j).
  rewrite !lookup_insert_middle. split; [|split; assumption].
  destruct (Nat.ltb_spec i (length oa)), (Nat.ltb_spec j (length oa)); lia.
Qed.

(** The insertion sort is stable, whatever [less] is: an element is
    moved in front of an earlier one only if it is [less] than it. *)
Lemma sink_all_stable (l : list A) (x y : A) :
  before x y l -> less y x = false -> before x y (rev (sink_all less l [])).
Proof.
  induction l as [|z l IH] using rev_ind; intros (i & j & Hij & Hi & Hj) Hyx.
  - rewrite lookup_nil in Hi. discriminate.
  - destruct (sink_all_insert l z) as (oa & ob & H1 & H2 & Hob & _).
    rewrite H2.
    destruct (Nat.ltb_spec j (length l)) as [Hjl|Hjl].
    + apply before_insert. rewrite <- H1. apply IH; [|exact Hyx].
      exists i, j. rewrite lookup_app_l in Hi by lia.
      rewrite lookup_app_l in Hj by lia. auto.
    + assert (j = length l) as ->.
      { apply lookup_lt_Some in Hj. rewrite length_app in Hj. simpl in Hj. lia. }
      rewrite list_lookup_middle in Hj by reflexivity. injection Hj as ->.
      rewrite lookup_app_l in Hi by lia.
      assert (x ∈ oa ++ ob) as Hx.
      { rewrite <- H1, sink_all_perm. apply list_elem_of_lookup. eauto. }
      apply elem_of_app in Hx as [Hx|Hx].
      * apply list_elem_of_lookup in Hx as [i' Hi'].
        exists i', (length oa). split; [apply lookup_lt_Some in Hi'; exact Hi'|].
        split; [apply lookup_app_l_Some, Hi'|].
        apply list_lookup_middle. reflexivity.
      * rewrite List.Forall_forall in Hob.
        apply list_elem_of_In, Hob in Hx. congruence.
Qed.

Lemma sink_all_sorted (l : list A) :
  transitive_ordering less l ->
  StronglySorted (fun a b => less b a = false) (rev (sink_all less l [])).
Proof.
  induction l as [|z l IH] using rev_ind; intros Hord; [constructor|].
  destruct (sink_all_insert l z) as (oa & ob & H1 & H2 & Hob & Hoa).
  rewrite H2.
  assert (StronglySorted (fun a b => less b a = false) (oa ++ ob)) as Hs.
  { rewrite <- H1. apply IH. apply (transitive_ordering_incl less (l ++ [z])); [|exact Hord].
    intros a Ha. apply elem_of_app. auto. }
  assert (forall a, a ∈ oa ++ ob -> a ∈ l ++ [z]) as Hin.
  { intros a Ha. rewrite <- H1, sink_all_perm in Ha. apply elem_of_app. auto. }
  assert (z ∈ l ++ [z]) as Hz by (apply elem_of_app; right; apply list_elem_of_singleton; reflexivity).
  destruct Hord as (Hirr & Htr & Hntr).
  apply StronglySorted_app_iff in Hs as (Hab & Hsa & Hsb).
  apply StronglySorted_app_iff. split; [|split; [exact Hsa|]].
  - intros a b Ha Hb. apply elem_of_cons in Hb as [->|Hb]; [|apply Hab; assumption].
    destruct (list_elem_of_split _ _ Ha) as (o1 & o2 & Ho).
    destruct o2 as [|w o2 _] using rev_ind.
    + apply (Hoa o1 a Ho).
    + assert (less z w = false) as Hzw.
      { apply (Hoa (o1 ++ a :: o2) w). rewrite Ho, <- app_assoc. reflexivity. }
      assert (less w a = false) as Hwa.
      { rewrite Ho in Hsa. apply StronglySorted_app_iff in Hsa as (_ & _ & Hsa).
        apply StronglySorted_inv in Hsa as [_ Hsa].
        rewrite List.Forall_forall in Hsa. apply Hsa, list_elem_of_In.
        apply elem_of_app. right. apply list_elem_of_singleton. reflexivity. }
      assert (w ∈ oa) as Hw.
      { rewrite Ho. apply elem_of_app. right. apply elem_of_cons. right.
        apply elem_of_app. right. apply list_elem_of_singleton. reflexivity. }
      apply (Hntr z w a); auto.
      * apply Hin, elem_of_app. auto.
      * apply Hin, elem_of_app. auto.
  - constructor; [exact Hsb|].
    rewrite List.Forall_forall in Hob |- *. intros b Hb.
    pose proof (Hob b Hb) as Hzb.
    assert (b ∈ l ++ [z]) as Hb'.
    { apply Hin, elem_of_app. right. apply list_elem_of_In, Hb. }
    destruct (less b z) eqn:Hbz; [|reflexivity].
    rewrite <- (Hirr z Hz). symmetry. exact (Htr z b z Hz Hb' Hz Hzb Hbz).
Qed.

End InsertionSortFacts.

Lemma eqb_not_ltb (x y : float) : PrimFloat.eqb x y = true -> PrimFloat.ltb x y = false.
Proof.
  rewrite FloatAxioms.eqb_spec, FloatAxioms.ltb_spec. unfold SFeqb, SFltb.
  destruct (SFcompare (Prim2SF x) (Prim2SF y)) as [[]|]; congruence.
Qed.

Section ShortEngineProperties.
Import Go scanner risk spec Float64.
Context {World : Type}.
Variable fused : bool.

Implicit Types (e : Engine World) (st : PersistenceItem * World).

(** With at most twelve heuristics (the tool registers four), Go's
    [sort.Slice] sorts the verdicts with the insertion sort of the
    library, whatever its generator.  The verdict list of the assessment
    is then a rearrangement of the verdicts in which verdicts of equal
    score keep the order in which their heuristics ran, and it is sorted
    by score, highest first, when the scores are numbers. *)
Theorem AssessRisk_stable_up_to_twelve (next : Z -> Z) e st :
  let vs := verdicts (elems (heuristics e)) st in
  (length (elems (heuristics e)) <= 12)%nat ->
  exists out,
    Heuristics (fst (AssessRisk fused (examples.go_sort_Slice next) e st)) = Some out
    /\ out ≡ₚ vs
    /\ stable_order vs out
    /\ (Forall (fun v => PrimFloat.is_nan (Score v) = false) vs ->
        forall i j x y, (i < j)%nat -> out !! i = Some x -> out !! j = Some y ->
          fge (Score x) (Score y) = true).
Proof.
  intros vs Hlen. rewrite AssessRisk_spec. fold vs. cbv zeta. cbn [fst Heuristics].
  unfold examples.go_sort_Slice.
  rewrite Slice_short by (unfold vs; rewrite verdicts_length; exact Hlen).
  rewrite insertionSort_sink.
  eexists. split; [reflexivity|]. split; [apply sink_all_perm|]. split.
  - intros i j x y Hij Hx Hy Heq.
    apply (sink_all_stable by_score_desc vs x y); [exists i, j; auto|].
    unfold by_score_desc, fgt. apply eqb_not_ltb, Heq.
  - intros Hnum i j x y Hij Hx Hy.
    pose proof (StronglySorted_sorted_by _ _
                  (sink_all_sorted by_score_desc vs (by_score_desc_ordering vs Hnum))
                  i j x y Hij Hx Hy) as Hless.
    unfold by_score_desc, fgt in Hless. unfold fge.
    rewrite List.Forall_forall in Hnum.
    apply not_ltb_leb; [| |exact Hless].
    + apply Hnum, list_elem_of_In. rewrite <- (sink_all_perm by_score_desc vs).
      apply list_elem_of_lookup. eauto.
    + apply Hnum, list_elem_of_In. rewrite <- (sink_all_perm by_score_desc vs).
      apply list_elem_of_lookup. eauto.
Qed.

End ShortEngineProperties.

Lemma AssessRisk_stable_up_to_twelve_witness :
  exists out,
    scanner.Heuristics
      (fst (risk.AssessRisk true (examples.go_sort_Slice (fun x => x)) samples.tied
              (examples.item0, tt))) = Some out
    /\ spec.stable_order
         (spec.verdicts (Go.elems (risk.heuristics samples.tied))
            (examples.item0, tt)) out.
Proof.
  destruct (AssessRisk_stable_up_to_twelve true (fun x => x) samples.tied
              (examples.item0, tt)) as (out & H1 & _ & H3 & _).
  - vm_compute. lia.
  - exists out. auto.
Defined.

(** ** The parallel branch: every order of the probes can occur *)

Lemma Forall2_seq_lookup {B} (P : nat -> B -> Prop) (l : list B) (a : nat) :
  (forall i x, l !! i = Some x -> P (a + i)%nat x) -> Forall2 P (seq a (length l)) l.
Proof.
  revert a. induction l as [|x l IH]; intros a H; cbn [length seq]; constructor.
  - specialize (H 0%nat x eq_refl). rewrite Nat.add_0_r in H. exact H.
  - apply IH. intros i y Hi. specialize (H (S i) y Hi).
    rewrite Nat.add_succ_r in H. exact H.
Qed.

Section EveryOrder.
Import Go scanner spec.
Variable clock : nat -> Time.

Implicit Types (ss order : list Scanner) (gs : list goroutine) (v : shared).

(** The schedule in which the main goroutine starts the [n] probes and
    the goroutines then run to their end one after the other, in the
    order [idxs] of their indices. *)
Definition in_order (n : nat) (idxs : list nat) : list thread :=
  replicate n Main ++ concat (map (fun i => replicate 5 (Worker i)) idxs).

Lemma run_worker_at gs (i : nat) (s : Scanner) (w : Z) v :
  gs !! i = Some (mkGoroutine s AtScan) ->
  run clock (replicate 5 (Worker i)) (mkPState [] gs false w v)
  = Some (mkPState [] (<[i := mkGoroutine s Exited]> gs) false (w - 1)
            (scan_one clock v s)).
Proof.
  intros Hi. pose proof (lookup_lt_Some _ _ _ Hi) as Hlt.
  pose proof (run_worker clock (take i gs) (drop (S i) gs) s w v) as H.
  rewrite length_take_le in H by lia.
  rewrite (take_drop_middle gs i _ Hi) in H. rewrite H.
  rewrite (insert_take_drop gs i) by exact Hlt. reflexivity.
Qed.

Lemma waiting_insert_ne gs (i : nat) (g : goroutine) (idxs : list nat) order :
  i ∉ idxs ->
  Forall2 (fun j s => gs !! j = Some (mkGoroutine s AtScan)) idxs order ->
  Forall2 (fun j s => <[i := g]> gs !! j = Some (mkGoroutine s AtScan)) idxs order.
Proof.
  intros Hi H. induction H as [|j s idxs order Hj _ IH]; constructor.
  - rewrite list_lookup_insert_ne; [exact Hj|].
    intros ->. apply Hi, elem_of_cons. auto.
  - apply IH. intros Hin. apply Hi, elem_of_cons. auto.
Qed.

Lemma run_in_order (idxs : list nat) order gs (w : Z) v :
  NoDup idxs ->
  Forall2 (fun i s => gs !! i = Some (mkGoroutine s AtScan)) idxs order ->
  exists gs',
    run clock (concat (map (fun i => replicate 5 (Worker i)) idxs))
      (mkPState [] gs false w v)
    = Some (mkPState [] gs' false (w - Z.of_nat (length idxs))
              (scan_sequential clock order v)).
Proof.
  revert order gs w v.
  induction idxs as [|i idxs IH]; intros order gs w v Hnd H.
  - apply Forall2_nil_inv_l in H as ->. exists gs. simpl. rewrite Z.sub_0_r. reflexivity.
  - apply Forall2_cons_inv_l in H as (s & order' & Hi & H & ->).
    apply NoDup_cons in Hnd as [Hni Hnd].
    cbn [map concat]. rewrite run_app, (run_worker_at gs i s w v Hi).
    destruct (IH order' (<[i := mkGoroutine s Exited]> gs) (w - 1) (scan_one clock v s) Hnd
                (waiting_insert_ne gs i _ idxs order' Hni H)) as (gs' & ->).
    exists gs'. cbn [length]. do 2 f_equal. lia.
Qed.

Lemma scan_parallel_in_order ss order v :
  order ≡ₚ ss ->
  exists sched, scan_parallel clock sched ss v = Some (scan_sequential clock order v).
Proof.
  intros Hperm. apply Permutation_inj in Hperm as (Hlen & f & Hinj & Hf).
  exists (in_order (length ss) (map f (seq 0 (length order)))).
  unfold scan_parallel, in_order. rewrite run_app, run_spawn. cbn [app].
  destruct (run_in_order (map f (seq 0 (length order)))
              order (map (fun s => mkGoroutine s AtScan) ss)
              (0 + Z.of_nat (length ss)) v) as (gs' & ->).
  - apply NoDup_fmap_2; [exact Hinj|apply NoDup_seq].
  - apply Forall2_fmap_l. apply Forall2_seq_lookup. intros i s Hi. cbn.
    rewrite list_lookup_fmap, <- Hf, Hi. reflexivity.
  - unfold joined. cbn [todo wg sh]. rewrite length_map, length_seq, Hlen.
    replace (0 + Z.of_nat (length ss) - Z.of_nat (length ss)) with 0 by lia.
    reflexivity.
Qed.

(** Whatever order the probes are put in, some interleaving of the
    goroutines makes the parallel branch return exactly what the
    sequential loop returns for the probes in that order, timestamps
    included.  With the probes in their own order, this is the result
    of sequential mode. *)
Theorem RunScan_every_order (ss : slice Scanner) order (ctx : Ctx) (t0 : nat) :
  order ≡ₚ elems ss ->
  exists sched,
    RunScan clock (mkOrchestrator ss true) ctx sched t0
    = RunScan clock (mkOrchestrator (Some order) false) ctx [] t0.
Proof.
  intros Hperm. unfold RunScan. cbn [parallel scanners elems].
  destruct (scan_parallel_in_order (elems ss) order (mkShared None None (S t0)) Hperm)
    as (sched & Hs).
  exists sched. rewrite Hs. reflexivity.
Qed.

End EveryOrder.

Lemma RunScan_every_order_witness :
  exists sched,
    scanner.RunScan examples.ticking
      (scanner.mkOrchestrator
         (Some [examples.probe_agents; examples.probe_cron; examples.probe_hooks]) true)
      examples.background sched 0
    = scanner.RunScan examples.ticking
        (scanner.mkOrchestrator
           (Some [examples.probe_hooks; examples.probe_agents; examples.probe_cron]) false)
        examples.background [] 0.
Proof.
  apply (RunScan_every_order examples.ticking
           (Some [examples.probe_agents; examples.probe_cron; examples.probe_hooks])
           [examples.probe_hooks; examples.probe_agents; examples.probe_cron]).
  cbn [Go.elems].
  apply (Permutation_cons_append
           [examples.probe_agents; examples.probe_cron] examples.probe_hooks).
Defined.

(** ** The SARIF conversion *)

Section SARIFProperties.
Import Go scanner risk.

Implicit Types (item : PersistenceItem) (h : HeuristicResult)
  (results : slice output.SARIFResult).

(** What one verdict of one item contributes, and what one item does. *)
Definition results_of_heuristic item h : list output.SARIFResult :=
  elems (output.convert_heuristic item None h).

Definition results_of_item item : list output.SARIFResult :=
  if String.eqb (Level (Risk item)) RiskInfo then []
  else flat_map (results_of_heuristic item) (elems (Heuristics (Risk item))).

Lemma append_nil_r {A} (x : slice A) : append x [] = x.
Proof. destruct x as [l|]; simpl; rewrite ?app_nil_r; reflexivity. Qed.

Lemma convert_heuristic_spec item results h :
  output.convert_heuristic item results h = append results (results_of_heuristic item h).
Proof.
  unfold results_of_heuristic, output.convert_heuristic.
  destruct (Triggered h); cbn [negb elems]; [|rewrite append_nil_r; reflexivity].
  destruct (String.eqb _ ""); cbn [elems]; [rewrite append_nil_r; reflexivity|].
  destruct results; reflexivity.
Qed.

Lemma convert_heuristics_spec item results (hs : list HeuristicResult) :
  fold_left (output.convert_heuristic item) hs results
  = append results (flat_map (results_of_heuristic item) hs).
Proof.
  revert results. induction hs as [|h hs IH]; intros results; cbn [fold_left flat_map].
  - rewrite append_nil_r. reflexivity.
  - rewrite IH, convert_heuristic_spec, append_append. reflexivity.
Qed.

Lemma convert_item_spec results item :
  output.convert_item results item = append results (results_of_item item).
Proof.
  unfold output.convert_item, results_of_item.
  destruct (String.eqb _ RiskInfo); [rewrite append_nil_r; reflexivity|].
  apply convert_heuristics_spec.
Qed.

Lemma convertResults_spec (items : slice PersistenceItem) :
  output.convertResults items = append None (flat_map results_of_item (elems items)).
Proof.
  unfold output.convertResults. generalize (@None (list output.SARIFResult)).
  induction (elems items) as [|item l IH]; intros results; cbn [fold_left flat_map].
  - rewrite append_nil_r. reflexivity.
  - rewrite IH, convert_item_spec, append_append. reflexivity.
Qed.

(** The rule a heuristic name maps to, if any, is one of the rules the
    report declares. *)
Lemma heuristicToRuleID_declared (name : string) :
  output.heuristicToRuleID name = ""
  \/ output.heuristicToRuleID name ∈ map output.ID (elems output.generateRules).
Proof.
  unfold output.heuristicToRuleID.
  destruct (output.mapping !! name) as [id|] eqn:Hm; [right|left; reflexivity].
  apply elem_of_list_to_map_2 in Hm. cbn [default].
  unfold output.generateRules. cbn [elems map output.ID].
  repeat (apply elem_of_cons in Hm as [Hm|Hm];
          [injection Hm as _ ->; repeat constructor|]).
  apply elem_of_nil in Hm. destruct Hm.
Qed.

Lemma elem_of_results_of_heuristic item h (r : output.SARIFResult) :
  r ∈ results_of_heuristic item h ->
  Triggered h = true
  /\ output.heuristicToRuleID (Name h) <> ""
  /\ r = output.mkSARIFResult (output.heuristicToRuleID (Name h))
           (output.riskLevelToSARIF (Level (Risk item)))
           (output.mkSARIFMessage (Label item ++ ": " ++ Details h))
           (Some [output.mkSARIFLocation
                    (output.mkSARIFPhysicalLocation
                       (output.mkSARIFArtifactLocation (Path item)))]).
Proof.
  unfold results_of_heuristic, output.convert_heuristic.
  destruct (Triggered h); cbn [negb]; [|intros H; apply elem_of_nil in H; destruct H].
  destruct (String.eqb_spec (output.heuristicToRuleID (Name h)) "") as [He|He];
    [intros H; apply elem_of_nil in H; destruct H|].
  cbn [append elems app]. intros H. apply list_elem_of_singleton in H. auto.
Qed.

Lemma elem_of_convertResults (items : slice PersistenceItem) (r : output.SARIFResult) :
  r ∈ elems (output.convertResults items) <->
  exists item h,
    item ∈ elems items /\ Level (Risk item) <> RiskInfo
    /\ h ∈ elems (Heuristics (Risk item)) /\ r ∈ results_of_heuristic item h.
Proof.
  rewrite convertResults_spec, elems_append. cbn [elems app].
  rewrite list_elem_of_In, in_flat_map. split.
  - intros (item & Hitem & Hr). unfold results_of_item in Hr.
    destruct (String.eqb_spec (Level (Risk item)) RiskInfo) as [|Hne]; [destruct Hr|].
    apply in_flat_map in Hr as (h & Hh & Hr).
    exists item, h. rewrite !list_elem_of_In. auto.
  - intros (item & h & Hitem & Hne & Hh & Hr). exists item.
    rewrite <- list_elem_of_In. split; [exact Hitem|].
    unfold results_of_item.
    destruct (String.eqb_spec (Level (Risk item)) RiskInfo) as [|_]; [contradiction|].
    apply in_flat_map. exists h. rewrite <- !list_elem_of_In. auto.
Qed.

(** Every result of the conversion stems from a triggered verdict of an
    item that is not rated Info: it names the item's path, carries the
    level of the item's tier, and its rule is one of the four rules the
    report declares.  A verdict whose heuristic has no rule is left
    out. *)
Theorem convertResults_sound (items : slice PersistenceItem) (r : output.SARIFResult) :
  r ∈ elems (output.convertResults items) ->
  output.RuleID r ∈ map output.ID (elems output.generateRules)
  /\ exists item h,
       item ∈ elems items /\ Level (Risk item) <> RiskInfo
       /\ h ∈ elems (Heuristics (Risk item)) /\ Triggered h = true
       /\ output.RuleID r = output.heuristicToRuleID (Name h)
       /\ output.Level r = output.riskLevelToSARIF (Level (Risk item))
       /\ output.Text (output.Message r) = (Label item ++ ": " ++ Details h)%string
       /\ map (fun l => output.URI (output.ArtifactLocation (output.PhysicalLocation l)))
            (elems (output.Locations r)) = [Path item].
Proof.
  intros Hr. apply elem_of_convertResults in Hr as (item & h & Hitem & Hne & Hh & Hr).
  apply elem_of_results_of_heuristic in Hr as (Ht & Hid & ->).
  cbn [output.RuleID output.Level output.Message output.Text output.Locations].
  split.
  - destruct (heuristicToRuleID_declared (Name h)) as [|Hd]; [contradiction|exact Hd].
  - exists item, h. repeat split; assumption.
Qed.

(** With nothing to report the conversion returns the nil slice, never
    an empty one: this is so exactly when no item rated above Info has a
    triggered verdict of a heuristic that has a rule.  Otherwise the
    slice holds at least one result. *)
Theorem convertResults_nil (items : slice PersistenceItem) :
  (output.convertResults items = None
   \/ exists r rs, output.convertResults items = Some (r :: rs))
  /\ (output.convertResults items = None <->
      forall item h,
        item ∈ elems items -> Level (Risk item) <> RiskInfo ->
        h ∈ elems (Heuristics (Risk item)) -> Triggered h = true ->
        output.heuristicToRuleID (Name h) = "").
Proof.
  assert (output.convertResults items = None
          <-> elems (output.convertResults items) = []) as Hnil.
  { rewrite convertResults_spec.
    destruct (flat_map results_of_item (elems items)); cbn; split; congruence. }
  split.
  - rewrite convertResults_spec.
    destruct (flat_map results_of_item (elems items)) as [|r rs]; cbn; eauto.
  - rewrite Hnil. split.
    + intros Hempty item h Hitem Hne Hh Ht.
      destruct (String.eqb_spec (output.heuristicToRuleID (Name h)) "") as [He|He];
        [exact He|exfalso].
      assert (exists r, r ∈ results_of_heuristic item h) as [r Hr].
      { unfold results_of_heuristic, output.convert_heuristic. rewrite Ht. cbn [negb].
        destruct (String.eqb_spec (output.heuristicToRuleID (Name h)) "");
          [contradiction|].
        eexists. cbn [append elems app]. apply list_elem_of_singleton. reflexivity. }
      assert (r ∈ elems (output.convertResults items)) as Hin.
      { apply elem_of_convertResults. eauto 8. }
      rewrite Hempty in Hin. apply elem_of_nil in Hin. exact Hin.
    + intros Hnone.
      destruct (elems (output.convertResults items)) as [|r rs] eqn:Hres; [reflexivity|].
      assert (r ∈ elems (output.convertResults items)) as Hin
          by (rewrite Hres; apply elem_of_cons; auto).
      apply elem_of_convertResults in Hin as (item & h & Hitem & Hne & Hh & Hr).
      apply elem_of_results_of_heuristic in Hr as (Ht & Hid & _).
      exfalso. apply Hid. eauto.
Qed.

End SARIFProperties.

(** ** The [scan] command *)

Lemma scoreToRiskLevel_cases (s : float) :
  risk.scoreToRiskLevel s ∈
    [scanner.RiskCritical; scanner.RiskHigh; scanner.RiskMedium; scanner.RiskLow;
     scanner.RiskInfo].
Proof.
  unfold risk.scoreToRiskLevel.
  repeat (match goal with |- context [if ?c then _ else _] => destruct c end);
    repeat constructor.
Qed.

Section MainProperties.
Import Go scanner risk spec.
Context {World : Type}.
Variable clock : nat -> Time.
Variable fused : bool.
Variable sort_Slice : forall A : Type, (A -> A -> bool) -> list A -> list A.
Variable Format : output.Formatter -> ScanResult -> string * option string.

Implicit Types (e : Engine World) (items : list PersistenceItem) (w : World).

Lemma elem_of_merged_items_inv (item : PersistenceItem) (l : list Scanner) :
  item ∈ merged_items l ->
  exists s, s ∈ l /\ snd (Scan s) = None /\ item ∈ elems (fst (Scan s)).
Proof.
  unfold merged_items. rewrite list_elem_of_In, in_concat.
  intros (x & Hx & Hitem). apply in_map_iff in Hx as (s & <- & Hs).
  exists s. rewrite list_elem_of_In. split; [exact Hs|].
  unfold items_of in Hitem. destruct (snd (Scan s)); [destruct Hitem|].
  rewrite list_elem_of_In. auto.
Qed.

Lemma summary_positive items (level : RiskLevel) :
  (default 0 (fold_left tally items ∅ !! level) >? 0) = true ->
  exists item, item ∈ items /\ Level (Risk item) = level.
Proof.
  rewrite tally_fold.
  destruct (List.filter (fun item => String.eqb (Level (Risk item)) level) items)
    as [|item l] eqn:Hf; cbn [length].
  - rewrite lookup_empty. discriminate.
  - intros _. assert (In item (List.filter
      (fun item => String.eqb (Level (Risk item)) level) items)) as Hin
        by (rewrite Hf; left; reflexivity).
    apply filter_In in Hin as [Hin Heq]. exists item.
    rewrite list_elem_of_In. split; [exact Hin|]. apply String.eqb_eq, Heq.
Qed.

(** The exit status of the command is taken from the summary [RunScan]
    made before any item was assessed.  The command exits with status 3,
    2 or 1 only if some probe returned an item that already carried the
    level Critical, High or Medium; when the probes return their items
    without an assessment, as they do, the function returns (status 0
    unless formatting failed), whatever the engine finds. *)
Theorem runScan_exit_status (scanners : slice Scanner)
    (heuristicsList : slice (Heuristic World)) (outputFormat : string)
    (parallel verbose : bool) (sched : list thread) (t0 : nat) w
    (stdout : string) (oc : main.outcome) (w' : World) :
  main.runScan clock fused sort_Slice Format scanners heuristicsList outputFormat
    parallel verbose sched t0 w = Some (stdout, oc, w') ->
  (forall code, oc = main.Exit code ->
     exists level s item,
       (code = 3 /\ level = RiskCritical \/ code = 2 /\ level = RiskHigh
        \/ code = 1 /\ level = RiskMedium)
       /\ s ∈ elems scanners /\ snd (Scan s) = None
       /\ item ∈ elems (fst (Scan s)) /\ Level (Risk item) = level)
  /\ (Forall (fun s => Forall (fun item => Risk item = RiskAssessment_zero)
                         (elems (fst (Scan s)))) (elems scanners) ->
      exists err, oc = main.Return err).
Proof.
  intros Hrun.
  assert (forall code, oc = main.Exit code ->
     exists level s item,
       (code = 3 /\ level = RiskCritical \/ code = 2 /\ level = RiskHigh
        \/ code = 1 /\ level = RiskMedium)
       /\ s ∈ elems scanners /\ snd (Scan s) = None
       /\ item ∈ elems (fst (Scan s)) /\ Level (Risk item) = level) as Hexit.
  { unfold main.runScan in Hrun.
    destruct (RunScan clock (NewOrchestrator scanners parallel) (mkCtx false) sched t0)
      as [[result err]|] eqn:HR; [|discriminate].
    destruct (RunScan_spec clock _ _ _ _ _ _ HR) as (-> & order & Hperm & _ & Hres).
    destruct (main.assess fused sort_Slice (NewEngine heuristicsList) (elems (Items result)) w)
      as [items w1].
    destruct (Format _ _) as [data [ferr|]].
    { injection Hrun as _ <- _. discriminate. }
    cbn [main.set_Items RiskSummary] in Hrun.
    assert (forall level, (default 0 (RiskSummary result !! level) >? 0) = true ->
              exists s item, s ∈ elems scanners /\ snd (Scan s) = None
                /\ item ∈ elems (fst (Scan s)) /\ Level (Risk item) = level) as Hlevel.
    { intros level Hpos. rewrite Hres in Hpos. cbn [finish RiskSummary] in Hpos.
      apply summary_positive in Hpos as (item & Hitem & Hl).
      rewrite scan_sequential_spec in Hitem. cbn [allItems] in Hitem.
      rewrite elems_append in Hitem. cbn [elems app] in Hitem.
      apply elem_of_merged_items_inv in Hitem as (s & Hs & Hok & Hin).
      exists s, item. rewrite Hperm in Hs. cbn [NewOrchestrator scanner.scanners] in Hs.
      auto. }
    destruct (default 0 (RiskSummary result !! RiskCritical) >? 0) eqn:H3.
    { injection Hrun as _ <- _. intros code [= <-].
      destruct (Hlevel _ H3) as (s & item & H). exists RiskCritical, s, item. tauto. }
    destruct (default 0 (RiskSummary result !! RiskHigh) >? 0) eqn:H2.
    { injection Hrun as _ <- _. intros code [= <-].
      destruct (Hlevel _ H2) as (s & item & H). exists RiskHigh, s, item. tauto. }
    destruct (default 0 (RiskSummary result !! RiskMedium) >? 0) eqn:H1.
    { injection Hrun as _ <- _. intros code [= <-].
      destruct (Hlevel _ H1) as (s & item & H). exists RiskMedium, s, item. tauto. }
    injection Hrun as _ <- _. discriminate. }
  split; [exact Hexit|].
  intros Hzero. destruct oc as [code|err]; [exfalso|eauto].
  destruct (Hexit code eq_refl) as (level & s & item & Hcode & Hs & _ & Hitem & Hl).
  rewrite List.Forall_forall in Hzero.
  apply list_elem_of_In, Hzero in Hs. rewrite List.Forall_forall in Hs.
  apply list_elem_of_In, Hs in Hitem. rewrite Hitem in Hl. cbn in Hl.
  destruct Hcode as [[_ ->]|[[_ ->]|[_ ->]]]; discriminate.
Qed.

Lemma assess_levels e items w :
  Forall (fun item => Level (Risk item) = scoreToRiskLevel (RScore (Risk item)))
    (fst (main.assess fused sort_Slice e items w)).
Proof.
  revert w. induction items as [|item items IH]; intros w; cbn [main.assess].
  - constructor.
  - pose proof (AssessRisk_spec fused sort_Slice e (item, w)) as Hspec. cbv zeta in Hspec.
    destruct (AssessRisk fused sort_Slice e (item, w)) as [a [item' w1]].
    specialize (IH w1). destruct (main.assess fused sort_Slice e items w1) as [rest w2].
    cbn [fst] in *. constructor; [|exact IH].
    injection Hspec as -> _. reflexivity.
Qed.

(** In the SARIF report of a scan no result has the level "none": the
    items the conversion is given were assessed by the engine, whose
    tiers are the five named ones, and the items rated Info are left
    out. *)
Theorem SARIF_levels_of_assessed_items e items w (r : output.SARIFResult) :
  r ∈ elems (output.convertResults (Some (fst (main.assess fused sort_Slice e items w)))) ->
  output.Level r ∈ ["error"; "warning"; "note"].
Proof.
  intros Hr. apply elem_of_convertResults in Hr as (item & h & Hitem & Hne & _ & Hr).
  apply elem_of_results_of_heuristic in Hr as (_ & _ & ->). cbn [output.Level].
  pose proof (assess_levels e items w) as Hl. rewrite List.Forall_forall in Hl.
  apply list_elem_of_In, Hl in Hitem.
  pose proof (scoreToRiskLevel_cases (RScore (Risk item))) as Hc.
  rewrite <- Hitem in Hc.
  repeat (apply elem_of_cons in Hc as [Hc|Hc];
          [rewrite Hc in *; first [congruence | vm_compute; repeat constructor]|]).
  apply elem_of_nil in Hc. destruct Hc.
Qed.

(** With heuristics that are functions of the item, the loop of
    [runScan] assesses every item on its own: the items keep their
    order and their fields, each one gets the assessment the engine
    gives it in isolation, and the world is left as it was. *)
Theorem assess_independent e items w :
  Forall pure (elems (heuristics e)) ->
  main.assess fused sort_Slice e items w
  = (map (fun item => main.set_Risk item (fst (AssessRisk fused sort_Slice e (item, w)))) items,
     w).
Proof.
  intros Hp. induction items as [|item items IH]; cbn [main.assess map]; [reflexivity|].
  pose proof (AssessRisk_spec fused sort_Slice e (item, w)) as Hspec. cbv zeta in Hspec.
  destruct (verdicts_pure _ item w w Hp) as [_ Hafter]. rewrite Hafter in Hspec.
  destruct (AssessRisk fused sort_Slice e (item, w)) as [a [item' w1]].
  injection Hspec as -> -> ->. rewrite IH. reflexivity.
Qed.

End MainProperties.

(** ** The path heuristic *)

Section PathHeuristicProperties.
Import Go scanner risk spec Float64.

(** The verdicts the path heuristic can return: it is silent, or it
    reports one of six scores. *)
Lemma PathHeuristic_Analyze_cases (item : PersistenceItem) :
  heuristics.PathHeuristic_Analyze item
  = mkHeuristicResult "suspicious_path" false 0 0.9 ""
  \/ exists (s : float) (d : string),
       heuristics.PathHeuristic_Analyze item
       = mkHeuristicResult "suspicious_path" true s 0.9 d
       /\ s ∈ [0.8; 0.6; 0.7; 0.3; 0.5; 0.2]%float /\ d <> "".
Proof.
  unfold heuristics.PathHeuristic_Analyze. cbv zeta.
  cbn [Name Confidence heuristics.PathHeuristic_Name].
  destruct (List.find _ heuristics.suspiciousPatterns) as [p|] eqn:Hfind.
  - right. apply find_some in Hfind as [Hin _].
    exists (heuristics.score p), (heuristics.reason p). split; [reflexivity|].
    unfold heuristics.suspiciousPatterns in Hin.
    repeat (destruct Hin as [<-|Hin];
            [cbn [heuristics.score heuristics.reason];
             split; [repeat constructor|discriminate]|]).
    destruct Hin.
  - repeat (match goal with |- context [if ?c then _ else _] => destruct c end);
      (left; reflexivity)
      || (right; do 2 eexists; split; [reflexivity|];
          split; [repeat constructor|discriminate]).
Qed.

(** A verdict of the path heuristic is what the engine expects: it
    carries the name the SARIF rules are keyed on, its confidence is
    0.9, its score lies in [0, 1]; when it triggers, the score is at
    least 0.2 and at most 0.8 and there is an explanation; when it does
    not, the score is 0 and there is none. *)
Theorem PathHeuristic_verdict (item : PersistenceItem) :
  let r := heuristics.PathHeuristic_Analyze item in
  Name r = "suspicious_path"
  /\ output.heuristicToRuleID (Name r) = "suspicious-path"
  /\ Confidence r = 0.9%float
  /\ in_unit (Score r) = true
  /\ (Triggered r = true ->
      fge (Score r) 0.2 = true /\ fge 0.8 (Score r) = true /\ Details r <> "")
  /\ (Triggered r = false -> Score r = 0%float /\ Details r = "").
Proof.
  cbv zeta.
  destruct (PathHeuristic_Analyze_cases item) as [->|(s & d & -> & Hs & Hd)];
    cbn [Name Confidence Score Triggered Details].
  - repeat split; try reflexivity; discriminate.
  - repeat (apply elem_of_cons in Hs as [->|Hs];
            [repeat split; try reflexivity; try discriminate; exact Hd|]).
    apply elem_of_nil in Hs. destruct Hs.
Qed.

Lemma NewPathHeuristic_pure {World : Type} : pure (@heuristics.NewPathHeuristic World).
Proof. exists heuristics.PathHeuristic_Analyze. intros item w. reflexivity. Qed.

(** An engine that holds the path heuristic alone rates an item by the
    score of the heuristic, exactly: the weighted average of one score
    is that score (no rounding error arises for the scores the heuristic
    uses, whether the build fuses the multiply-add or not), so a program
    in a temporary directory is Critical.  The
    confidence is 0.9 when the heuristic triggers and 1.0 when it does
    not. *)
Theorem AssessRisk_path_only {World : Type} (fused : bool)
    (sort_Slice : forall A : Type, (A -> A -> bool) -> list A -> list A)
    (item : PersistenceItem) (w : World) :
  let r := heuristics.PathHeuristic_Analyze item in
  let a := fst (AssessRisk fused sort_Slice (NewEngine (Some [heuristics.NewPathHeuristic]))
                  (item, w)) in
  RScore a = Score r
  /\ Level a = scoreToRiskLevel (Score r)
  /\ RConfidence a = (if Triggered r then 0.9 else 1)%float
  /\ Reasons a = Some (if Triggered r then [Details r] else [])
  /\ (strings.Contains (Program item) "/tmp/" = true -> Level a = RiskCritical).
Proof.
  cbv zeta. rewrite AssessRisk_spec. cbv zeta.
  cbn [NewEngine heuristics elems verdicts heuristics.NewPathHeuristic Analyze fst snd].
  assert (strings.Contains (Program item) "/tmp/" = true ->
          heuristics.PathHeuristic_Analyze item
          = mkHeuristicResult "suspicious_path" true 0.8 0.9
              "Binary located in temporary directory") as Htmp.
  { intros Hc. unfold heuristics.PathHeuristic_Analyze. cbv zeta.
    destruct (String.eqb_spec (Program item) "") as [He|_].
    - rewrite He in Hc. discriminate Hc.
    - cbn [andb]. unfold heuristics.suspiciousPatterns. cbn [List.find heuristics.pattern].
      rewrite Hc. reflexivity. }
  destruct (strings.Contains (Program item) "/tmp/") eqn:Hc.
  { rewrite (Htmp eq_refl). destruct fused; repeat split; vm_compute; reflexivity. }
  destruct (PathHeuristic_Analyze_cases item) as [->|(s & d & -> & Hs & Hd)].
  - repeat split; try reflexivity. discriminate.
  - repeat (apply elem_of_cons in Hs as [->|Hs];
            [destruct fused; repeat split; try (vm_compute; reflexivity);
             discriminate|]).
    apply elem_of_nil in Hs. destruct Hs.
Qed.

End PathHeuristicProperties.

(** ** The command and the formatters on a concrete scan *)

Lemma finding_reported :
  samples.finding
  ∈ Go.elems (output.convertResults
       (Some (fst (main.assess true spec.stable_sort samples.path_engine
                     [samples.dropper; examples.item0] tt)))).
Proof. vm_compute. constructor. Qed.

Lemma convertResults_sound_witness :
  output.RuleID samples.finding ∈ map output.ID (Go.elems output.generateRules).
Proof.
  apply (convertResults_sound
           (Some (fst (main.assess true spec.stable_sort samples.path_engine
                         [samples.dropper; examples.item0] tt)))
           samples.finding).
  exact finding_reported.
Defined.

Lemma SARIF_levels_of_assessed_items_witness :
  output.Level samples.finding ∈ ["error"; "warning"; "note"].
Proof.
  apply (SARIF_levels_of_assessed_items true spec.stable_sort samples.path_engine
           [samples.dropper; examples.item0] tt samples.finding).
  exact finding_reported.
Defined.

Lemma runScan_exit_status_witness :
  exists stdout err,
    main.runScan examples.ticking true spec.stable_sort samples.report
      (Some [samples.probe_daemons; examples.probe_cron])
      (Some [heuristics.NewPathHeuristic]) "sarif" true false (in_turn 2) 0 tt
    = Some (stdout, main.Return err, tt)
    /\ scanner.Level (fst (risk.AssessRisk true spec.stable_sort samples.path_engine
                            (samples.dropper, tt))) = scanner.RiskCritical.
Proof.
  destruct (main.runScan examples.ticking true spec.stable_sort samples.report
              (Some [samples.probe_daemons; examples.probe_cron])
              (Some [heuristics.NewPathHeuristic]) "sarif" true false (in_turn 2) 0 tt)
    as [[[stdout oc] []]|] eqn:Hrun; [|vm_compute in Hrun; discriminate].
  destruct (proj2 (runScan_exit_status _ _ _ _ _ _ _ _ _ _ _ _ _ _ _ Hrun)) as [err ->].
  - repeat constructor.
  - exists stdout, err. split; [reflexivity|]. vm_compute. reflexivity.
Defined.

Lemma assess_independent_witness :
  main.assess true spec.stable_sort samples.path_engine [samples.dropper; examples.item0] tt
  = (map (fun item =>
            main.set_Risk item
              (fst (risk.AssessRisk true spec.stable_sort samples.path_engine (item, tt))))
       [samples.dropper; examples.item0], tt).
Proof.
  apply (assess_independent true spec.stable_sort samples.path_engine
           [samples.dropper; examples.item0] tt).
  repeat constructor. apply NewPathHeuristic_pure.
Defined.

(** ** [sort.Slice] rearranges: it neither drops nor duplicates an element *)

Section SlicePermutation.
Context {A : Type} (less : A -> A -> bool) (next : Z -> Z).

Implicit Types (data : list A).

Lemma insert_lookup_perm data (j : nat) (a y : A) :
  data !! j = Some y -> y :: <[j := a]> data ≡ₚ a :: data.
Proof.
  revert j. induction data as [|b l IH]; intros j Hj.
  - rewrite lookup_nil in Hj. discriminate.
  - destruct j as [|j]; cbn in Hj |- *.
    + injection Hj as ->. apply perm_swap.
    + rewrite (perm_swap b y), (IH j Hj). apply perm_swap.
Qed.

Lemma Swap_perm data (i j : nat) : sort.Swap data i j ≡ₚ data.
Proof.
  unfold sort.Swap.
  destruct (data !! i) as [x|] eqn:Hi; [|reflexivity].
  destruct (data !! j) as [y|] eqn:Hj; [|reflexivity].
  revert i j Hi Hj. induction data as [|a l IH]; intros i j Hi Hj.
  - rewrite lookup_nil in Hi. discriminate.
  - destruct i as [|i], j as [|j]; cbn in Hi, Hj |- *.
    + injection Hi as ->. injection Hj as ->. reflexivity.
    + injection Hi as ->. apply insert_lookup_perm, Hj.
    + injection Hj as ->. apply insert_lookup_perm, Hi.
    + apply perm_skip, IH; assumption.
Qed.

Ltac perm_if :=
  repeat lazymatch goal with
         | |- (if ?c then _ else _) ≡ₚ _ => destruct c
         end.

Lemma insertion_inner_perm data (a j : nat) : sort.insertion_inner less data a j ≡ₚ data.
Proof.
  revert data. induction j as [|j IH]; intros data; cbn [sort.insertion_inner];
    [reflexivity|].
  perm_if; [|reflexivity]. rewrite IH. apply Swap_perm.
Qed.

Lemma insertion_outer_perm data (a i n : nat) :
  sort.insertion_outer less data a i n ≡ₚ data.
Proof.
  revert data i. induction n as [|n IH]; intros data i; cbn [sort.insertion_outer];
    [reflexivity|].
  rewrite IH. apply insertion_inner_perm.
Qed.

Lemma insertionSort_perm data (a b : nat) : sort.insertionSortLessFunc less data a b ≡ₚ data.
Proof. apply insertion_outer_perm. Qed.

Lemma siftDown_perm data (lo hi first : nat) :
  sort.siftDownLessFunc less data lo hi first ≡ₚ data.
Proof.
  unfold sort.siftDownLessFunc. generalize (S hi) as fuel. intros fuel.
  revert data lo. induction fuel as [|fuel IH]; intros data lo; cbn [sort.siftDown_loop];
    [reflexivity|].
  cbv zeta. perm_if; try reflexivity; rewrite IH; apply Swap_perm.
Qed.

Lemma heap_build_perm data (k hi first : nat) : sort.heap_build less data k hi first ≡ₚ data.
Proof.
  revert data. induction k as [|k IH]; intros data; cbn [sort.heap_build]; [reflexivity|].
  rewrite IH. apply siftDown_perm.
Qed.

Lemma heap_pop_perm data (k first : nat) : sort.heap_pop less data k first ≡ₚ data.
Proof.
  revert data. induction k as [|k IH]; intros data; cbn [sort.heap_pop]; [reflexivity|].
  rewrite IH, siftDown_perm. apply Swap_perm.
Qed.

Lemma heapSort_perm data (a b : nat) : sort.heapSortLessFunc less data a b ≡ₚ data.
Proof. unfold sort.heapSortLessFunc. cbv zeta. rewrite heap_pop_perm. apply heap_build_perm. Qed.

Lemma breakPatterns_perm data (a b : nat) : sort.breakPatternsLessFunc next data a b ≡ₚ data.
Proof.
  unfold sort.breakPatternsLessFunc. cbv zeta. perm_if; [|reflexivity].
  cbn [fold_left]. unfold sort.breakPatterns_step. cbn [fst].
  rewrite !Swap_perm. reflexivity.
Qed.

Lemma reverseRange_perm data (a b : nat) : sort.reverseRangeLessFunc data a b ≡ₚ data.
Proof.
  unfold sort.reverseRangeLessFunc. generalize (b - a)%nat as fuel, (b - 1)%nat as j.
  intros fuel. revert data a. induction fuel as [|fuel IH]; intros data i j;
    cbn [sort.reverse_loop]; [reflexivity|].
  perm_if; [|reflexivity]. rewrite IH. apply Swap_perm.
Qed.

Lemma shift_left_perm data (j : nat) : sort.shift_left less data j ≡ₚ data.
Proof.
  revert data. induction j as [|j IH]; intros data; cbn [sort.shift_left]; [reflexivity|].
  perm_if; [reflexivity|]. rewrite IH. apply Swap_perm.
Qed.

Lemma shift_right_perm data (j n : nat) : sort.shift_right less data j n ≡ₚ data.
Proof.
  revert data j. induction n as [|n IH]; intros data j; cbn [sort.shift_right];
    [reflexivity|].
  perm_if; [reflexivity|]. rewrite IH. apply Swap_perm.
Qed.

Lemma partialInsertionSort_perm data (a b : nat) :
  fst (sort.partialInsertionSortLessFunc less data a b) ≡ₚ data.
Proof.
  unfold sort.partialInsertionSortLessFunc. cbv zeta.
  generalize 5%nat as steps, (a + 1)%nat as i. intros steps.
  revert data. induction steps as [|steps IH]; intros data i;
    cbn [sort.partialInsertion_loop]; [reflexivity|].
  cbv zeta.
  destruct (_ =? b)%nat; [reflexivity|].
  destruct (_ <? 50)%nat; [reflexivity|].
  rewrite IH.
  destruct (2 <=? b - _)%nat; rewrite ?shift_right_perm;
    destruct (2 <=? _ - a)%nat; rewrite ?shift_left_perm; apply Swap_perm.
Qed.

Lemma partition_loop_perm (fuel : nat) data (a i j : nat) :
  fst (sort.partition_loop less fuel data a i j) ≡ₚ data.
Proof.
  revert data i j. induction fuel as [|fuel IH]; intros data i j;
    cbn [sort.partition_loop]; [reflexivity|].
  cbv zeta. destruct (_ <? _)%nat; [reflexivity|]. rewrite IH. apply Swap_perm.
Qed.

Lemma partition_perm data (a b pivot : nat) :
  fst (fst (sort.partitionLessFunc less data a b pivot)) ≡ₚ data.
Proof.
  unfold sort.partitionLessFunc. cbv zeta.
  destruct (_ <? _)%nat; cbn [fst]; [rewrite !Swap_perm; reflexivity|].
  match goal with
  | |- context [sort.partition_loop less ?f ?d ?x ?y ?z] =>
      pose proof (partition_loop_perm f d x y z) as H;
      destruct (sort.partition_loop less f d x y z) as [data' j']
  end.
  cbn [fst] in *. rewrite Swap_perm, H, !Swap_perm. reflexivity.
Qed.

Lemma partitionEqual_perm data (a b pivot : nat) :
  fst (sort.partitionEqualLessFunc less data a b pivot) ≡ₚ data.
Proof.
  unfold sort.partitionEqualLessFunc. cbv zeta.
  transitivity (sort.Swap data a pivot); [|apply Swap_perm].
  generalize (sort.Swap data a pivot) as d, (S (b - a)) as fuel, (a + 1)%nat as i,
    (b - 1)%nat as j.
  intros d fuel. revert d. induction fuel as [|fuel IH]; intros d i j;
    cbn [sort.partitionEqual_loop]; [reflexivity|].
  cbv zeta. destruct (_ <? _)%nat; [reflexivity|]. rewrite IH. apply Swap_perm.
Qed.

Lemma pdqsort_loop_perm (fuel : nat) data (a b limit : nat) (wasBalanced wasPartitioned : bool) :
  sort.pdqsort_loop less next fuel data a b limit wasBalanced wasPartitioned ≡ₚ data.
Proof.
  revert data a b limit wasBalanced wasPartitioned.
  induction fuel as [|fuel IH]; intros data a b limit wb wp; cbn [sort.pdqsort_loop];
    [reflexivity|].
  cbv zeta.
  destruct (b - a <=? 12)%nat; [apply insertionSort_perm|].
  destruct (limit =? 0)%nat; [apply heapSort_perm|].
  destruct (if negb wb then _ else _) as [data1 limit1] eqn:H1.
  assert (data1 ≡ₚ data) as P1.
  { destruct wb; cbn [negb] in H1; injection H1 as <- _;
      [reflexivity|apply breakPatterns_perm]. }
  destruct (sort.choosePivotLessFunc less data1 a b) as [pivot hint].
  destruct (match hint with sort.decreasingHint => _ | _ => _ end)
    as [[data2 pivot2] hint2] eqn:H2.
  assert (data2 ≡ₚ data) as P2.
  { destruct hint; injection H2 as <- _ _; rewrite ?reverseRange_perm; exact P1. }
  destruct (if match hint2 with sort.increasingHint => wb && wp | _ => false end
            then sort.partialInsertionSortLessFunc less data2 a b else (data2, false))
    as [data3 sorted] eqn:H3.
  assert (data3 ≡ₚ data) as P3.
  { destruct (match hint2 with sort.increasingHint => wb && wp | _ => false end).
    - pose proof (partialInsertionSort_perm data2 a b) as H. rewrite H3 in H.
      cbn [fst] in H. rewrite H. exact P2.
    - injection H3 as <- _. exact P2. }
  destruct sorted; [exact P3|].
  destruct ((0 <? a)%nat && negb (sort.Less less data3 (a - 1) pivot2)).
  - pose proof (partitionEqual_perm data3 a b pivot2) as H.
    destruct (sort.partitionEqualLessFunc less data3 a b pivot2) as [data4 mid].
    cbn [fst] in H. rewrite IH, H. exact P3.
  - pose proof (partition_perm data3 a b pivot2) as H.
    destruct (sort.partitionLessFunc less data3 a b pivot2) as [[data4 mid] already].
    cbn [fst] in H. destruct (_ <? _)%nat; rewrite !IH, H; exact P3.
Qed.

Lemma Slice_perm (x : list A) : sort.Slice less next x ≡ₚ x.
Proof. apply pdqsort_loop_perm. Qed.

End SlicePermutation.

Section SortedEngineProperties.
Import Go scanner risk spec.
Context {World : Type}.
Variable fused : bool.

(** Whatever the scores are (NaN included) and however many heuristics
    there are, Go's [sort.Slice] only rearranges the verdicts: the
    verdict list of an assessment holds every verdict the heuristics
    returned, each as often as it was returned, and nothing else; its
    length is the number of heuristics. *)
Theorem AssessRisk_keeps_every_verdict (next : Z -> Z) (e : Engine World)
    (st : PersistenceItem * World) :
  exists out,
    Heuristics (fst (AssessRisk fused (examples.go_sort_Slice next) e st)) = Some out
    /\ out ≡ₚ verdicts (elems (heuristics e)) st
    /\ length out = length (elems (heuristics e)).
Proof.
  rewrite AssessRisk_spec. cbv zeta. cbn [fst Heuristics].
  unfold examples.go_sort_Slice. eexists. split; [reflexivity|].
  pose proof (Slice_perm by_score_desc next (verdicts (elems (heuristics e)) st)) as Hp.
  split; [exact Hp|]. rewrite Hp. apply verdicts_length.
Qed.

End SortedEngineProperties.

(** ** Growing the orchestrator and the engine *)

Section AddScannerProperties.
Import Go scanner spec.

(** The two scans are two calls: each reads its own clock. *)
Variable clock clock' : nat -> Time.

(** [AddScanner] puts the probe at the end.  In sequential mode a scan
    of the longer orchestrator returns what a scan of the shorter one
    returns, extended: the items of the new probe follow the others,
    and when the new probe fails, its error (kind, path and text) follows
    the others.  Nothing is said of the times, which are read anew in
    every scan. *)
Theorem RunScan_AddScanner (o : Orchestrator) (s : Scanner) (ctx ctx' : Ctx)
    (t0 t0' : nat) (r r' : ScanResult) :
  parallel o = false ->
  RunScan clock o ctx [] t0 = Some (r, None) ->
  RunScan clock' (AddScanner o s) ctx' [] t0' = Some (r', None) ->
  elems (Items r') = elems (Items r) ++ items_of s
  /\ TotalItems r' = TotalItems r + Z.of_nat (length (items_of s))
  /\ map error_key (elems (SErrors r'))
     = map error_key (elems (SErrors r))
       ++ match snd (Scan s) with
          | Some msg => [(Type_ s, "", msg)]
          | None => []
          end.
Proof.
  intros Hseq. unfold RunScan, AddScanner. cbn [parallel scanners]. rewrite Hseq.
  intros [= <-] [= <-]. rewrite elems_append.
  assert (merged_items (elems (scanners o) ++ [s])
          = merged_items (elems (scanners o)) ++ items_of s) as Hitems.
  { unfold merged_items. rewrite map_app, concat_app. cbn [map concat].
    rewrite app_nil_r. reflexivity. }
  split; [rewrite !finish_items; exact Hitems|]. split.
  - rewrite !scan_sequential_spec. cbn [finish TotalItems allItems]. unfold len.
    rewrite !elems_append. cbn [elems app]. rewrite Hitems, length_app. lia.
  - rewrite !finish_errors, !errors_from_keys. unfold failures.
    rewrite omap_app. cbn [omap list_omap]. unfold failure_of at 2.
    destruct (snd (Scan s)); reflexivity.
Qed.

End AddScannerProperties.

Lemma RunScan_AddScanner_witness :
  exists r r',
    scanner.RunScan (fun k => 1000 + examples.ticking k)
      (scanner.AddScanner (scanner.NewOrchestrator (Some [examples.probe_agents]) false)
         examples.probe_cron) examples.background [] 5 = Some (r', None)
    /\ scanner.RunScan examples.ticking
         (scanner.NewOrchestrator (Some [examples.probe_agents]) false)
         examples.background [] 0 = Some (r, None)
    /\ map spec.error_key (Go.elems (scanner.SErrors r'))
       = map spec.error_key (Go.elems (scanner.SErrors r))
         ++ [(scanner.MechanismCronJob, EmptyString, "permission denied"%string)].
Proof.
  eexists _, _. split; [reflexivity|]. split; [reflexivity|].
  apply (RunScan_AddScanner examples.ticking (fun k => 1000 + examples.ticking k)
           (scanner.NewOrchestrator (Some [examples.probe_agents]) false)
           examples.probe_cron examples.background examples.background 0 5);
    reflexivity.
Defined.

Section AddHeuristicProperties.
Import Go scanner risk spec.
Context {World : Type}.
Variable fused : bool.
Variable sort_Slice : forall A : Type, (A -> A -> bool) -> list A -> list A.

Implicit Types (e : Engine World) (h : Heuristic World) (st : PersistenceItem * World).

Lemma verdicts_snoc (hs : list (Heuristic World)) h st :
  verdicts (hs ++ [h]) st = verdicts hs st ++ [fst (Analyze h (after hs st))]
  /\ after (hs ++ [h]) st = snd (Analyze h (after hs st)).
Proof.
  revert st. induction hs as [|h0 hs IH]; intros st; cbn [app verdicts after].
  - auto.
  - destruct (IH (snd (Analyze h0 st))) as [-> ->]. auto.
Qed.

(** [AddHeuristic] puts the heuristic at the end: it runs last, on the
    item and the world as the others leave them, and its reason, if it
    triggers, comes last.  A heuristic that stays silent changes
    neither the level, nor the score, nor the confidence, nor the
    reasons of the assessment. *)
Theorem AssessRisk_AddHeuristic e h st :
  let v := fst (Analyze h (snd (AssessRisk fused sort_Slice e st))) in
  let a := fst (AssessRisk fused sort_Slice e st) in
  let a' := fst (AssessRisk fused sort_Slice (AddHeuristic e h) st) in
  snd (AssessRisk fused sort_Slice (AddHeuristic e h) st)
  = snd (Analyze h (snd (AssessRisk fused sort_Slice e st)))
  /\ Reasons a' = Some (elems (Reasons a) ++ if Triggered v then [Details v] else [])
  /\ (Triggered v = false ->
      Level a' = Level a /\ RScore a' = RScore a /\ RConfidence a' = RConfidence a
      /\ Reasons a' = Reasons a).
Proof.
  cbv zeta. rewrite !AssessRisk_spec. cbv zeta.
  cbn [fst snd Level RScore RConfidence Reasons AddHeuristic heuristics elems].
  rewrite elems_append.
  destruct (verdicts_snoc (elems (heuristics e)) h st) as [-> ->].
  set (vs := verdicts (elems (heuristics e)) st).
  set (v := fst (Analyze h (after (elems (heuristics e)) st))).
  assert (triggered (vs ++ [v]) = triggered vs ++ if Triggered v then [v] else []) as Ht.
  { unfold triggered. rewrite List.filter_app. cbn [List.filter].
    destruct (Triggered v); reflexivity. }
  split; [reflexivity|]. split.
  - rewrite Ht, map_app. destruct (Triggered v); reflexivity.
  - intros Hv. unfold score_sum, confidences. rewrite Ht, Hv, app_nil_r. auto.
Qed.

(** The Notes cell of the table lists the flags that are set, in the
    order RunAtLoad, KeepAlive, Disabled, and then one reason: that of
    the first heuristic that triggered in execution order, whatever the
    scores are. *)
Theorem formatNotes_first_reason e (item : PersistenceItem) (w : World) :
  let a := fst (AssessRisk fused sort_Slice e (item, w)) in
  output.formatNotes (main.set_Risk item a)
  = strings.Join
      ((if RunAtLoad item then ["RunAtLoad"] else [])
       ++ (if KeepAlive item then ["KeepAlive"] else [])
       ++ (if Disabled item then ["Disabled"] else [])
       ++ match triggered (verdicts (elems (heuristics e)) (item, w)) with
          | v :: _ => [Details v]
          | [] => []
          end) ", ".
Proof.
  cbv zeta. rewrite AssessRisk_spec. cbv zeta. unfold output.formatNotes.
  cbn [fst main.set_Risk RunAtLoad KeepAlive Disabled Risk Reasons elems].
  destruct (triggered (verdicts (elems (heuristics e)) (item, w))) as [|v vs];
    destruct (RunAtLoad item), (KeepAlive item), (Disabled item); reflexivity.
Qed.

End AddHeuristicProperties.

(** ** The name heuristic *)

Section NameHeuristicProperties.
Variable Map_unicode_ToLower : string -> string.

Lemma prefix_app_l (a b s : string) :
  String.prefix (a ++ b) s = true -> String.prefix a s = true.
Proof.
  revert s. induction a as [|c a IH]; intros s H.
  - destruct s; reflexivity.
  - destruct s as [|c' s]; [discriminate H|]. simpl in H |- *.
    destruct (Ascii.ascii_dec c c'); [apply IH, H|discriminate H].
Qed.

Lemma Contains_prefix (s a b : string) :
  strings.Contains s (a ++ b) = true -> strings.Contains s a = true.
Proof.
  induction s as [|c s IH]; cbn [strings.Contains]; intros H;
    apply orb_true_iff in H as [H|H]; apply orb_true_iff.
  - left. apply (prefix_app_l a b), H.
  - discriminate.
  - left. apply (prefix_app_l a b), H.
  - right. apply IH, H.
Qed.

(** One generic word is enough: a name in which "updater" occurs, in
    whatever letter case, is judged suspicious, because "update" occurs
    in it as well and the two count as two words. *)
Theorem isSuspiciousNaming_updater (name : string) :
  strings.Contains (strings.ToLower Map_unicode_ToLower name) "updater" = true ->
  heuristics.isSuspiciousNaming Map_unicode_ToLower name = true.
Proof.
  intros Hr. pose proof (Contains_prefix _ "update" "r" Hr) as He.
  unfold heuristics.isSuspiciousNaming. cbv zeta.
  destruct (existsb _ heuristics.appleMimicry); [reflexivity|].
  unfold heuristics.suspicious. cbn [fold_left]. rewrite He, Hr.
  repeat match goal with
         | |- context [if strings.Contains ?s ?w then _ else _] =>
             destruct (strings.Contains s w)
         end; vm_compute; reflexivity.
Qed.

End NameHeuristicProperties.

Lemma isSuspiciousNaming_updater_witness :
  heuristics.isSuspiciousNaming (fun s => s) "GoogleUpdater" = true.
Proof.
  apply (isSuspiciousNaming_updater (fun s => s) "GoogleUpdater").
  vm_compute. reflexivity.
Defined.

(** ** The signature heuristic in the loop of [runScan] *)

Section SignatureProperties.
Import Go scanner risk spec.
Variable fused : bool.
Variable sort_Slice : forall A : Type, (A -> A -> bool) -> list A -> list A.

(** The command line of [codesign] for an item. *)
Definition codesign_argv (item : PersistenceItem) : list string :=
  ["codesign"; "-dv"; "--verbose=4"; Program item].

Definition has_program (item : PersistenceItem) : bool :=
  negb (String.eqb (Program item) "").

Lemma SignatureHeuristic_Analyze_world (item : PersistenceItem) (m : heuristics.Machine) :
  snd (heuristics.SignatureHeuristic_Analyze (item, m))
  = (item,
     heuristics.mkMachine (heuristics.CombinedOutput m)
       (heuristics.commands m ++ if has_program item then [codesign_argv item] else [])).
Proof.
  unfold heuristics.SignatureHeuristic_Analyze, has_program, codesign_argv.
  destruct (String.eqb (Program item) ""); cbn [negb].
  - rewrite app_nil_r. destruct m; reflexivity.
  - unfold heuristics.exec_CombinedOutput.
    destruct (heuristics.CombinedOutput m _) as [output [err|]]; cbv zeta;
      repeat match goal with |- context [if ?c then _ else _] => destruct c end;
      reflexivity.
Qed.

(** With the signature heuristic in front of heuristics that are
    functions of the item, the loop of [runScan] runs [codesign] once
    for every item that names a program, in the order of the items, and
    not at all for the others; it runs no other command, and it leaves
    every field of the items but [Risk] as it was. *)
Theorem assess_runs_codesign (rest : list (Heuristic heuristics.Machine))
    (items : list PersistenceItem) (m : heuristics.Machine) :
  Forall pure rest ->
  heuristics.commands
    (snd (main.assess fused sort_Slice
            (NewEngine (Some (heuristics.NewSignatureHeuristic :: rest))) items m))
  = heuristics.commands m ++ map codesign_argv (List.filter has_program items)
  /\ map (fun item => main.set_Risk item RiskAssessment_zero)
       (fst (main.assess fused sort_Slice
               (NewEngine (Some (heuristics.NewSignatureHeuristic :: rest))) items m))
     = map (fun item => main.set_Risk item RiskAssessment_zero) items.
Proof.
  intros Hp. revert m. induction items as [|item items IH]; intros m;
    cbn [main.assess List.filter map].
  - cbn [snd fst]. rewrite app_nil_r. auto.
  - pose proof (AssessRisk_spec fused sort_Slice
                  (NewEngine (Some (heuristics.NewSignatureHeuristic :: rest)))
                  (item, m)) as Hspec.
    cbv zeta in Hspec. apply (f_equal snd) in Hspec.
    cbn [snd NewEngine heuristics elems after heuristics.NewSignatureHeuristic Analyze]
      in Hspec.
    rewrite SignatureHeuristic_Analyze_world in Hspec.
    set (m' := heuristics.mkMachine (heuristics.CombinedOutput m)
                 (heuristics.commands m
                  ++ if has_program item then [codesign_argv item] else [])) in *.
    destruct (verdicts_pure rest item m' m' Hp) as [_ Hafter].
    rewrite Hafter in Hspec.
    destruct (AssessRisk fused sort_Slice _ (item, m)) as [a [item' m1]].
    cbn [snd] in Hspec. injection Hspec as -> ->. subst m'.
    destruct (IH (heuristics.mkMachine (heuristics.CombinedOutput m)
                    (heuristics.commands m
                     ++ if has_program item then [codesign_argv item] else [])))
      as [IH1 IH2].
    destruct (main.assess fused sort_Slice _ items _) as [rest' m2].
    cbn [fst snd heuristics.commands map] in *. split.
    + rewrite IH1. destruct (has_program item); cbn [map app];
        rewrite <- ?app_assoc; reflexivity.
    + rewrite IH2. reflexivity.
Qed.

End SignatureProperties.

Lemma assess_runs_codesign_witness :
  heuristics.commands
    (snd (main.assess true spec.stable_sort
            (risk.NewEngine
               (Some [heuristics.NewSignatureHeuristic; heuristics.NewPathHeuristic]))
            [samples.dropper; examples.item0] samples.unsigned_machine))
  = [["codesign"; "-dv"; "--verbose=4"; "/tmp/payload.sh"];
     ["codesign"; "-dv"; "--verbose=4"; "/usr/local/bin/agent"]].
Proof.
  refine (proj1 (assess_runs_codesign true spec.stable_sort [heuristics.NewPathHeuristic]
                   [samples.dropper; examples.item0] samples.unsigned_machine _)).
  repeat constructor. apply NewPathHeuristic_pure.
Defined.

(** ** The name heuristic and names that start with com.apple. *)

Section AppleNames.
Variable Map_unicode_ToLower : string -> string.

(** The test for names that mimic Apple's never fires on a name that
    starts with com.apple. (in whatever letter case): such a name is
    judged suspicious exactly when at least two of the seven generic
    words occur in it. *)
Theorem isSuspiciousNaming_apple_prefix (name : string) :
  strings.HasPrefix (strings.ToLower Map_unicode_ToLower name) "com.apple." = true ->
  heuristics.isSuspiciousNaming Map_unicode_ToLower name
  = (2 <=? length (List.filter
                     (strings.Contains (strings.ToLower Map_unicode_ToLower name))
                     heuristics.suspicious))%nat.
Proof.
  intros Hp. unfold heuristics.isSuspiciousNaming. cbv zeta. rewrite Hp.
  assert (existsb (fun mimic =>
            strings.Contains (strings.ToLower Map_unicode_ToLower name) mimic
            && negb true) heuristics.appleMimicry = false) as ->.
  { induction heuristics.appleMimicry as [|x l IH]; [reflexivity|].
    cbn [existsb]. rewrite IH, andb_false_r. reflexivity. }
  unfold heuristics.suspicious. cbn [fold_left List.filter].
  repeat match goal with
         | |- context [strings.Contains ?s ?w] => destruct (strings.Contains s w)
         end; vm_compute; reflexivity.
Qed.

End AppleNames.

Lemma isSuspiciousNaming_apple_prefix_witness :
  heuristics.isSuspiciousNaming (fun s => s) "com.apple.systemd" = false.
Proof.
  rewrite (isSuspiciousNaming_apple_prefix (fun s => s) "com.apple.systemd").
  - vm_compute. reflexivity.
  - vm_compute. reflexivity.
Defined.
